(** * ProfilerTool: the log profiler of [Profiler.py]

    A shallow embedding of [TraceNode] and [LogProfiler] and the properties
    of the stack reconstruction engine, the classifier and the two renderers.

    Python objects are mutable and shared: a [TraceNode] that sits on a
    thread's stack is the same object that its parent lists among its
    [children].  The embedding therefore keeps every [TraceNode] in an object
    store ([heap], indexed by allocation order) and lets stacks, children
    lists and the forest hold references (indices) into it.

    Instants are [datetime] values; they are modelled by their number of
    microseconds (the resolution of [datetime]) as [Z].  Durations in
    milliseconds are the exact rationals [microseconds / 1000], and the sums
    and differences of the self time are exact.  The float that
    [duration_ms] returns is modelled where the program compares it, in the
    warn marker of the text report ([duration_ms_float]). *)

From Stdlib Require Import ZArith QArith Qminmax Lqa Lia.
From Stdlib Require Import String List Sorted.
From stdpp Require Import base option list strings.
Import ListNotations.

Local Open Scope Z_scope.
Local Open Scope nat_scope.
Local Open Scope list_scope.

Abbreviation length := List.length.

#[local] Set Warnings "-register-all".

(** ** Data structures *)

(** [class TraceNode]: [children] and [parent] are references into the
    object store. *)
Record TraceNode := mkTraceNode {
  name : string;
  start_time : Z;
  end_time : option Z;
  thread_id : Z;
  children : list nat;
  parent : option nat
}.

(** [TraceNode.__init__] *)
Definition TraceNode_init (nm : string) (start : Z) (tid : Z) : TraceNode :=
  {| name := nm; start_time := start; end_time := None; thread_id := tid;
     children := []; parent := None |}.

(** [TraceNode.close] *)
Definition close (end_t : Z) (self : TraceNode) : TraceNode :=
  {| name := name self; start_time := start_time self; end_time := Some end_t;
     thread_id := thread_id self; children := children self;
     parent := parent self |}.

(** [parent.children.append(new_node)] *)
Definition append_child (c : nat) (self : TraceNode) : TraceNode :=
  {| name := name self; start_time := start_time self;
     end_time := end_time self; thread_id := thread_id self;
     children := children self ++ [c]; parent := parent self |}.

(** [new_node.parent = parent] *)
Definition set_parent (p : nat) (self : TraceNode) : TraceNode :=
  {| name := name self; start_time := start_time self;
     end_time := end_time self; thread_id := thread_id self;
     children := children self; parent := Some p |}.

(** [TraceNode.duration_ms] as an exact number: [0] while the node is open,
    otherwise the difference of the two instants in milliseconds. *)
Definition duration_ms (self : TraceNode) : Q :=
  match end_time self with
  | None => 0%Q
  | Some e => Qmake (e - start_time self) 1000
  end.

(** The duration of the object a reference points to. *)
Definition duration_of (heap : list TraceNode) (c : nat) : Q :=
  from_option duration_ms 0%Q (heap !! c).

(** [sum(...)] over rationals. *)
Definition Qsum (l : list Q) : Q := fold_right Qplus 0%Q l.

(** [sum(c.duration_ms for c in self.children)] *)
Definition child_duration (heap : list TraceNode) (self : TraceNode) : Q :=
  Qsum (map (duration_of heap) (children self)).

(** [TraceNode.self_time_ms] *)
Definition self_time_ms (heap : list TraceNode) (self : TraceNode) : Q :=
  Qmax 0%Q (duration_ms self - child_duration heap self)%Q.

(** An entry of [self.event_defs].  The compiled regular expressions are
    kept as the predicates [re.search] decides on a message. *)
Record EventDef := mkEventDef {
  def_name : string;
  start_re : string -> bool;
  end_re : string -> bool;
  threshold : Q
}.

(** ** Python dictionaries keyed by thread id

    A [dict] keeps its keys in insertion order, and assigning to a key that
    is present keeps the key's position. *)

Fixpoint dict_get {V : Type} (k : Z) (d : list (Z * V)) : option V :=
  match d with
  | [] => None
  | (k', v) :: rest => if Z.eqb k k' then Some v else dict_get k rest
  end.

Fixpoint dict_set {V : Type} (k : Z) (v : V) (d : list (Z * V)) : list (Z * V) :=
  match d with
  | [] => [(k, v)]
  | (k', v') :: rest =>
      if Z.eqb k k' then (k', v) :: rest else (k', v') :: dict_set k v rest
  end.

(** ** The profiler object *)

Record LogProfiler := mkLogProfiler {
  event_defs : list EventDef;
  thread_stacks : list (Z * list nat);
  completed_roots : list nat;
  heap : list TraceNode
}.

(** The stack of a thread; a thread without an entry has no open node. *)
Definition stack_of (tid : Z) (self : LogProfiler) : list nat :=
  default [] (dict_get tid (thread_stacks self)).

(** The branch of [_check_events] taken when [definition['start_re']]
    matches: allocate the node, hang it under the top of the thread's stack
    and push it. *)
Definition observe_start (definition : EventDef) (tid : Z) (timestamp : Z)
    (self : LogProfiler) : LogProfiler :=
  let new_node := length (heap self) in
  let heap1 := heap self ++ [TraceNode_init (def_name definition) timestamp tid] in
  let stacks1 :=
    match dict_get tid (thread_stacks self) with
    | Some _ => thread_stacks self
    | None => dict_set tid [] (thread_stacks self)
    end in
  let stack := default [] (dict_get tid stacks1) in
  let heap2 :=
    match last stack with
    | Some parent_node =>
        alter (set_parent parent_node) new_node
          (alter (append_child new_node) parent_node heap1)
    | None => heap1
    end in
  {| event_defs := event_defs self;
     thread_stacks := dict_set tid (stack ++ [new_node]) stacks1;
     completed_roots := completed_roots self;
     heap := heap2 |}.

(** The branch of [_check_events] taken when [definition['end_re']]
    matches. *)
Definition observe_end (definition : EventDef) (tid : Z) (timestamp : Z)
    (self : LogProfiler) : LogProfiler :=
  match dict_get tid (thread_stacks self) with
  | Some stack =>
      match last stack with
      | Some node =>
          match heap self !! node with
          | Some obj =>
              if String.eqb (name obj) (def_name definition) then
                let stack1 := removelast stack in
                {| event_defs := event_defs self;
                   thread_stacks := dict_set tid stack1 (thread_stacks self);
                   completed_roots :=
                     match stack1 with
                     | [] => completed_roots self ++ [node]
                     | _ :: _ => completed_roots self
                     end;
                   heap := alter (close timestamp) node (heap self) |}
              else self
          | None => self
          end
      | None => self
      end
  | None => self
  end.

(** The loop of [_check_events] over [self.event_defs]: each definition is
    tried for its start pattern and then for its end pattern, and the first
    hit returns. *)
Fixpoint check_events_loop (defs : list EventDef) (tid : Z) (timestamp : Z)
    (message : string) (self : LogProfiler) : LogProfiler :=
  match defs with
  | [] => self
  | definition :: rest =>
      if start_re definition message then
        observe_start definition tid timestamp self
      else if end_re definition message then
        observe_end definition tid timestamp self
      else check_events_loop rest tid timestamp message self
  end.

(** [LogProfiler._check_events] *)
Definition _check_events (tid : Z) (timestamp : Z) (message : string)
    (self : LogProfiler) : LogProfiler :=
  check_events_loop (event_defs self) tid timestamp message self.

(** *** The classifier and the engine taken apart

    The spec describes [_check_events] as a classifier followed by
    [observe].  [classify] is the loop of [_check_events] with the two
    branches replaced by the signal they act on. *)

Inductive Signal :=
| StartSignal (definition : EventDef)
| EndSignal (definition : EventDef).

Fixpoint classify (defs : list EventDef) (message : string) : option Signal :=
  match defs with
  | [] => None
  | definition :: rest =>
      if start_re definition message then Some (StartSignal definition)
      else if end_re definition message then Some (EndSignal definition)
      else classify rest message
  end.

Definition observe (tid : Z) (timestamp : Z) (s : Signal) (self : LogProfiler)
    : LogProfiler :=
  match s with
  | StartSignal d => observe_start d tid timestamp self
  | EndSignal d => observe_end d tid timestamp self
  end.

(** [LogProfiler._close_dangling_events], the inner [while stack:] loop.
    [popped] lists the stack from its top down, the order in which
    [stack.pop()] returns the nodes. *)
Fixpoint close_stack (popped : list nat) (roots : list nat)
    (h : list TraceNode) : list nat * list TraceNode :=
  match popped with
  | [] => (roots, h)
  | node :: below =>
      let h1 :=
        match h !! node with
        | Some obj =>
            match end_time obj with
            | None => alter (close (start_time obj)) node h
            | Some _ => h
            end
        | None => h
        end in
      let roots1 :=
        match below with
        | [] => roots ++ [node]
        | _ :: _ => roots
        end in
      close_stack below roots1 h1
  end.

(** The outer loop [for tid, stack in self.thread_stacks.items()]: every
    stack is emptied in place. *)
Fixpoint close_all_stacks (stacks : list (Z * list nat)) (roots : list nat)
    (h : list TraceNode) : list (Z * list nat) * list nat * list TraceNode :=
  match stacks with
  | [] => ([], roots, h)
  | (tid, stack) :: rest =>
      let '(roots1, h1) := close_stack (rev stack) roots h in
      let '(rest', roots2, h2) := close_all_stacks rest roots1 h1 in
      ((tid, []) :: rest', roots2, h2)
  end.

(** [LogProfiler._close_dangling_events] *)
Definition _close_dangling_events (self : LogProfiler) : LogProfiler :=
  let '(stacks, roots, h) :=
    close_all_stacks (thread_stacks self) (completed_roots self) (heap self) in
  {| event_defs := event_defs self; thread_stacks := stacks;
     completed_roots := roots; heap := h |}.

(** ** Output methods *)

(** The phase ["ph"] of a trace record: ["B"] or ["E"]. *)
Inductive Phase := PhaseB | PhaseE.

(** The value of ["ts"].  [datetime.timestamp()] converts the naive local
    time of an instant through the time zone of the machine, and the result
    is a float.  The conversion is not modelled: a record keeps the instant
    its value is computed from, [TsOf t] for [t.timestamp() * 1_000_000] and
    [TsPlus100 t] for [t.timestamp() * 1_000_000 + 100]. *)
Inductive Timestamp :=
| TsOf (t : Z)
| TsPlus100 (t : Z).

(** A record of the exported trace, the dictionary built by
    [to_chrome_trace_events]. *)
Record TraceEvent := mkTraceEvent {
  ev_name : string;
  ev_cat : string;
  ev_ph : Phase;
  ev_ts : Timestamp;
  ev_pid : Z;
  ev_tid : Z
}.

(** The record appended under the comment [# Event Start]. *)
Definition begin_event (obj : TraceNode) (pid : Z) : TraceEvent :=
  {| ev_name := name obj; ev_cat := "PERF"%string; ev_ph := PhaseB;
     ev_ts := TsOf (start_time obj); ev_pid := pid;
     ev_tid := thread_id obj |}.

(** The record appended under the comment [# Event End], with [end_ts]. *)
Definition end_event (obj : TraceNode) (pid : Z) : TraceEvent :=
  {| ev_name := name obj; ev_cat := "PERF"%string; ev_ph := PhaseE;
     ev_ts := match end_time obj with
              | Some e => TsOf e
              | None => TsPlus100 (start_time obj)
              end;
     ev_pid := pid; ev_tid := thread_id obj |}.

(** [TraceNode.to_chrome_trace_events].  The method recurses through the
    object graph; [fuel] bounds the depth of the recursion and [None] stands
    for a recursion that does not come back. *)
Fixpoint to_chrome_trace_events (fuel : nat) (h : list TraceNode) (self : nat)
    (pid : Z) : option (list TraceEvent) :=
  match fuel with
  | O => None
  | S fuel' =>
      match h !! self with
      | None => None
      | Some obj =>
          match mapM (fun child => to_chrome_trace_events fuel' h child pid)
                  (children obj) with
          | None => None
          | Some sub =>
              Some (begin_event obj pid :: concat sub ++ [end_event obj pid])
          end
      end
  end.

(** [LogProfiler.export_chrome_trace]: the list handed to [json.dump].
    A tree of the store is never deeper than the store is long. *)
Definition export_chrome_trace (self : LogProfiler) : option (list TraceEvent) :=
  match mapM (fun root => to_chrome_trace_events (length (heap self)) (heap self) root 1%Z)
          (completed_roots self) with
  | None => None
  | Some per_root => Some (concat per_root)
  end.

(** *** Python floats

    A Python float is an IEEE 754 binary64 number, and the result of a
    division or a multiplication is the exact result rounded to the nearest
    float, ties to the even significand.  [binary64 q] is the float nearest
    to the rational [q], as a rational.  The range of the exponent is not
    modelled (no overflow, no subnormal numbers): the difference of two
    [datetime] values is a whole number of microseconds below [2^70], and
    its seconds and milliseconds lie far inside the range. *)

(** The integer nearest to [a / b] for [0 <= a] and [0 < b], ties to
    even. *)
Definition round_half_even (a b : Z) : Z :=
  let q := (a / b)%Z in
  let r := (a mod b)%Z in
  match (2 * r ?= b)%Z with
  | Lt => q
  | Gt => (q + 1)%Z
  | Eq => if Z.even q then q else (q + 1)%Z
  end.

(** [m * 2^e] *)
Definition scale2 (m e : Z) : Q :=
  if (0 <=? e)%Z then inject_Z (m * 2 ^ e)
  else Qmake m (Z.to_pos (2 ^ (- e))).

(** The float nearest to [n / d]: the exponent [e] is the one that puts
    [n / d / 2^e] between [2^52] and [2^53], and the significand is that
    quotient rounded to an integer. *)
Definition binary64_pos (n d : positive) : Q :=
  let e0 := (Z.log2 (Zpos n) - Z.log2 (Zpos d) - 52)%Z in
  let num e := if (0 <=? e)%Z then Zpos n else (Zpos n * 2 ^ (- e))%Z in
  let den e := if (0 <=? e)%Z then (Zpos d * 2 ^ e)%Z else Zpos d in
  let e := if (num e0 <? 2 ^ 52 * den e0)%Z then (e0 - 1)%Z else e0 in
  scale2 (round_half_even (num e) (den e)) e.

Definition binary64 (q : Q) : Q :=
  match Qnum q with
  | Z0 => 0%Q
  | Zpos n => binary64_pos n (Qden q)
  | Zneg n => (- binary64_pos n (Qden q))%Q
  end.

(** [TraceNode.duration_ms] as the program computes it: the integer [0]
    while the node is open, otherwise [delta.total_seconds() * 1000], where
    [total_seconds()] is the float of [microseconds / 10**6] and the product
    is rounded once more. *)
Definition duration_ms_float (self : TraceNode) : Q :=
  match end_time self with
  | None => 0%Q
  | Some e =>
      binary64 (binary64 (Qmake (e - start_time self) 1000000) * 1000)
  end.

(** The two status icons of the text report: the turtle marks a node as
    slow, the check mark as fine. *)
Inductive StatusIcon := IconWarn | IconOk.

(** What [_print_node_recursive] prints for one node: the indentation
    level, the status icon and the name of the first line, and the total
    time, self time and thread of the second.  The two times are kept as
    exact numbers; the text shows them rounded to whole milliseconds. *)
Record ReportLine := mkReportLine {
  rl_level : nat;
  rl_icon : StatusIcon;
  rl_name : string;
  rl_total : Q;
  rl_self : Q;
  rl_thread : Z
}.

(** [next((d['threshold'] for d in self.event_defs if d['name'] == node.name), 0)] *)
Definition lookup_threshold (defs : list EventDef) (nm : string) : Q :=
  match find (fun d => String.eqb (def_name d) nm) defs with
  | Some d => threshold d
  | None => 0%Q
  end.

(** [a > b]; Python compares a float with an integer or a float by their
    exact values. *)
Definition Qgtb (a b : Q) : bool := negb (Qle_bool a b).

(** [status_icon] of [_print_node_recursive]: the turtle if
    [node.duration_ms > threshold], else the check mark. *)
Definition status_icon (defs : list EventDef) (obj : TraceNode) : StatusIcon :=
  if Qgtb (duration_ms_float obj) (lookup_threshold defs (name obj))
  then IconWarn else IconOk.

Definition report_line (self : LogProfiler) (obj : TraceNode) (level : nat)
    : ReportLine :=
  {| rl_level := level; rl_icon := status_icon (event_defs self) obj;
     rl_name := name obj; rl_total := duration_ms obj;
     rl_self := self_time_ms (heap self) obj; rl_thread := thread_id obj |}.

(** [LogProfiler._print_node_recursive] *)
Fixpoint _print_node_recursive (fuel : nat) (self : LogProfiler) (node : nat)
    (level : nat) : option (list ReportLine) :=
  match fuel with
  | O => None
  | S fuel' =>
      match heap self !! node with
      | None => None
      | Some obj =>
          match mapM (fun child => _print_node_recursive fuel' self child (S level))
                  (children obj) with
          | None => None
          | Some sub => Some (report_line self obj level :: concat sub)
          end
      end
  end.

(** [LogProfiler.print_text_report] *)
Definition print_text_report (self : LogProfiler) : option (list ReportLine) :=
  match mapM (fun root => _print_node_recursive (length (heap self)) self root 0)
          (completed_roots self) with
  | None => None
  | Some per_root => Some (concat per_root)
  end.

(** ** Configuration *)

(** An entry of [config['events']]; ['threshold_ms'] may be absent. *)
Record ConfigEvent := mkConfigEvent {
  cfg_name : string;
  start_regex : string;
  end_regex : string;
  threshold_ms : option Q
}.

Section Init.

(** [re.compile(pattern).search(message)] *)
Variable re_search : string -> string -> bool.

(** The body of the loop of [LogProfiler.__init__]. *)
Definition compile_event (evt : ConfigEvent) : EventDef :=
  {| def_name := cfg_name evt;
     start_re := re_search (start_regex evt);
     end_re := re_search (end_regex evt);
     threshold := default 0%Q (threshold_ms evt) |}.

(** [LogProfiler.__init__] *)
Definition LogProfiler_init (events : list ConfigEvent) : LogProfiler :=
  {| event_defs := map compile_event events;
     thread_stacks := [];
     completed_roots := [];
     heap := [] |}.

End Init.

(** ** Reading the log *)

(** The exceptions the program can run into. *)
Inductive PyError :=
| ValueError
| TypeError_int_None
| TypeError_positional (takes given : nat)
| TypeError_other
| RecursionError.

(** The values [process_file] passes to [_check_events]. *)
Inductive PyVal :=
| VNone
| VInt (z : Z)
| VInstant (t : Z)
| VStr (s : string).

(** Binding the positional arguments of a method call to the parameters
    after [self].  Python counts [self] in the message of the error:
    "takes [takes] positional arguments but [given] were given". *)
Definition bind_positional (params : list string) (args : list PyVal)
    : PyError + list (string * PyVal) :=
  if Nat.eqb (length args) (length params)
  then inr (combine params args)
  else inl (TypeError_positional (S (length params)) (S (length args))).

(** [def _check_events(self, tid, timestamp, message)] *)
Definition check_events_params : list string :=
  ["tid"%string; "timestamp"%string; "message"%string].

(** A call [self._check_events(args...)].  The body is embedded at the types
    its code works with: an integer thread id, an instant and a string. *)
Definition call_check_events (args : list PyVal) (self : LogProfiler)
    : PyError + LogProfiler :=
  match bind_positional check_events_params args with
  | inl e => inl e
  | inr [(_, VInt tid); (_, VInstant timestamp); (_, VStr message)] =>
      inr (_check_events tid timestamp message self)
  | inr _ => inl TypeError_other
  end.

Definition group_val (g : option string) : PyVal :=
  match g with
  | Some s => VStr s
  | None => VNone
  end.

Section ReadLog.

(** [str.strip] *)
Variable strip : string -> string.

(** [self.log_pattern.match(line)], returning [match.groups()]; a group
    that took no part in the match is [None]. *)
Variable log_pattern : string -> option (list (option string)).

(** [datetime.strptime] on the text prefixed with the current year, with
    the configured format; [None] when the text does not fit. *)
Variable strptime : string -> option Z.

(** [int] on a string; [None] when the text is no integer literal. *)
Variable py_int : string -> option Z.

(** [LogProfiler.parse_timestamp]: a missing group is formatted as
    ["None"] by the f-string. *)
Definition parse_timestamp (time_str : option string) : PyError + Z :=
  match strptime (default "None"%string time_str) with
  | Some t => inr t
  | None => inl ValueError
  end.

(** [int(group)] *)
Definition int_of_group (g : option string) : PyError + Z :=
  match g with
  | None => inl TypeError_int_None
  | Some s =>
      match py_int s with
      | Some z => inr z
      | None => inl ValueError
      end
  end.

(** The body of the loop of [process_file]. *)
Definition process_line (line : string) (self : LogProfiler)
    : PyError + LogProfiler :=
  match log_pattern (strip line) with
  | None => inr self
  | Some [time_str; uid; pid; tid; level; tag; message] =>
      match parse_timestamp time_str with
      | inl e => inl e
      | inr current_time =>
          match int_of_group pid with
          | inl e => inl e
          | inr pid' =>
              match int_of_group tid with
              | inl e => inl e
              | inr tid' =>
                  call_check_events
                    [VInt pid'; VInt tid'; VInstant current_time;
                     group_val message] self
              end
          end
      end
  | Some _ => inl ValueError
  end.

(** [LogProfiler.process_file]: the exception that ended the loop, if any,
    and the profiler as the loop left it. *)
Fixpoint process_file (lines : list string) (self : LogProfiler)
    : option PyError * LogProfiler :=
  match lines with
  | [] => (None, self)
  | line :: rest =>
      match process_line line self with
      | inl e => (Some e, self)
      | inr self' => process_file rest self'
      end
  end.

(** *** The main entry point *)

Variable re_search : string -> string -> bool.

(** The methods of [LogProfiler] a script can call. *)
Inductive Method :=
| m_process_file
| m_close_dangling_events
| m_print_text_report
| m_export_chrome_trace.

(** The state of a run of the script. *)
Record Run := mkRun {
  profiler : LogProfiler;
  stdout : list ReportLine;
  trace_file : option (list TraceEvent);
  raised : option PyError
}.

(** One method call; nothing runs after an exception. *)
Definition exec_method (lines : list string) (r : Run) (m : Method) : Run :=
  match raised r with
  | Some _ => r
  | None =>
      match m with
      | m_process_file =>
          let '(e, p) := process_file lines (profiler r) in
          {| profiler := p; stdout := stdout r;
             trace_file := trace_file r; raised := e |}
      | m_close_dangling_events =>
          {| profiler := _close_dangling_events (profiler r);
             stdout := stdout r; trace_file := trace_file r;
             raised := None |}
      | m_print_text_report =>
          match print_text_report (profiler r) with
          | Some out =>
              {| profiler := profiler r; stdout := stdout r ++ out;
                 trace_file := trace_file r; raised := None |}
          | None =>
              {| profiler := profiler r; stdout := stdout r;
                 trace_file := trace_file r; raised := Some RecursionError |}
          end
      | m_export_chrome_trace =>
          match export_chrome_trace (profiler r) with
          | Some evs =>
              {| profiler := profiler r; stdout := stdout r;
                 trace_file := Some evs; raised := None |}
          | None =>
              {| profiler := profiler r; stdout := stdout r;
                 trace_file := trace_file r; raised := Some RecursionError |}
          end
      end
  end.

(** The calls of the [__main__] block, in order. *)
Definition main_body : list Method :=
  [m_process_file; m_print_text_report; m_export_chrome_trace].

(** The [__main__] block on a configuration and the lines of a log. *)
Definition main (events : list ConfigEvent) (lines : list string) : Run :=
  fold_left (exec_method lines) main_body
    {| profiler := LogProfiler_init re_search events; stdout := [];
       trace_file := None; raised := None |}.

End ReadLog.

(** ** Runs of the engine *)

(** A classified signal as it reaches [observe]: thread, instant, signal. *)
Definition Delivery : Type := Z * Z * Signal.

Definition instant_of (x : Delivery) : Z := snd (fst x).

Definition deliver (self : LogProfiler) (x : Delivery) : LogProfiler :=
  observe (fst (fst x)) (snd (fst x)) (snd x) self.

(** The signals of a stream, observed in arrival order. *)
Definition observe_all (sigs : list Delivery) (self : LogProfiler) : LogProfiler :=
  fold_left deliver sigs self.

(** The profiler before the first line. *)
Definition fresh (defs : list EventDef) : LogProfiler :=
  {| event_defs := defs; thread_stacks := []; completed_roots := []; heap := [] |}.

(** The references held by the stacks of all threads. *)
Definition open_nodes (stacks : list (Z * list nat)) : list nat :=
  concat (map snd stacks).

(** The bottom-most node of every non-empty stack, in the order of the
    dictionary. *)
Definition bottoms (stacks : list (Z * list nat)) : list nat :=
  flat_map (fun e => match snd e with [] => [] | b :: _ => [b] end) stacks.

(** Forced closure of one object: [end = start] when [end] is unset. *)
Definition force_close (obj : TraceNode) : TraceNode :=
  match end_time obj with
  | None => close (start_time obj) obj
  | Some _ => obj
  end.

(** [c] is listed in the [children] of the object [p] refers to. *)
Definition child_of (h : list TraceNode) (p c : nat) : Prop :=
  exists obj, h !! p = Some obj /\ In c (children obj).

(** [d] lies in the subtree below [p]. *)
Inductive descendant (h : list TraceNode) : nat -> nat -> Prop :=
| desc_child p c : child_of h p c -> descendant h p c
| desc_step p c d : child_of h p c -> descendant h c d -> descendant h p d.

(** The nodes of the Forest: the roots and everything below them. *)
Definition in_forest (self : LogProfiler) (n : nat) : Prop :=
  exists r, In r (completed_roots self) /\ (n = r \/ descendant (heap self) r n).

(** *** Properly nested start/end pairs *)

(** A start/end pair of one event with the pairs nested inside it. *)
Inductive Call := mkCall (d : EventDef) (t_start t_end : Z) (inner : list Call).

(** The signals of a pair on thread [tid], in the order of the log. *)
Fixpoint signals_of (tid : Z) (c : Call) : list Delivery :=
  match c with
  | mkCall d t_start t_end inner =>
      (tid, t_start, StartSignal d)
        :: concat (map (signals_of tid) inner) ++ [(tid, t_end, EndSignal d)]
  end.

(** The number of pairs. *)
Fixpoint call_count (c : Call) : nat :=
  match c with
  | mkCall _ _ _ inner => S (list_sum (map call_count inner))
  end.

(** ** The classifier as the spec words it

    The first definition whose start predicate matches gives a start
    signal; if there is none, the first whose end predicate matches gives an
    end signal. *)
Definition classify_spec (defs : list EventDef) (message : string)
    : option Signal :=
  match find (fun d => start_re d message) defs with
  | Some d => Some (StartSignal d)
  | None =>
      match find (fun d => end_re d message) defs with
      | Some d => Some (EndSignal d)
      | None => None
      end
  end.

(** ** Invariants of the object store *)

(** The references of a profiler point into the store, a child is younger
    than its parent, and a node that is still open sits on a stack. *)
Record wf (self : LogProfiler) : Prop := mk_wf {
  wf_open : forall i,
    In i (open_nodes (thread_stacks self)) -> i < length (heap self);
  wf_roots : forall r,
    In r (completed_roots self) -> r < length (heap self);
  wf_children : forall i obj c,
    heap self !! i = Some obj -> In c (children obj) ->
    i < c /\ c < length (heap self);
  wf_unset : forall i obj,
    heap self !! i = Some obj -> end_time obj = None ->
    In i (open_nodes (thread_stacks self))
}.

(** No node started after [now], and no node ended before it started. *)
Definition time_ok (now : Z) (h : list TraceNode) : Prop :=
  forall i obj, h !! i = Some obj ->
    (start_time obj <= now)%Z
    /\ forall e, end_time obj = Some e -> (start_time obj <= e)%Z.

(** The fields of a node that are fixed at creation. *)
Definition same_identity (obj obj' : TraceNode) : Prop :=
  name obj' = name obj /\ start_time obj' = start_time obj
  /\ thread_id obj' = thread_id obj.

(** Every node of [h] is still there in [h'], with its identity. *)
Definition evolves (h h' : list TraceNode) : Prop :=
  forall i obj, h !! i = Some obj ->
    exists obj', h' !! i = Some obj' /\ same_identity obj obj'.

(** The node the outermost pair of [c] must have left at reference [n]. *)
Definition root_of_call (tid : Z) (c : Call) (h : list TraceNode) (n : nat) : Prop :=
  match c with
  | mkCall d t_start t_end _ =>
      exists obj,
        h !! n = Some obj /\ name obj = def_name d
        /\ start_time obj = t_start /\ end_time obj = Some t_end
        /\ thread_id obj = tid
  end.

(** What a balanced block of signals on thread [tid] does to a profiler. *)
Definition balanced_effect (tid : Z) (c : Call) : Prop :=
  forall self,
    let self' := observe_all (signals_of tid c) self in
    event_defs self' = event_defs self
    /\ thread_stacks self'
       = dict_set tid (stack_of tid self) (thread_stacks self)
    /\ completed_roots self'
       = completed_roots self
         ++ match stack_of tid self with
            | [] => [length (heap self)]
            | _ :: _ => []
            end
    /\ length (heap self') = length (heap self) + call_count c
    /\ evolves (heap self) (heap self')
    /\ root_of_call tid c (heap self') (length (heap self)).

(** ** Further notions about streams and traces *)

(** The number of start signals of a stream. *)
Fixpoint count_starts (sigs : list Delivery) : nat :=
  match sigs with
  | [] => 0
  | x :: rest =>
      match snd x with
      | StartSignal _ => 1
      | EndSignal _ => 0
      end + count_starts rest
  end.

(** The thread a signal is delivered on. *)
Definition thread_of (x : Delivery) : Z := fst (fst x).

(** A reader of the trace with a stack of open records: a begin record
    opens a slice, an end record must close the innermost open slice and
    carry its name and thread, and nothing may stay open at the end. *)
Fixpoint well_bracketed (opened : list (string * Z)) (evs : list TraceEvent)
    : bool :=
  match evs with
  | [] => match opened with [] => true | _ :: _ => false end
  | ev :: rest =>
      match ev_ph ev with
      | PhaseB => well_bracketed ((ev_name ev, ev_tid ev) :: opened) rest
      | PhaseE =>
          match opened with
          | [] => false
          | (nm, tid) :: opened' =>
              String.eqb nm (ev_name ev) && Z.eqb tid (ev_tid ev)
              && well_bracketed opened' rest
          end
      end
  end.

(** [obj'] is a later state of the object [obj]: the fields set at
    creation are the same and the children have only been appended to. *)
Definition later_state (obj obj' : TraceNode) : Prop :=
  name obj' = name obj /\ start_time obj' = start_time obj
  /\ thread_id obj' = thread_id obj /\ parent obj' = parent obj
  /\ exists more, children obj' = children obj ++ more.

(** The profiler after a stream, with or without the forced closure. *)
Definition after_stream (finalized : bool) (sigs : list Delivery)
    (self : LogProfiler) : LogProfiler :=
  if finalized then _close_dangling_events (observe_all sigs self)
  else observe_all sigs self.

(** No child started before its parent. *)
Definition starts_nested (h : list TraceNode) : Prop :=
  forall p op c oc,
    h !! p = Some op -> In c (children op) -> h !! c = Some oc ->
    (start_time op <= start_time oc)%Z.

(** Every child belongs to the thread of its parent. *)
Definition children_same_thread (h : list TraceNode) : Prop :=
  forall p op c oc,
    h !! p = Some op -> In c (children op) -> h !! c = Some oc ->
    thread_id oc = thread_id op.

(** The stack registered for a thread holds nodes of that thread only. *)
Definition stacks_same_thread (self : LogProfiler) : Prop :=
  forall tid stk n obj,
    dict_get tid (thread_stacks self) = Some stk -> In n stk ->
    heap self !! n = Some obj -> thread_id obj = tid.

(** The two renderers come back together, and the trace has two records
    for every line of the report. *)
Definition renderers_agree (report : option (list ReportLine))
    (trace : option (list TraceEvent)) : Prop :=
  match report, trace with
  | Some lines, Some evs => length evs = 2 * length lines
  | None, None => True
  | _, _ => False
  end.

(** A stack is a path of the tree: its bottom node has no parent, and the
    parent of every other node is the node just below it. *)
Definition stack_is_path (h : list TraceNode) (stk : list nat) : Prop :=
  forall k n obj, stk !! k = Some n -> h !! n = Some obj ->
    parent obj = match k with
                 | 0 => None
                 | S k' => stk !! k'
                 end.

(** The structure the engine keeps between the stacks, the parent links,
    the children lists and the Forest. *)
Record shape (self : LogProfiler) : Prop := mk_shape {
  sh_nodup : NoDup (open_nodes (thread_stacks self));
  sh_open : forall n obj,
    In n (open_nodes (thread_stacks self)) -> heap self !! n = Some obj ->
    end_time obj = None;
  sh_path : forall e,
    In e (thread_stacks self) -> stack_is_path (heap self) (snd e);
  sh_parent : forall c oc p,
    heap self !! c = Some oc -> parent oc = Some p ->
    exists op, heap self !! p = Some op /\ In c (children op);
  sh_child : forall p op c oc,
    heap self !! p = Some op -> In c (children op) ->
    heap self !! c = Some oc -> parent oc = Some p;
  sh_children_nodup : forall p op,
    heap self !! p = Some op -> NoDup (children op);
  sh_roots : forall r obj,
    In r (completed_roots self) -> heap self !! r = Some obj ->
    parent obj = None /\ end_time obj <> None;
  sh_roots_nodup : NoDup (completed_roots self);
  sh_parentless : forall n obj,
    heap self !! n = Some obj -> parent obj = None -> end_time obj <> None ->
    In n (completed_roots self);
  sh_closed_children : forall p op c oc,
    heap self !! p = Some op -> end_time op <> None ->
    In c (children op) -> heap self !! c = Some oc -> end_time oc <> None
}.

(** The children [cs] of a node follow one another between [lo] and [hi]:
    each starts no earlier than the one before it ended, a closed child
    ends no earlier than it started, and only the last child may be open. *)
Fixpoint children_in_sequence (h : list TraceNode) (lo : Z) (cs : list nat)
    (hi : Z) : Prop :=
  match cs with
  | [] => (lo <= hi)%Z
  | c :: rest =>
      exists oc,
        h !! c = Some oc /\ (lo <= start_time oc)%Z
        /\ match end_time oc with
           | Some e =>
               (start_time oc <= e)%Z /\ children_in_sequence h e rest hi
           | None => rest = [] /\ (start_time oc <= hi)%Z
           end
  end.

(** The children of every node follow one another between the node's
    start and its end, or the instant [now] while the node is open. *)
Definition sequenced (now : Z) (h : list TraceNode) : Prop :=
  forall p op, h !! p = Some op ->
    children_in_sequence h (start_time op) (children op)
      (default now (end_time op)).

(** The microseconds between start and end of the node [c] refers to,
    [0] while it is open. *)
Definition span_us (h : list TraceNode) (c : nat) : Z :=
  match h !! c with
  | Some oc =>
      match end_time oc with
      | Some e => (e - start_time oc)%Z
      | None => 0%Z
      end
  | None => 0%Z
  end.

Definition span_sum (h : list TraceNode) (cs : list nat) : Z :=
  fold_right (fun c acc => (span_us h c + acc)%Z) 0%Z cs.

(** The threads a stream gives a stack to: the thread of every start
    signal that is neither among [known] nor the thread of an earlier start
    signal of the stream, in the order of those start signals.  End signals
    give no thread a stack. *)
Fixpoint new_threads (known : list Z) (sigs : list Delivery) : list Z :=
  match sigs with
  | [] => []
  | x :: rest =>
      match snd x with
      | StartSignal _ =>
          if existsb (Z.eqb (thread_of x)) known
          then new_threads known rest
          else thread_of x :: new_threads (known ++ [thread_of x]) rest
      | EndSignal _ => new_threads known rest
      end
  end.

(** *** Whose record is where in a trace *)

(** The record [to_chrome_trace_events] writes for the node [fst x] in the
    phase [snd x]: its begin record or its end record. *)
Definition record_of (h : list TraceNode) (pid : Z) (x : nat * Phase)
    : option TraceEvent :=
  match h !! fst x with
  | Some obj =>
      Some match snd x with
           | PhaseB => begin_event obj pid
           | PhaseE => end_event obj pid
           end
  | None => None
  end.

(** A depth-first pre-order emission of paired records, told by the nodes
    the records are written for: the emission of a node is its begin
    record, the emissions of its children in the order of [children], and
    its end record. *)
Inductive preorder (h : list TraceNode) : nat -> list (nat * Phase) -> Prop :=
| preorder_node n obj subs :
    h !! n = Some obj ->
    Forall2 (preorder h) (children obj) subs ->
    preorder h n ((n, PhaseB) :: concat subs ++ [(n, PhaseE)]).

(** ** Sample data *)

(** [re.search] for a pattern without special characters: the pattern
    occurs in the message. *)
Definition literal_search (pattern message : string) : bool :=
  match String.index 0 pattern message with
  | Some _ => true
  | None => false
  end.

Definition cfg_A : ConfigEvent :=
  {| cfg_name := "A"; start_regex := "START A"; end_regex := "END A";
     threshold_ms := None |}.

Definition cfg_B : ConfigEvent :=
  {| cfg_name := "B"; start_regex := "START B"; end_regex := "END B";
     threshold_ms := Some (Qmake 16 1) |}.

Definition def_A : EventDef := compile_event literal_search cfg_A.
Definition def_B : EventDef := compile_event literal_search cfg_B.

(** Two definitions whose patterns overlap: the end pattern of the first
    contains the start pattern of the second. *)
Definition def_load : EventDef :=
  compile_event literal_search
    {| cfg_name := "load"; start_regex := "load begin";
       end_regex := "load done"; threshold_ms := None |}.

Definition def_done : EventDef :=
  compile_event literal_search
    {| cfg_name := "done"; start_regex := "done";
       end_regex := "finished"; threshold_ms := None |}.

(** Thread 1: [START A] at 0 ms, [START B] at 1 ms, [END B] at 5 ms, and
    the stream ends with [A] still open. *)
Definition dangling_parent : list Delivery :=
  [(1%Z, 0%Z, StartSignal def_A); (1%Z, 1000%Z, StartSignal def_B);
   (1%Z, 5000%Z, EndSignal def_B)].

(** Thread 1: [START A] at 10 ms and [END A] stamped 5 ms. *)
Definition backwards_clock : list Delivery :=
  [(1%Z, 10000%Z, StartSignal def_A); (1%Z, 5000%Z, EndSignal def_A)].

(** [A], configured without a threshold, runs from 0 ms to 5 ms on
    thread 1. *)
Definition five_ms_A : LogProfiler :=
  observe_all [(1%Z, 0%Z, StartSignal def_A); (1%Z, 5000%Z, EndSignal def_A)]
    (LogProfiler_init literal_search [cfg_A]).

(** [int] restricted to plain decimal literals. *)
Fixpoint parse_digits (s : string) (acc : Z) : option Z :=
  match s with
  | EmptyString => Some acc
  | String c rest =>
      let n := Ascii.nat_of_ascii c in
      if Nat.leb 48 n && Nat.leb n 57
      then parse_digits rest (acc * 10 + Z.of_nat (n - 48))%Z
      else None
  end.

Definition decimal_int (s : string) : option Z :=
  match s with
  | EmptyString => None
  | String _ _ => parse_digits s 0%Z
  end.

(** A line of the log in the layout with a uid column, and one whose first
    column is no timestamp. *)
Definition line_ok : string := "11-04 10:00:00.000 root 12 34 I Perf: START A".
Definition line_bad_time : string := "yesterday root 12 34 I Perf: START A".

(** A line in the older layout without the uid column. *)
Definition line_old_layout : string := "11-04 10:00:00.000 12 34 I Perf: START A".

(** A header pattern with the seven groups time, uid, pid, tid, level, tag
    and message, given by its result on the sample lines. *)
Definition seven_group_pattern (line : string) : option (list (option string)) :=
  if String.eqb line line_ok then
    Some [Some "11-04 10:00:00.000"; Some "root"; Some "12"; Some "34";
          Some "I"; Some "Perf"; Some "START A"]%string
  else if String.eqb line line_bad_time then
    Some [Some "yesterday"; Some "root"; Some "12"; Some "34";
          Some "I"; Some "Perf"; Some "START A"]%string
  else None.

(** The older header pattern with the six groups time, pid, tid, level, tag
    and message. *)
Definition six_group_pattern (line : string) : option (list (option string)) :=
  if String.eqb line line_old_layout then
    Some [Some "11-04 10:00:00.000"; Some "12"; Some "34";
          Some "I"; Some "Perf"; Some "START A"]%string
  else None.

(** [strptime] for the format [%m-%d %H:%M:%S.%f] in the year 2026, given by
    its result on the sample timestamp. *)
Definition sample_strptime (s : string) : option Z :=
  if String.eqb s "11-04 10:00:00.000" then Some 1793786400000000%Z
  else None.

(** [strip] on a line without surrounding white space. *)
Definition no_strip (line : string) : string := line.

(** * Properties *)

(** ** The classifier *)

Lemma check_events_loop_classify defs tid timestamp message self :
  check_events_loop defs tid timestamp message self =
  match classify defs message with
  | Some s => observe tid timestamp s self
  | None => self
  end.
Proof.
  induction defs as [|d rest IH]; simpl; [reflexivity|].
  destruct (start_re d message); [reflexivity|].
  destruct (end_re d message); [reflexivity|apply IH].
Qed.

Lemma classify_first_hit defs message :
  classify defs message =
  match find (fun d => start_re d message || end_re d message) defs with
  | Some d =>
      Some (if start_re d message then StartSignal d else EndSignal d)
  | None => None
  end.
Proof.
  induction defs as [|d rest IH]; simpl; [reflexivity|].
  destruct (start_re d message) eqn:Hs; simpl; [rewrite Hs; reflexivity|].
  destruct (end_re d message) eqn:He; simpl; [rewrite Hs; reflexivity|apply IH].
Qed.

(** C1, as the code has it: [_check_events] acts on one signal at most, the
    signal of the first definition (in configured order) one of whose two
    predicates matches the message; that signal is a start signal when the
    definition's start predicate matches and an end signal otherwise; when
    no predicate of any definition matches, the line is ignored. *)
Theorem C1_classification_first_matching_definition :
  forall (self : LogProfiler) (tid timestamp : Z) (message : string),
    classify (event_defs self) message =
      match find (fun d => start_re d message || end_re d message)
              (event_defs self) with
      | Some d =>
          Some (if start_re d message then StartSignal d else EndSignal d)
      | None => None
      end
    /\ _check_events tid timestamp message self =
      match classify (event_defs self) message with
      | Some s => observe tid timestamp s self
      | None => self
      end.
Proof.
  intros self tid timestamp message. split.
  - apply classify_first_hit.
  - apply check_events_loop_classify.
Qed.

(** C1, counterexample: with the definitions [load] and [done], the message
    "load done" matches the start predicate of [done] and no other start
    predicate, so the claim asks for a start signal of [done]; the code
    returns the end signal of [load], which comes first in the
    configuration. *)
Lemma C1_counterexample_end_before_later_start :
  let defs := [def_load; def_done] in
  let message := "load done"%string in
  start_re def_load message = false
  /\ start_re def_done message = true
  /\ classify_spec defs message = Some (StartSignal def_done)
  /\ classify defs message = Some (EndSignal def_load)
  /\ classify defs message <> classify_spec defs message
  /\ _check_events 1 0 message (fresh defs)
     <> observe 1 0 (StartSignal def_done) (fresh defs).
Proof.
  cbv zeta. repeat split; try reflexivity.
  - vm_compute. discriminate.
  - vm_compute. discriminate.
Qed.

(** ** Mismatched end signals *)

(** C6: an end signal for definition [d] on thread [tid] that finds no stack
    or an empty stack for the thread, or a top node of another name, leaves
    the profiler as it was: every stack, the Forest and every node. *)
Theorem C6_mismatched_end_is_discarded :
  forall (self : LogProfiler) (tid timestamp : Z) (message : string)
         (d : EventDef),
    classify (event_defs self) message = Some (EndSignal d) ->
    (dict_get tid (thread_stacks self) = None
     \/ dict_get tid (thread_stacks self) = Some []
     \/ exists stack top obj,
          dict_get tid (thread_stacks self) = Some stack
          /\ last stack = Some top
          /\ heap self !! top = Some obj
          /\ name obj <> def_name d) ->
    _check_events tid timestamp message self = self
    /\ observe tid timestamp (EndSignal d) self = self.
Proof.
  intros self tid timestamp message d Hc Hm.
  assert (Hobs : observe tid timestamp (EndSignal d) self = self).
  { simpl. unfold observe_end.
    destruct Hm as [-> | [-> | (stack & top & obj & -> & -> & -> & Hne)]];
      try reflexivity.
    destruct (String.eqb_spec (name obj) (def_name d)); [contradiction|reflexivity]. }
  split; [|exact Hobs].
  unfold _check_events. rewrite check_events_loop_classify, Hc. exact Hobs.
Qed.

(** C6, witness: thread 1 has [A] open and the line "END B" arrives. *)
Lemma C6_witness :
  let self := observe_all [(1%Z, 0%Z, StartSignal def_A)] (fresh [def_A; def_B]) in
  _check_events 1 7000 "END B" self = self
  /\ observe 1 7000 (EndSignal def_B) self = self.
Proof.
  cbv zeta.
  apply (C6_mismatched_end_is_discarded _ 1%Z 7000%Z "END B"%string def_B).
  - reflexivity.
  - right. right. eexists _, _, _. repeat split; try reflexivity.
    vm_compute. discriminate.
Defined.

(** ** Self time *)

Lemma self_time_ms_cases (h : list TraceNode) (obj : TraceNode) :
  ((child_duration h obj <= duration_ms obj
    /\ self_time_ms h obj == duration_ms obj - child_duration h obj)
   \/ (duration_ms obj < child_duration h obj /\ self_time_ms h obj == 0))%Q.
Proof.
  unfold self_time_ms.
  destruct (Q.max_spec 0 (duration_ms obj - child_duration h obj)) as [[Hlt ->]|[Hle ->]].
  - left. split; [lra|reflexivity].
  - destruct (Qlt_le_dec (duration_ms obj) (child_duration h obj)) as [Hc|Hc].
    + right. split; [exact Hc|reflexivity].
    + left. split; [exact Hc|lra].
Qed.

(** C4, counterexample: [A] starts at 0 ms, its child [B] runs from 1 ms to
    5 ms, and the stream ends.  The forced closure gives the root [A] the
    duration 0 while its child lasted 4 ms: the self time is 0 and self
    time plus children is 4, not 0. *)
Lemma C4_counterexample_forced_closure_breaks_conservation :
  let self :=
    _close_dangling_events (observe_all dangling_parent (fresh [def_A; def_B])) in
  exists obj,
    completed_roots self = [0]
    /\ heap self !! 0 = Some obj
    /\ (duration_ms obj == 0)%Q
    /\ (child_duration (heap self) obj == 4)%Q
    /\ (self_time_ms (heap self) obj == 0)%Q
    /\ ~ (self_time_ms (heap self) obj + child_duration (heap self) obj
          == duration_ms obj)%Q.
Proof.
  cbv zeta. eexists. split; [reflexivity|]. split; [reflexivity|].
  repeat split; try (vm_compute; reflexivity).
  vm_compute. discriminate.
Qed.

(** ** The warn marker of the text report *)

Lemma Qgtb_true_iff (a b : Q) : Qgtb a b = true <-> (b < a)%Q.
Proof.
  unfold Qgtb. rewrite negb_true_iff, <- not_true_iff_false, Qle_bool_iff.
  split; [apply Qnot_le_lt|apply Qlt_not_le].
Qed.

Lemma lookup_threshold_compiled re_search events nm :
  lookup_threshold (map (compile_event re_search) events) nm =
  match find (fun e => String.eqb (cfg_name e) nm) events with
  | Some evt => default 0%Q (threshold_ms evt)
  | None => 0%Q
  end.
Proof.
  unfold lookup_threshold.
  induction events as [|e rest IH]; simpl; [reflexivity|].
  destruct (String.eqb (cfg_name e) nm); [reflexivity|exact IH].
Qed.

(** C5, counterexample: the event [A] has no configured threshold, its node
    lasted 5 ms, and the report marks it warn. *)
Lemma C5_counterexample_no_threshold_warns :
  threshold_ms cfg_A = None
  /\ event_defs five_ms_A = [compile_event literal_search cfg_A]
  /\ exists line,
       print_text_report five_ms_A = Some [line]
       /\ rl_name line = "A"%string
       /\ (rl_total line == 5)%Q
       /\ rl_icon line = IconWarn.
Proof.
  split; [reflexivity|]. split; [reflexivity|].
  eexists. split; [vm_compute; reflexivity|].
  repeat split; reflexivity.
Qed.

(** ** Reading the log: the call of [_check_events] *)

Lemma call_check_events_four (a b c d : PyVal) (self : LogProfiler) :
  call_check_events [a; b; c; d] self = inl (TypeError_positional 4 5).
Proof. reflexivity. Qed.

Section ReadLogFacts.

Variable strip : string -> string.
Variable log_pattern : string -> option (list (option string)).
Variable strptime : string -> option Z.
Variable py_int : string -> option Z.

Lemma process_line_keeps_or_raises line self :
  match process_line strip log_pattern strptime py_int line self with
  | inl _ => log_pattern (strip line) <> None
  | inr self' => self' = self /\ log_pattern (strip line) = None
  end.
Proof.
  unfold process_line.
  destruct (log_pattern (strip line)) as [groups|]; [|split; reflexivity].
  destruct groups as [|g1 [|g2 [|g3 [|g4 [|g5 [|g6 [|g7 [|g8 rest]]]]]]]];
    try discriminate.
  destruct (parse_timestamp strptime g1); [discriminate|].
  destruct (int_of_group py_int g3); [discriminate|].
  destruct (int_of_group py_int g4); [discriminate|].
  rewrite call_check_events_four. discriminate.
Qed.

Lemma process_file_keeps_profiler lines self :
  snd (process_file strip log_pattern strptime py_int lines self) = self.
Proof.
  induction lines as [|line rest IH]; simpl; [reflexivity|].
  pose proof (process_line_keeps_or_raises line self) as H.
  destruct (process_line strip log_pattern strptime py_int line self) as [e|self'].
  - reflexivity.
  - destruct H as [-> _]. exact IH.
Qed.

Lemma process_file_skips pre rest self :
  (forall l, In l pre -> log_pattern (strip l) = None) ->
  process_file strip log_pattern strptime py_int (pre ++ rest) self
  = process_file strip log_pattern strptime py_int rest self.
Proof.
  induction pre as [|l pre IH]; intros Hpre; simpl; [reflexivity|].
  pose proof (process_line_keeps_or_raises l self) as H.
  destruct (process_line strip log_pattern strptime py_int l self) as [e|self'].
  - exfalso. apply H. apply Hpre. left. reflexivity.
  - destruct H as [-> _]. apply IH. intros l' Hl'. apply Hpre. right. exact Hl'.
Qed.

End ReadLogFacts.

(** C2, as the code has it: [process_file] stops at the first line whose
    header matches the configured pattern, with an exception, and leaves the
    profiler as it found it, so that no signal ever reaches the stacks or
    the Forest through [process_file].  When the seven fields of that line
    decode (the timestamp parses, pid and tid are integers), the exception
    is the argument-count error of the call of [_check_events] with the four
    arguments pid, tid, instant and message against its three parameters;
    a line whose fields do not decode raises before the call is reached. *)
Theorem C2_process_file_fails_on_first_matching_line :
  forall (strip : string -> string)
         (log_pattern : string -> option (list (option string)))
         (strptime py_int : string -> option Z)
         (pre post : list string) (line : string)
         (groups : list (option string)) (self : LogProfiler),
    (forall l, In l pre -> log_pattern (strip l) = None) ->
    log_pattern (strip line) = Some groups ->
    let run lines := process_file strip log_pattern strptime py_int lines self in
    (forall lines, snd (run lines) = self)
    /\ (exists e, fst (run (pre ++ line :: post)) = Some e)
    /\ (forall time_str uid pid tid level tag message current_time pid' tid',
          groups = [time_str; uid; pid; tid; level; tag; message] ->
          parse_timestamp strptime time_str = inr current_time ->
          int_of_group py_int pid = inr pid' ->
          int_of_group py_int tid = inr tid' ->
          process_line strip log_pattern strptime py_int line self
            = call_check_events
                [VInt pid'; VInt tid'; VInstant current_time; group_val message]
                self
          /\ fst (run (pre ++ line :: post)) = Some (TypeError_positional 4 5)).
Proof.
  intros strip log_pattern strptime py_int pre post line groups self Hpre Hline.
  cbv zeta. split; [|split].
  - intros lines. apply process_file_keeps_profiler.
  - rewrite (process_file_skips _ _ _ _ pre (line :: post) self Hpre). simpl.
    pose proof (process_line_keeps_or_raises strip log_pattern strptime py_int
                  line self) as H.
    destruct (process_line strip log_pattern strptime py_int line self) as [e|s].
    + exists e. reflexivity.
    + destruct H as [_ H]. congruence.
  - intros time_str uid pid tid level tag message current_time pid' tid'
      -> Hts Hpid Htid.
    assert (Hl : process_line strip log_pattern strptime py_int line self
                 = call_check_events
                     [VInt pid'; VInt tid'; VInstant current_time;
                      group_val message] self).
    { unfold process_line. rewrite Hline, Hts, Hpid, Htid. reflexivity. }
    split; [exact Hl|].
    rewrite (process_file_skips _ _ _ _ pre (line :: post) self Hpre). simpl.
    rewrite Hl, call_check_events_four. reflexivity.
Qed.

(** C2, witness: a log whose second line has the seven fields. *)
Lemma C2_witness :
  fst (process_file no_strip seven_group_pattern sample_strptime decimal_int
         ["--------- beginning of main"%string; line_ok] (fresh [def_A]))
  = Some (TypeError_positional 4 5).
Proof.
  refine (proj2 (proj2 (proj2
    (C2_process_file_fails_on_first_matching_line no_strip seven_group_pattern
       sample_strptime decimal_int ["--------- beginning of main"%string] []
       line_ok _ (fresh [def_A]) _ eq_refl))
    _ _ _ _ _ _ _ 1793786400000000%Z 12%Z 34%Z eq_refl eq_refl eq_refl eq_refl)).
  intros l [<-|[]]. reflexivity.
Defined.

(** C2, counterexample: a line whose header matches the pattern does not
    always end in the argument-count error.  With the older six-group
    pattern the unpacking of the groups raises [ValueError]; with the
    seven-group pattern a first column that is no timestamp raises
    [ValueError] in [parse_timestamp].  The call of [_check_events] is not
    reached in either case. *)
Lemma C2_counterexample_decoding_fails_first :
  (six_group_pattern (no_strip line_old_layout) <> None
   /\ process_file no_strip six_group_pattern sample_strptime decimal_int
        [line_old_layout] (fresh [def_A])
      = (Some ValueError, fresh [def_A]))
  /\ (seven_group_pattern (no_strip line_bad_time) <> None
      /\ process_file no_strip seven_group_pattern sample_strptime decimal_int
           [line_bad_time] (fresh [def_A])
         = (Some ValueError, fresh [def_A]))
  /\ (forall takes given, ValueError <> TypeError_positional takes given).
Proof.
  split; [|split].
  - split; [vm_compute; discriminate|reflexivity].
  - split; [vm_compute; discriminate|reflexivity].
  - intros takes given. discriminate.
Qed.

(** ** The main entry point *)

(** C3, the code at an empty log: the script calls [process_file],
    [print_text_report] and [export_chrome_trace]; [_close_dangling_events]
    is not among its calls, and the run ends without an exception with an
    empty report and an empty trace. *)
Theorem C3_main_never_closes_dangling_events :
  ~ In m_close_dangling_events main_body
  /\ forall strip log_pattern strptime py_int re_search events,
       main strip log_pattern strptime py_int re_search events []
       = {| profiler := LogProfiler_init re_search events; stdout := [];
            trace_file := Some []; raised := None |}.
Proof.
  split.
  - intros [H|[H|[H|[]]]]; discriminate H.
  - intros. reflexivity.
Qed.

(** ** Dictionaries and stacks *)

Lemma dict_get_set_eq {V : Type} (k : Z) (v : V) (d : list (Z * V)) :
  dict_get k (dict_set k v d) = Some v.
Proof.
  induction d as [|[k' v'] rest IH]; simpl.
  - rewrite Z.eqb_refl. reflexivity.
  - destruct (Z.eqb k k') eqn:E; simpl; rewrite E; [reflexivity|exact IH].
Qed.

Lemma dict_set_set {V : Type} (k : Z) (v v' : V) (d : list (Z * V)) :
  dict_set k v (dict_set k v' d) = dict_set k v d.
Proof.
  induction d as [|[k' w] rest IH]; simpl.
  - rewrite Z.eqb_refl. reflexivity.
  - destruct (Z.eqb k k') eqn:E; simpl; rewrite E; [reflexivity|].
    rewrite IH. reflexivity.
Qed.

Lemma dict_set_get_id {V : Type} (k : Z) (v : V) (d : list (Z * V)) :
  dict_get k d = Some v -> dict_set k v d = d.
Proof.
  induction d as [|[k' w] rest IH]; simpl; [discriminate|].
  destruct (Z.eqb k k') eqn:E.
  - intros [= ->]. reflexivity.
  - intros H. rewrite (IH H). reflexivity.
Qed.

Lemma open_nodes_dict_set_inv (i : nat) (k : Z) (stk : list nat) d :
  In i (open_nodes (dict_set k stk d)) -> In i stk \/ In i (open_nodes d).
Proof.
  unfold open_nodes. induction d as [|[k' w] rest IH]; simpl.
  - rewrite app_nil_r. tauto.
  - destruct (Z.eqb k k'); simpl; rewrite !in_app_iff; tauto.
Qed.

Lemma open_nodes_dict_set_new (i : nat) (k : Z) (stk : list nat) d :
  In i stk -> In i (open_nodes (dict_set k stk d)).
Proof.
  unfold open_nodes. induction d as [|[k' w] rest IH]; simpl; intros H.
  - rewrite app_nil_r. exact H.
  - destruct (Z.eqb k k'); simpl; rewrite in_app_iff; auto.
Qed.

Lemma open_nodes_dict_set_keep (i : nat) (k : Z) (stk : list nat) d :
  In i (open_nodes d) ->
  (In i (default [] (dict_get k d)) -> In i stk) ->
  In i (open_nodes (dict_set k stk d)).
Proof.
  unfold open_nodes. induction d as [|[k' w] rest IH]; simpl; [tauto|].
  destruct (Z.eqb k k'); simpl; rewrite !in_app_iff; intros [H|H] Hk; auto.
Qed.

Lemma dict_get_open (i : nat) (k : Z) (stk : list nat) d :
  dict_get k d = Some stk -> In i stk -> In i (open_nodes d).
Proof.
  unfold open_nodes. induction d as [|[k' w] rest IH]; simpl; [discriminate|].
  rewrite in_app_iff. destruct (Z.eqb k k').
  - intros [= ->]. auto.
  - auto.
Qed.

Lemma stack_of_open (i : nat) (tid : Z) (self : LogProfiler) :
  In i (stack_of tid self) -> In i (open_nodes (thread_stacks self)).
Proof.
  unfold stack_of. destruct (dict_get tid (thread_stacks self)) eqn:E; simpl; [|tauto].
  apply (dict_get_open _ _ _ _ E).
Qed.

(** [observe_start] with the lazily created stack folded away. *)
Lemma observe_start_eq (d : EventDef) (tid timestamp : Z) (self : LogProfiler) :
  observe_start d tid timestamp self =
  {| event_defs := event_defs self;
     thread_stacks :=
       dict_set tid (stack_of tid self ++ [length (heap self)]) (thread_stacks self);
     completed_roots := completed_roots self;
     heap :=
       match last (stack_of tid self) with
       | Some p =>
           alter (set_parent p) (length (heap self))
             (alter (append_child (length (heap self))) p
                (heap self ++ [TraceNode_init (def_name d) timestamp tid]))
       | None => heap self ++ [TraceNode_init (def_name d) timestamp tid]
       end |}.
Proof.
  unfold observe_start, stack_of.
  destruct (dict_get tid (thread_stacks self)) as [stk|] eqn:E.
  - rewrite E. reflexivity.
  - rewrite dict_get_set_eq, dict_set_set. reflexivity.
Qed.

Lemma lookup_alter_Some {A : Type} (f : A -> A) (i j : nat) (l : list A) (y : A) :
  alter f i l !! j = Some y ->
  exists x, l !! j = Some x /\ ((i <> j /\ y = x) \/ (i = j /\ y = f x)).
Proof.
  destruct (decide (i = j)) as [->|Hne].
  - rewrite list_lookup_alter_eq. intros H.
    apply fmap_Some in H as (x & Hx & ->). exists x. tauto.
  - rewrite list_lookup_alter_ne by exact Hne. intros H. exists y. tauto.
Qed.

Lemma lookup_alter_Some_rev {A : Type} (f : A -> A) (i j : nat) (l : list A) (x : A) :
  l !! j = Some x ->
  alter f i l !! j = Some (if decide (i = j) then f x else x).
Proof.
  intros H. destruct (decide (i = j)) as [->|Hne].
  - rewrite list_lookup_alter_eq, H. reflexivity.
  - rewrite list_lookup_alter_ne by exact Hne. exact H.
Qed.

(** What [observe_start] leaves of the fields of an object. *)
Lemma observe_start_lookup d tid timestamp self i obj' :
  heap (observe_start d tid timestamp self) !! i = Some obj' ->
  exists obj,
    (heap self ++ [TraceNode_init (def_name d) timestamp tid]) !! i = Some obj
    /\ name obj' = name obj /\ start_time obj' = start_time obj
    /\ end_time obj' = end_time obj /\ thread_id obj' = thread_id obj
    /\ (children obj' = children obj
        \/ (last (stack_of tid self) = Some i
            /\ children obj' = children obj ++ [length (heap self)])).
Proof.
  rewrite observe_start_eq. simpl.
  destruct (last (stack_of tid self)) as [p|]; [|intros H; exists obj'; tauto].
  intros H.
  apply lookup_alter_Some in H as (obj1 & H & Hobj1).
  apply lookup_alter_Some in H as (obj & H & Hobj).
  exists obj. split; [exact H|].
  destruct Hobj1 as [[_ ->]|[_ ->]], Hobj as [[_ ->]|[-> ->]]; simpl; tauto.
Qed.

Lemma observe_start_length d tid timestamp self :
  length (heap (observe_start d tid timestamp self)) = S (length (heap self)).
Proof.
  rewrite observe_start_eq. simpl.
  destruct (last (stack_of tid self));
    rewrite ?length_alter, length_app; simpl; lia.
Qed.

(** [observe_end] either changes nothing or closes and pops the top. *)
Lemma observe_end_cases d tid timestamp self :
  observe_end d tid timestamp self = self
  \/ exists below top obj,
       dict_get tid (thread_stacks self) = Some (below ++ [top])
       /\ heap self !! top = Some obj
       /\ name obj = def_name d
       /\ observe_end d tid timestamp self =
          {| event_defs := event_defs self;
             thread_stacks := dict_set tid below (thread_stacks self);
             completed_roots :=
               match below with
               | [] => completed_roots self ++ [top]
               | _ :: _ => completed_roots self
               end;
             heap := alter (close timestamp) top (heap self) |}.
Proof.
  unfold observe_end.
  destruct (dict_get tid (thread_stacks self)) as [stk|] eqn:E; [|tauto].
  destruct (last stk) as [top|] eqn:El; [|tauto].
  apply last_Some in El as [below ->].
  destruct (heap self !! top) as [obj|] eqn:Eo; [|tauto].
  destruct (String.eqb_spec (name obj) (def_name d)) as [En|En]; [|tauto].
  right. exists below, top, obj. rewrite removelast_last. tauto.
Qed.

(** ** The invariant of the store is kept *)

Lemma wf_fresh defs : wf (fresh defs).
Proof. split; simpl; intros; try tauto; discriminate. Qed.

Lemma wf_observe_start d tid timestamp self :
  wf self -> wf (observe_start d tid timestamp self).
Proof.
  intros [Hopen Hroots Hchild Hunset].
  assert (Hlen := observe_start_length d tid timestamp self).
  assert (Htop : forall p, last (stack_of tid self) = Some p -> p < length (heap self)).
  { intros p Hp. apply Hopen, (stack_of_open _ tid).
    apply last_Some in Hp as [l' ->]. apply in_app_iff. simpl. tauto. }
  split.
  - intros i Hi. rewrite Hlen. rewrite observe_start_eq in Hi. simpl in Hi.
    apply open_nodes_dict_set_inv in Hi as [Hi|Hi].
    + apply in_app_iff in Hi as [Hi|[<-|[]]]; [|lia].
      apply (stack_of_open _ tid), Hopen in Hi. lia.
    + apply Hopen in Hi. lia.
  - intros r Hr. rewrite Hlen. rewrite observe_start_eq in Hr. simpl in Hr.
    apply Hroots in Hr. lia.
  - intros i obj' c Hi Hc. rewrite Hlen.
    apply observe_start_lookup in Hi as (obj & Hobj & _ & _ & _ & _ & Hch).
    apply lookup_snoc_Some in Hobj as [[Hlt Hobj]|[-> <-]].
    + destruct Hch as [Hch|[_ Hch]]; rewrite Hch in Hc.
      * destruct (Hchild _ _ _ Hobj Hc). lia.
      * apply in_app_iff in Hc as [Hc|[<-|[]]]; [|lia].
        destruct (Hchild _ _ _ Hobj Hc). lia.
    + destruct Hch as [Hch|[Hp _]].
      * rewrite Hch in Hc. destruct Hc.
      * apply Htop in Hp. lia.
  - intros i obj' Hi Hend.
    apply observe_start_lookup in Hi as (obj & Hobj & _ & _ & He & _).
    rewrite observe_start_eq. simpl.
    apply lookup_snoc_Some in Hobj as [[Hlt Hobj]|[-> <-]].
    + apply open_nodes_dict_set_keep.
      * apply (Hunset _ _ Hobj). congruence.
      * intros Hin. apply in_app_iff. left. exact Hin.
    + apply open_nodes_dict_set_new, in_app_iff. simpl. tauto.
Qed.

Lemma wf_observe_end d tid timestamp self :
  wf self -> wf (observe_end d tid timestamp self).
Proof.
  intros Hwf.
  destruct (observe_end_cases d tid timestamp self)
    as [->|(below & top & obj & Hget & Hobj & Hname & ->)]; [exact Hwf|].
  destruct Hwf as [Hopen Hroots Hchild Hunset].
  assert (Htop : top < length (heap self)).
  { apply Hopen, (dict_get_open _ _ _ _ Hget), in_app_iff. simpl. tauto. }
  split; simpl; rewrite ?length_alter.
  - intros i Hi. apply open_nodes_dict_set_inv in Hi as [Hi|Hi]; [|auto].
    apply Hopen, (dict_get_open _ _ _ _ Hget), in_app_iff. tauto.
  - intros r Hr. destruct below.
    + apply in_app_iff in Hr as [Hr|[<-|[]]]; auto.
    + auto.
  - intros i obj' c Hi Hc.
    apply lookup_alter_Some in Hi as (o & Ho & [[_ ->]|[_ ->]]);
      apply (Hchild _ _ _ Ho Hc).
  - intros i obj' Hi Hend.
    apply lookup_alter_Some in Hi as (o & Ho & [[Hne ->]|[_ ->]]); [|discriminate].
    apply open_nodes_dict_set_keep; [apply (Hunset _ _ Ho Hend)|].
    rewrite Hget. simpl. intros Hin.
    apply in_app_iff in Hin as [Hin|[Heq|[]]]; [exact Hin|congruence].
Qed.

Lemma wf_observe_all sigs self : wf self -> wf (observe_all sigs self).
Proof.
  revert self. induction sigs as [|[[tid t] s] rest IH]; intros self Hwf; [exact Hwf|].
  apply IH. destruct s; [apply wf_observe_start|apply wf_observe_end]; exact Hwf.
Qed.

(** ** Forced closure *)

Lemma force_close_idem obj : force_close (force_close obj) = force_close obj.
Proof. unfold force_close. destruct (end_time obj) eqn:E; simpl; [rewrite E|]; reflexivity. Qed.

Lemma force_close_end obj : end_time (force_close obj) <> None.
Proof. unfold force_close. destruct (end_time obj) eqn:E; simpl; congruence. Qed.

(** One turn of the [while] loop on the store. *)
Lemma close_step_lookup (h : list TraceNode) (node j : nat) :
  match h !! node with
  | Some obj =>
      match end_time obj with
      | None => alter (close (start_time obj)) node h
      | Some _ => h
      end
  | None => h
  end !! j
  = if decide (node = j) then force_close <$> h !! j else h !! j.
Proof.
  destruct (decide (node = j)) as [->|Hne].
  - destruct (h !! j) as [obj|] eqn:E; simpl; [|exact E].
    unfold force_close. destruct (end_time obj) eqn:Ee.
    + exact E.
    + rewrite list_lookup_alter_eq, E. reflexivity.
  - destruct (h !! node) as [obj|]; [|reflexivity].
    destruct (end_time obj); [reflexivity|].
    apply list_lookup_alter_ne, Hne.
Qed.

Lemma close_stack_roots popped roots h :
  fst (close_stack popped roots h)
  = roots ++ match last popped with Some b => [b] | None => [] end.
Proof.
  revert roots h. induction popped as [|node below IH]; intros roots h; simpl.
  - rewrite app_nil_r. reflexivity.
  - rewrite IH. destruct below as [|b bs]; simpl.
    + rewrite app_nil_r. reflexivity.
    + reflexivity.
Qed.

Lemma close_stack_lookup_out popped roots h i :
  ~ In i popped -> snd (close_stack popped roots h) !! i = h !! i.
Proof.
  revert roots h. induction popped as [|node below IH]; intros roots h Hi; simpl.
  - reflexivity.
  - rewrite IH by (intros H; apply Hi; right; exact H).
    rewrite close_step_lookup.
    destruct (decide (node = i)) as [->|_]; [|reflexivity].
    exfalso. apply Hi. left. reflexivity.
Qed.

Lemma close_stack_lookup_in popped roots h i :
  In i popped -> snd (close_stack popped roots h) !! i = force_close <$> h !! i.
Proof.
  revert roots h. induction popped as [|node below IH]; intros roots h Hi; simpl.
  - destruct Hi.
  - destruct (in_dec Nat.eq_dec i below) as [Hin|Hout].
    + rewrite IH by exact Hin. rewrite close_step_lookup.
      destruct (decide (node = i)) as [->|_]; [|reflexivity].
      destruct (h !! i); simpl; [rewrite force_close_idem|]; reflexivity.
    + rewrite close_stack_lookup_out by exact Hout.
      rewrite close_step_lookup.
      destruct Hi as [->|Hi]; [|contradiction].
      destruct (decide (i = i)); [reflexivity|congruence].
Qed.

Lemma close_all_stacks_stacks stacks roots h :
  fst (fst (close_all_stacks stacks roots h)) = map (fun e => (fst e, [])) stacks.
Proof.
  revert roots h. induction stacks as [|[tid stack] rest IH]; intros roots h; simpl; [reflexivity|].
  destruct (close_stack (rev stack) roots h) as [roots1 h1].
  specialize (IH roots1 h1).
  destruct (close_all_stacks rest roots1 h1) as [[rest' roots2] h2].
  simpl in *. rewrite IH. reflexivity.
Qed.

Lemma close_all_stacks_roots stacks roots h :
  snd (fst (close_all_stacks stacks roots h)) = roots ++ bottoms stacks.
Proof.
  revert roots h. induction stacks as [|[tid stack] rest IH]; intros roots h; simpl.
  - rewrite app_nil_r. reflexivity.
  - pose proof (close_stack_roots (rev stack) roots h) as Hr.
    destruct (close_stack (rev stack) roots h) as [roots1 h1].
    specialize (IH roots1 h1).
    destruct (close_all_stacks rest roots1 h1) as [[rest' roots2] h2].
    simpl in *. rewrite IH, Hr, <- app_assoc. f_equal. f_equal.
    destruct stack as [|b l]; [reflexivity|].
    simpl. rewrite last_snoc. reflexivity.
Qed.

Lemma close_all_stacks_lookup_out stacks roots h i :
  ~ In i (open_nodes stacks) ->
  snd (close_all_stacks stacks roots h) !! i = h !! i.
Proof.
  unfold open_nodes.
  revert roots h. induction stacks as [|[tid stack] rest IH]; intros roots h Hi; simpl.
  - reflexivity.
  - simpl in Hi. rewrite in_app_iff in Hi.
    pose proof (close_stack_lookup_out (rev stack) roots h i) as Hs.
    destruct (close_stack (rev stack) roots h) as [roots1 h1].
    specialize (IH roots1 h1).
    destruct (close_all_stacks rest roots1 h1) as [[rest' roots2] h2].
    simpl in *. rewrite IH by tauto. apply Hs. rewrite <- in_rev. tauto.
Qed.

Lemma close_all_stacks_lookup_in stacks roots h i :
  In i (open_nodes stacks) ->
  snd (close_all_stacks stacks roots h) !! i = force_close <$> h !! i.
Proof.
  unfold open_nodes.
  revert roots h. induction stacks as [|[tid stack] rest IH]; intros roots h Hi; simpl.
  - destruct Hi.
  - simpl in Hi. rewrite in_app_iff in Hi.
    pose proof (close_stack_lookup_in (rev stack) roots h i) as Hin.
    pose proof (close_stack_lookup_out (rev stack) roots h i) as Hout.
    pose proof (close_all_stacks_lookup_out rest) as Hrest.
    unfold open_nodes in Hrest.
    destruct (close_stack (rev stack) roots h) as [roots1 h1].
    specialize (IH roots1 h1). specialize (Hrest roots1 h1 i).
    destruct (close_all_stacks rest roots1 h1) as [[rest' roots2] h2].
    simpl in *.
    destruct (in_dec Nat.eq_dec i (concat (map snd rest))) as [Hr|Hr].
    + rewrite IH by exact Hr.
      destruct (in_dec Nat.eq_dec i stack) as [Hs|Hs].
      * rewrite Hin by (rewrite <- in_rev; exact Hs).
        destruct (h !! i); simpl; [rewrite force_close_idem|]; reflexivity.
      * rewrite Hout by (rewrite <- in_rev; exact Hs). reflexivity.
    + rewrite Hrest by exact Hr. apply Hin. rewrite <- in_rev. tauto.
Qed.

(** [_close_dangling_events] field by field. *)
Lemma finalize_stacks self :
  thread_stacks (_close_dangling_events self)
  = map (fun e => (fst e, [])) (thread_stacks self).
Proof.
  unfold _close_dangling_events.
  pose proof (close_all_stacks_stacks (thread_stacks self) (completed_roots self) (heap self)) as H.
  destruct (close_all_stacks _ _ _) as [[s r] h]. exact H.
Qed.

Lemma finalize_roots self :
  completed_roots (_close_dangling_events self)
  = completed_roots self ++ bottoms (thread_stacks self).
Proof.
  unfold _close_dangling_events.
  pose proof (close_all_stacks_roots (thread_stacks self) (completed_roots self) (heap self)) as H.
  destruct (close_all_stacks _ _ _) as [[s r] h]. exact H.
Qed.

Lemma finalize_lookup_in self i :
  In i (open_nodes (thread_stacks self)) ->
  heap (_close_dangling_events self) !! i = force_close <$> heap self !! i.
Proof.
  unfold _close_dangling_events.
  pose proof (close_all_stacks_lookup_in (thread_stacks self) (completed_roots self) (heap self) i) as H.
  destruct (close_all_stacks _ _ _) as [[s r] h]. exact H.
Qed.

Lemma finalize_lookup_out self i :
  ~ In i (open_nodes (thread_stacks self)) ->
  heap (_close_dangling_events self) !! i = heap self !! i.
Proof.
  unfold _close_dangling_events.
  pose proof (close_all_stacks_lookup_out (thread_stacks self) (completed_roots self) (heap self) i) as H.
  destruct (close_all_stacks _ _ _) as [[s r] h]. exact H.
Qed.

Lemma open_nodes_emptied (stacks : list (Z * list nat)) :
  open_nodes (map (fun e => (fst e, [])) stacks) = [].
Proof. unfold open_nodes. induction stacks as [|e rest IH]; simpl; [reflexivity|exact IH]. Qed.

Lemma bottoms_open stacks i : In i (bottoms stacks) -> In i (open_nodes stacks).
Proof.
  unfold bottoms, open_nodes.
  induction stacks as [|[tid stack] rest IH]; simpl; [tauto|].
  rewrite !in_app_iff. intros [H|H]; [|auto].
  left. destruct stack as [|b l]; [destruct H|]. destruct H as [<-|[]]. left. reflexivity.
Qed.

Lemma close_stack_length popped roots h :
  length (snd (close_stack popped roots h)) = length h.
Proof.
  revert roots h. induction popped as [|node below IH]; intros roots h; simpl; [reflexivity|].
  rewrite IH. destruct (h !! node) as [obj|]; [|reflexivity].
  destruct (end_time obj); [reflexivity|apply length_alter].
Qed.

Lemma close_all_stacks_length stacks roots h :
  length (snd (close_all_stacks stacks roots h)) = length h.
Proof.
  revert roots h. induction stacks as [|[tid stack] rest IH]; intros roots h; simpl; [reflexivity|].
  pose proof (close_stack_length (rev stack) roots h) as Hs.
  destruct (close_stack (rev stack) roots h) as [roots1 h1].
  specialize (IH roots1 h1).
  destruct (close_all_stacks rest roots1 h1) as [[rest' roots2] h2].
  simpl in *. congruence.
Qed.

Lemma finalize_length self :
  length (heap (_close_dangling_events self)) = length (heap self).
Proof.
  unfold _close_dangling_events.
  pose proof (close_all_stacks_length (thread_stacks self) (completed_roots self) (heap self)) as H.
  destruct (close_all_stacks _ _ _) as [[s r] h]. exact H.
Qed.

Lemma finalize_lookup_Some self i obj' :
  heap (_close_dangling_events self) !! i = Some obj' ->
  (~ In i (open_nodes (thread_stacks self)) /\ heap self !! i = Some obj')
  \/ (In i (open_nodes (thread_stacks self))
      /\ exists obj, heap self !! i = Some obj /\ obj' = force_close obj).
Proof.
  destruct (in_dec Nat.eq_dec i (open_nodes (thread_stacks self))) as [H|H].
  - rewrite finalize_lookup_in by exact H. intros Hf.
    apply fmap_Some in Hf as (obj & Hobj & ->). right. eauto.
  - rewrite finalize_lookup_out by exact H. tauto.
Qed.

Lemma children_force_close obj : children (force_close obj) = children obj.
Proof. unfold force_close. destruct (end_time obj); reflexivity. Qed.

Lemma wf_finalize self : wf self -> wf (_close_dangling_events self).
Proof.
  intros [Hopen Hroots Hchild Hunset]. split.
  - intros i. rewrite finalize_stacks, open_nodes_emptied. intros [].
  - intros r. rewrite finalize_roots, finalize_length, in_app_iff.
    intros [Hr|Hr]; [auto|]. apply Hopen, bottoms_open, Hr.
  - intros i obj' c Hi Hc. rewrite finalize_length.
    apply finalize_lookup_Some in Hi as [[_ Hi]|[_ (obj & Hi & ->)]].
    + apply (Hchild _ _ _ Hi Hc).
    + rewrite children_force_close in Hc. apply (Hchild _ _ _ Hi Hc).
  - intros i obj' Hi Hend. exfalso.
    apply finalize_lookup_Some in Hi as [[Hout Hi]|[_ (obj & Hi & ->)]].
    + apply Hout, (Hunset _ _ Hi Hend).
    + apply (force_close_end _ Hend).
Qed.

(** After [_close_dangling_events] every node has its end set. *)
Lemma finalize_all_closed self i obj :
  wf self -> heap (_close_dangling_events self) !! i = Some obj ->
  exists e, end_time obj = Some e.
Proof.
  intros Hwf Hi. destruct (end_time obj) as [e|] eqn:E; [eauto|].
  exfalso. pose proof (wf_finalize _ Hwf) as Hwf'.
  pose proof (wf_unset _ Hwf' _ _ Hi E) as Hin.
  rewrite finalize_stacks, open_nodes_emptied in Hin. destruct Hin.
Qed.

(** ** Instants in arrival order *)

Lemma time_ok_later now t h : (now <= t)%Z -> time_ok now h -> time_ok t h.
Proof.
  intros Hle Hok i obj Hi. destruct (Hok i obj Hi) as [Hs He].
  split; [lia|exact He].
Qed.

Lemma time_ok_observe now tid t s self :
  (now <= t)%Z -> time_ok now (heap self) ->
  time_ok t (heap (observe tid t s self)).
Proof.
  intros Hle Hok. destruct s as [d|d]; simpl.
  - intros i obj' Hi.
    apply observe_start_lookup in Hi as (obj & Hobj & _ & Hs & He & _).
    rewrite Hs, He.
    apply lookup_snoc_Some in Hobj as [[_ Hobj]|[_ <-]].
    + destruct (Hok i obj Hobj) as [H1 H2]. split; [lia|exact H2].
    + simpl. split; [lia|discriminate].
  - destruct (observe_end_cases d tid t self)
      as [->|(below & top & obj & Hget & Hobj & Hname & ->)].
    + apply (time_ok_later now); assumption.
    + simpl. intros i obj' Hi.
      apply lookup_alter_Some in Hi as (o & Ho & [[_ ->]|[_ ->]]);
        destruct (Hok i o Ho) as [H1 H2].
      * split; [lia|exact H2].
      * simpl. split; [lia|]. intros e [= <-]. lia.
Qed.

Lemma time_ok_observe_all sigs now self :
  time_ok now (heap self) ->
  Sorted Z.le (now :: map instant_of sigs) ->
  exists now', time_ok now' (heap (observe_all sigs self)).
Proof.
  revert now self. induction sigs as [|[[tid t] s] rest IH]; intros now self Hok Hs; simpl.
  - exists now. exact Hok.
  - apply Sorted_inv in Hs as [Hs Hhd]. apply HdRel_inv in Hhd.
    apply (IH t); [|exact Hs].
    apply (time_ok_observe now); assumption.
Qed.

Lemma time_ok_reachable defs sigs :
  Sorted Z.le (map instant_of sigs) ->
  exists now, time_ok now (heap (observe_all sigs (fresh defs))).
Proof.
  intros Hs. destruct sigs as [|x rest].
  - exists 0%Z. intros i obj Hi. discriminate Hi.
  - apply (time_ok_observe_all (x :: rest) (instant_of x)).
    + intros i obj Hi. discriminate Hi.
    + constructor; [exact Hs|]. constructor. simpl. lia.
Qed.

Lemma time_ok_finalize now self :
  time_ok now (heap self) -> time_ok now (heap (_close_dangling_events self)).
Proof.
  intros Hok i obj' Hi.
  apply finalize_lookup_Some in Hi as [[_ Hi]|[_ (obj & Hi & ->)]];
    destruct (Hok i _ Hi) as [H1 H2]; [tauto|].
  unfold force_close. destruct (end_time obj) eqn:E.
  - split; [exact H1|]. intros e He. apply H2. congruence.
  - simpl. split; [exact H1|]. intros e [= <-]. lia.
Qed.

Lemma duration_ms_nonneg obj :
  (forall e, end_time obj = Some e -> (start_time obj <= e)%Z) ->
  (0 <= duration_ms obj)%Q.
Proof.
  intros H. unfold duration_ms. destruct (end_time obj) as [e|]; [|apply Qle_refl].
  specialize (H e eq_refl). unfold Qle. simpl. lia.
Qed.

(** ** The Forest lies in the store *)

Lemma descendant_in_store self p d :
  wf self -> descendant (heap self) p d -> d < length (heap self).
Proof.
  intros Hwf Hd. induction Hd as [p c (obj & Hp & Hc)|p c d _ _ IH]; [|exact IH].
  apply (wf_children _ Hwf _ _ _ Hp Hc).
Qed.

Lemma in_forest_in_store self n :
  wf self -> in_forest self n -> exists obj, heap self !! n = Some obj.
Proof.
  intros Hwf (r & Hr & Hn).
  assert (Hlt : n < length (heap self)).
  { destruct Hn as [->|Hd].
    - apply (wf_roots _ Hwf _ Hr).
    - apply (descendant_in_store _ r); assumption. }
  apply lookup_lt_is_Some in Hlt as [obj Hobj]. eauto.
Qed.

(** ** End of stream *)

(** C7: [_close_dangling_events] empties every thread's stack, gives every
    node that was on a stack with its end unset the end [end = start],
    leaves every other node alone, and appends the bottom-most node of each
    non-empty stack to the Forest.  Afterwards every node of the Forest is
    in the store with its end set, and, the instants of a stream being
    non-decreasing, none has a negative duration. *)
Theorem C7_finalize_closes_dangling_nodes :
  forall (defs : list EventDef) (sigs : list Delivery),
    let self := observe_all sigs (fresh defs) in
    let self' := _close_dangling_events self in
    thread_stacks self' = map (fun e => (fst e, [])) (thread_stacks self)
    /\ completed_roots self'
       = completed_roots self ++ bottoms (thread_stacks self)
    /\ (forall i, In i (open_nodes (thread_stacks self)) ->
          heap self' !! i = force_close <$> heap self !! i)
    /\ (forall i, ~ In i (open_nodes (thread_stacks self)) ->
          heap self' !! i = heap self !! i)
    /\ (forall n, in_forest self' n ->
          exists obj e, heap self' !! n = Some obj /\ end_time obj = Some e)
    /\ (Sorted Z.le (map instant_of sigs) ->
        forall n, in_forest self' n ->
          exists obj, heap self' !! n = Some obj /\ (0 <= duration_ms obj)%Q).
Proof.
  intros defs sigs self self'.
  assert (Hwf : wf self) by apply wf_observe_all, wf_fresh.
  assert (Hwf' : wf self') by apply wf_finalize, Hwf.
  split; [apply finalize_stacks|].
  split; [apply finalize_roots|].
  split; [intros i; apply finalize_lookup_in|].
  split; [intros i; apply finalize_lookup_out|].
  split.
  - intros n Hn. destruct (in_forest_in_store _ _ Hwf' Hn) as [obj Hobj].
    destruct (finalize_all_closed _ _ _ Hwf Hobj) as [e He]. eauto.
  - intros Hs n Hn. destruct (in_forest_in_store _ _ Hwf' Hn) as [obj Hobj].
    exists obj. split; [exact Hobj|].
    destruct (time_ok_reachable defs sigs Hs) as [now Hok].
    apply (time_ok_finalize now) in Hok.
    apply duration_ms_nonneg, (Hok n obj Hobj).
Qed.

(** C7, witness: the stream that leaves [A] open above its closed child. *)
Lemma C7_witness :
  let self' :=
    _close_dangling_events (observe_all dangling_parent (fresh [def_A; def_B])) in
  exists obj, heap self' !! 0 = Some obj /\ (0 <= duration_ms obj)%Q.
Proof.
  refine (proj2 (proj2 (proj2 (proj2 (proj2
    (C7_finalize_closes_dangling_nodes [def_A; def_B] dangling_parent))))) _ 0 _).
  - unfold dangling_parent, instant_of. simpl.
    repeat (apply Sorted_cons || apply Sorted_nil || apply HdRel_cons
            || apply HdRel_nil); lia.
  - exists 0. split; [left; reflexivity|left; reflexivity].
Defined.

(** The order of the instants is needed for the sign of the durations:
    when [A] starts at 10 ms and its end line is stamped 5 ms, the node is
    closed by its end line, it is the only root, and its duration is -5 ms
    after [_close_dangling_events]. *)
Remark backwards_clock_gives_negative_duration :
  let self' :=
    _close_dangling_events (observe_all backwards_clock (fresh [def_A])) in
  exists obj,
    completed_roots self' = [0]
    /\ in_forest self' 0
    /\ heap self' !! 0 = Some obj
    /\ (duration_ms obj == - (5))%Q
    /\ (duration_ms obj < 0)%Q.
Proof.
  cbv zeta. eexists.
  split; [reflexivity|].
  split; [exists 0; split; left; reflexivity|].
  split; [reflexivity|].
  split; reflexivity.
Qed.

(** C10: forced closure gives a node that is on a stack with its end unset
    the end [end = start], whatever its children are; and the stream
    [START A], [START B], [END B] at 0, 1 and 5 ms leaves a root [A] that
    ends before its child [B] does and lasts less than its children. *)
Theorem C10_forced_closure_ignores_children :
  (forall (self : LogProfiler) (node : nat) (obj : TraceNode),
     In node (open_nodes (thread_stacks self)) ->
     heap self !! node = Some obj ->
     end_time obj = None ->
     heap (_close_dangling_events self) !! node
     = Some {| name := name obj; start_time := start_time obj;
               end_time := Some (start_time obj);
               thread_id := thread_id obj; children := children obj;
               parent := parent obj |})
  /\ (let self :=
        _close_dangling_events
          (observe_all dangling_parent (fresh [def_A; def_B])) in
      exists p c op oc ep ec,
        In p (completed_roots self)
        /\ heap self !! p = Some op
        /\ In c (children op)
        /\ heap self !! c = Some oc
        /\ end_time op = Some ep
        /\ end_time oc = Some ec
        /\ (ep < ec)%Z
        /\ (duration_ms op < child_duration (heap self) op)%Q).
Proof.
  split.
  - intros self node obj Hin Hobj Hend.
    rewrite finalize_lookup_in by exact Hin. rewrite Hobj. simpl.
    unfold force_close. rewrite Hend. reflexivity.
  - cbv zeta. exists 0, 1. eexists _, _, _, _.
    split; [left; reflexivity|].
    split; [reflexivity|].
    split; [left; reflexivity|].
    split; [reflexivity|].
    split; [reflexivity|].
    split; [reflexivity|].
    split; reflexivity.
Qed.

(** C10, witness: the open root of that stream before the end of the
    stream. *)
Lemma C10_witness :
  heap (_close_dangling_events
          (observe_all dangling_parent (fresh [def_A; def_B]))) !! 0
  = Some {| name := "A"; start_time := 0; end_time := Some 0%Z;
            thread_id := 1; children := [1]; parent := None |}.
Proof.
  refine (proj1 C10_forced_closure_ignores_children
            (observe_all dangling_parent (fresh [def_A; def_B])) 0
            {| name := "A"; start_time := 0; end_time := None;
               thread_id := 1; children := [1]; parent := None |} _ _ _).
  - left. reflexivity.
  - reflexivity.
  - reflexivity.
Defined.

(** ** Balanced streams *)

Lemma Call_nested_ind (P : Call -> Prop) :
  (forall d t_start t_end inner,
     Forall P inner -> P (mkCall d t_start t_end inner)) ->
  forall c, P c.
Proof.
  intros H. fix IH 1. intros [d t_start t_end inner]. apply H.
  induction inner as [|c rest IHrest]; constructor; [apply IH|exact IHrest].
Qed.

Lemma same_identity_refl obj : same_identity obj obj.
Proof. repeat split. Qed.

Lemma same_identity_trans a b c :
  same_identity a b -> same_identity b c -> same_identity a c.
Proof. unfold same_identity. intros (? & ? & ?) (? & ? & ?). repeat split; congruence. Qed.

Lemma evolves_refl h : evolves h h.
Proof. intros i obj H. exists obj. split; [exact H|apply same_identity_refl]. Qed.

Lemma evolves_trans h1 h2 h3 : evolves h1 h2 -> evolves h2 h3 -> evolves h1 h3.
Proof.
  intros H12 H23 i obj H. destruct (H12 i obj H) as (o2 & Ho2 & Hid2).
  destruct (H23 i o2 Ho2) as (o3 & Ho3 & Hid3).
  exists o3. split; [exact Ho3|]. apply (same_identity_trans _ o2); assumption.
Qed.

Lemma evolves_alter (f : TraceNode -> TraceNode) (i : nat) h :
  (forall obj, same_identity obj (f obj)) -> evolves h (alter f i h).
Proof.
  intros Hf j obj Hj. rewrite (lookup_alter_Some_rev f i j h obj Hj).
  destruct (decide (i = j)); eexists; split; try reflexivity;
    [apply Hf|apply same_identity_refl].
Qed.

Lemma evolves_observe_start d tid timestamp self :
  evolves (heap self ++ [TraceNode_init (def_name d) timestamp tid])
    (heap (observe_start d tid timestamp self)).
Proof.
  rewrite observe_start_eq. simpl.
  destruct (last (stack_of tid self)) as [p|]; [|apply evolves_refl].
  eapply evolves_trans; apply evolves_alter; intros obj; repeat split.
Qed.

Lemma evolves_app h new : evolves h (h ++ [new]).
Proof.
  intros i obj H. exists obj. split; [|apply same_identity_refl].
  apply lookup_app_l_Some, H.
Qed.

Lemma observe_end_pop d tid timestamp self below top obj :
  dict_get tid (thread_stacks self) = Some (below ++ [top]) ->
  heap self !! top = Some obj ->
  name obj = def_name d ->
  observe_end d tid timestamp self =
  {| event_defs := event_defs self;
     thread_stacks := dict_set tid below (thread_stacks self);
     completed_roots :=
       match below with
       | [] => completed_roots self ++ [top]
       | _ :: _ => completed_roots self
       end;
     heap := alter (close timestamp) top (heap self) |}.
Proof.
  intros Hget Hobj Hname. unfold observe_end.
  rewrite Hget, last_snoc, Hobj, Hname, String.eqb_refl, removelast_last.
  reflexivity.
Qed.

Lemma observe_all_app sigs1 sigs2 self :
  observe_all (sigs1 ++ sigs2) self = observe_all sigs2 (observe_all sigs1 self).
Proof. apply fold_left_app. Qed.

Lemma balanced_siblings tid cs :
  Forall (balanced_effect tid) cs ->
  forall self,
    stack_of tid self <> [] ->
    let self' := observe_all (concat (map (signals_of tid) cs)) self in
    event_defs self' = event_defs self
    /\ thread_stacks self'
       = dict_set tid (stack_of tid self) (thread_stacks self)
    /\ completed_roots self' = completed_roots self
    /\ length (heap self') = length (heap self) + list_sum (map call_count cs)
    /\ evolves (heap self) (heap self').
Proof.
  induction 1 as [|c rest Hc _ IH]; intros self Hne; cbv zeta.
  - simpl. repeat split; try lia; [|apply evolves_refl].
    unfold stack_of in *.
    destruct (dict_get tid (thread_stacks self)) as [stk|] eqn:E; [|contradiction].
    simpl. symmetry. apply dict_set_get_id, E.
  - simpl. rewrite observe_all_app.
    destruct (Hc self) as (Hd & Hs & Hr & Hl & He & _).
    set (self1 := observe_all (signals_of tid c) self) in *.
    assert (Hstk : stack_of tid self1 = stack_of tid self).
    { unfold stack_of at 1. rewrite Hs, dict_get_set_eq. reflexivity. }
    destruct (IH self1) as (Hd2 & Hs2 & Hr2 & Hl2 & He2).
    { rewrite Hstk. exact Hne. }
    rewrite Hd2, Hs2, Hr2, Hl2, Hstk, Hs, dict_set_set, Hr, Hl, Hd.
    destruct (stack_of tid self) as [|b l]; [contradiction|].
    rewrite app_nil_r.
    repeat split; try lia. eapply evolves_trans; eassumption.
Qed.

Lemma balanced_call tid c : balanced_effect tid c.
Proof.
  induction c as [d t_start t_end inner IH] using Call_nested_ind.
  intros self. cbv zeta. simpl signals_of.
  change (observe_all ((tid, t_start, StartSignal d) :: ?l) self)
    with (observe_all l (observe_start d tid t_start self)).
  rewrite observe_all_app.
  set (n := length (heap self)).
  set (stk := stack_of tid self).
  set (self1 := observe_start d tid t_start self).
  assert (Hs1 : thread_stacks self1 = dict_set tid (stk ++ [n]) (thread_stacks self)).
  { unfold self1. rewrite observe_start_eq. reflexivity. }
  assert (Hstk1 : stack_of tid self1 = stk ++ [n]).
  { unfold stack_of at 1. rewrite Hs1, dict_get_set_eq. reflexivity. }
  assert (Hd1 : event_defs self1 = event_defs self) by reflexivity.
  assert (Hr1 : completed_roots self1 = completed_roots self) by reflexivity.
  assert (Hl1 : length (heap self1) = S n) by apply observe_start_length.
  assert (He1 : evolves (heap self ++ [TraceNode_init (def_name d) t_start tid])
                  (heap self1)) by apply evolves_observe_start.
  destruct (balanced_siblings tid inner IH self1) as (Hd2 & Hs2 & Hr2 & Hl2 & He2).
  { rewrite Hstk1. destruct stk; discriminate. }
  set (self2 := observe_all (concat (map (signals_of tid) inner)) self1) in *.
  rewrite Hstk1, Hs1, dict_set_set in Hs2.
  destruct (He1 n (TraceNode_init (def_name d) t_start tid)) as (o1 & Ho1 & Hid1).
  { apply list_lookup_middle. reflexivity. }
  destruct (He2 n o1 Ho1) as (o2 & Ho2 & Hid2).
  pose proof (same_identity_trans _ _ _ Hid1 Hid2) as (Hname & Hstart & Htid).
  simpl in Hname, Hstart, Htid.
  change (observe_all [(tid, t_end, EndSignal d)] self2)
    with (observe_end d tid t_end self2).
  rewrite (observe_end_pop d tid t_end self2 stk n o2);
    [|rewrite Hs2; apply dict_get_set_eq|exact Ho2|exact Hname].
  simpl. rewrite Hd2, Hd1, Hs2, dict_set_set, Hr2, Hr1, length_alter, Hl2, Hl1.
  split; [reflexivity|]. split; [reflexivity|].
  split; [destruct stk; [reflexivity|rewrite app_nil_r; reflexivity]|].
  split; [lia|]. split.
  - eapply evolves_trans; [apply evolves_app|].
    eapply evolves_trans; [exact He1|].
    eapply evolves_trans; [exact He2|].
    apply evolves_alter. intros obj. repeat split.
  - exists (close t_end o2). rewrite list_lookup_alter_eq, Ho2. simpl.
    repeat split; assumption.
Qed.

(** [_close_dangling_events] finds nothing to do when every stack is
    empty. *)
Lemma finalize_nothing_open self :
  open_nodes (thread_stacks self) = [] ->
  _close_dangling_events self = self.
Proof.
  intros Hopen.
  assert (Hstacks : forall e, In e (thread_stacks self) -> snd e = []).
  { unfold open_nodes in Hopen. intros e He.
    induction (thread_stacks self) as [|e' rest IH]; [destruct He|].
    simpl in Hopen. apply app_eq_nil in Hopen as [H1 H2].
    destruct He as [->|He]; [exact H1|apply IH; assumption]. }
  unfold _close_dangling_events.
  assert (Hall : forall stacks roots h,
             (forall e, In e stacks -> snd e = []) ->
             close_all_stacks stacks roots h = (stacks, roots, h)).
  { induction stacks as [|[tid stack] rest IH]; intros roots h Hs; simpl; [reflexivity|].
    assert (stack = []) as -> by (apply (Hs (tid, stack)); left; reflexivity).
    simpl. rewrite IH; [reflexivity|]. intros e He. apply Hs. right. exact He. }
  rewrite Hall by exact Hstacks. destruct self. reflexivity.
Qed.

(** C8: the signals of [N] properly nested pairs with one outermost pair,
    delivered on one thread to a fresh profiler and followed by
    [_close_dangling_events], leave exactly [N] nodes in the store, the
    node of the outermost pair (with the pair's name and instants) as the
    only root of the Forest, and the thread's stack empty. *)
Theorem C8_balanced_round_trip :
  forall (defs : list EventDef) (tid : Z) (c : Call),
    let self :=
      _close_dangling_events (observe_all (signals_of tid c) (fresh defs)) in
    length (heap self) = call_count c
    /\ completed_roots self = [0]
    /\ root_of_call tid c (heap self) 0
    /\ thread_stacks self = [(tid, [])]
    /\ stack_of tid self = [].
Proof.
  intros defs tid c.
  destruct (balanced_call tid c (fresh defs)) as (Hd & Hs & Hr & Hl & He & Hroot).
  cbv zeta. simpl in Hs, Hr, Hl, Hroot.
  rewrite finalize_nothing_open by (rewrite Hs; reflexivity).
  unfold stack_of. rewrite Hs. simpl. rewrite Z.eqb_refl. tauto.
Qed.

(** ** The exported trace *)

Lemma Forall2_In_split {A B : Type} (P : A -> B -> Prop) (l : list A)
    (k : list B) (x : A) :
  Forall2 P l k -> In x l ->
  exists k1 y k2, k = k1 ++ y :: k2 /\ P x y.
Proof.
  induction 1 as [|a b l k Hab _ IH]; intros Hin; [destruct Hin|].
  destruct Hin as [->|Hin].
  - exists [], b, k. split; [reflexivity|exact Hab].
  - destruct (IH Hin) as (k1 & y & k2 & -> & Hy).
    exists (b :: k1), y, k2. split; [reflexivity|exact Hy].
Qed.

(** In a store whose children are younger than their parents the export of
    a node comes back. *)
Lemma export_total (h : list TraceNode) (pid : Z) :
  (forall i obj c, h !! i = Some obj -> In c (children obj) ->
     i < c /\ c < length h) ->
  forall fuel i, i < length h -> length h - i <= fuel ->
    is_Some (to_chrome_trace_events fuel h i pid).
Proof.
  intros Hord. induction fuel as [|fuel IH]; intros i Hlt Hfuel; [lia|].
  simpl. destruct (lookup_lt_is_Some_2 h i Hlt) as [obj Hobj]. rewrite Hobj.
  assert (Hsub : is_Some (mapM (fun child => to_chrome_trace_events fuel h child pid)
                            (children obj))).
  { apply mapM_is_Some_2, Forall_forall. intros c Hc.
    apply list_elem_of_In in Hc.
    destruct (Hord i obj c Hobj Hc) as [H1 H2]. apply IH; lia. }
  destruct Hsub as [sub ->]. eauto.
Qed.

(** The export of a node is its begin record, the exports of its children
    in order, and its end record; the export of every node below it is a
    segment of what lies between the two records. *)
Lemma export_shape (fuel : nat) (h : list TraceNode) (n : nat) (pid : Z)
    (evs : list TraceEvent) :
  to_chrome_trace_events fuel h n pid = Some evs ->
  exists obj mid,
    h !! n = Some obj
    /\ evs = begin_event obj pid :: mid ++ [end_event obj pid]
    /\ forall d, descendant h n d ->
         exists fuel_d evs_d pre post,
           to_chrome_trace_events fuel_d h d pid = Some evs_d
           /\ mid = pre ++ evs_d ++ post.
Proof.
  revert n evs. induction fuel as [|fuel IH]; intros n evs; simpl; [discriminate|].
  destruct (h !! n) as [obj|] eqn:Hobj; [|discriminate].
  destruct (mapM _ (children obj)) as [sub|] eqn:Hsub; [|discriminate].
  intros [= <-]. exists obj, (concat sub).
  split; [reflexivity|]. split; [reflexivity|].
  apply mapM_Some_1 in Hsub.
  intros d Hd. inversion Hd as [p c (obj' & Hp & Hc)|p c d' (obj' & Hp & Hc) Hcd]; subst;
    rewrite Hobj in Hp; injection Hp as <-;
    destruct (Forall2_In_split _ _ _ _ Hsub Hc) as (k1 & s & k2 & -> & Hs).
  - exists fuel, s, (concat k1), (concat k2).
    split; [exact Hs|]. rewrite concat_app. reflexivity.
  - destruct (IH _ _ Hs) as (oc & mid_c & Hoc & -> & Hbelow).
    destruct (Hbelow d Hcd) as (fuel_d & evs_d & pre & post & Hevs & ->).
    exists fuel_d, evs_d, (concat k1 ++ begin_event oc pid :: pre),
      (post ++ [end_event oc pid] ++ concat k2).
    split; [exact Hevs|].
    rewrite concat_app. simpl. rewrite <- ?app_assoc. simpl.
    rewrite <- ?app_assoc. reflexivity.
Qed.

Lemma export_chrome_trace_total (self : LogProfiler) :
  wf self -> is_Some (export_chrome_trace self).
Proof.
  intros Hwf. unfold export_chrome_trace.
  assert (Hsub : is_Some (mapM (fun root =>
                   to_chrome_trace_events (length (heap self)) (heap self) root 1%Z)
                   (completed_roots self))).
  { apply mapM_is_Some_2, Forall_forall. intros r Hr.
    apply list_elem_of_In in Hr.
    apply export_total; [apply (wf_children _ Hwf)|apply (wf_roots _ Hwf _ Hr)|lia]. }
  destruct Hsub as [per_root ->]. eauto.
Qed.

(** The export of every node of the Forest is a segment of the exported
    trace. *)
Lemma export_chrome_trace_segment (self : LogProfiler) (evs : list TraceEvent)
    (n : nat) :
  export_chrome_trace self = Some evs -> in_forest self n ->
  exists fuel_n evs_n pre post,
    to_chrome_trace_events fuel_n (heap self) n 1%Z = Some evs_n
    /\ evs = pre ++ evs_n ++ post.
Proof.
  unfold export_chrome_trace.
  destruct (mapM _ (completed_roots self)) as [per_root|] eqn:Hroots; [|discriminate].
  intros [= <-] (r & Hr & Hn).
  apply mapM_Some_1 in Hroots.
  destruct (Forall2_In_split _ _ _ _ Hroots Hr) as (k1 & s & k2 & -> & Hs).
  rewrite concat_app. simpl.
  destruct Hn as [->|Hd].
  - exists (length (heap self)), s, (concat k1), (concat k2). tauto.
  - destruct (export_shape _ _ _ _ _ Hs) as (obj & mid & Hobj & -> & Hbelow).
    destruct (Hbelow n Hd) as (fuel_n & evs_n & pre & post & Hevs & ->).
    exists fuel_n, evs_n, (concat k1 ++ begin_event obj 1 :: pre),
      (post ++ [end_event obj 1] ++ concat k2).
    split; [exact Hevs|].
    simpl. rewrite <- ?app_assoc. simpl. rewrite <- ?app_assoc. reflexivity.
Qed.

(** * Further properties of the code *)

(** ** End of stream, once more *)

(** X1: [_close_dangling_events] is idempotent on every profiler state: a
    second call finds every stack empty and changes nothing, in particular
    it adds no root. *)
Theorem X1_close_dangling_events_idempotent :
  forall self : LogProfiler,
    _close_dangling_events (_close_dangling_events self)
    = _close_dangling_events self.
Proof.
  intros self. apply finalize_nothing_open.
  rewrite finalize_stacks. apply open_nodes_emptied.
Qed.

(** ** Reading the log, once more *)

(** X2: [process_file] ends without an exception exactly when no line of
    the log matches the header pattern. *)
Theorem X2_process_file_succeeds_iff_no_line_matches :
  forall (strip : string -> string)
         (log_pattern : string -> option (list (option string)))
         (strptime py_int : string -> option Z)
         (lines : list string) (self : LogProfiler),
    fst (process_file strip log_pattern strptime py_int lines self) = None
    <-> forall l, In l lines -> log_pattern (strip l) = None.
Proof.
  intros strip log_pattern strptime py_int lines self.
  induction lines as [|line rest IH]; simpl.
  - split; [intros _ l []|reflexivity].
  - pose proof (process_line_keeps_or_raises strip log_pattern strptime py_int
                  line self) as H.
    destruct (process_line strip log_pattern strptime py_int line self) as [e|self'].
    + simpl. split; [discriminate|]. intros Hall. exfalso. apply H, Hall.
      left. reflexivity.
    + destruct H as [-> Hline]. rewrite IH. split.
      * intros Hall l [<-|Hl]; [exact Hline|apply Hall, Hl].
      * intros Hall l Hl. apply Hall. right. exact Hl.
Qed.

(** X3: whatever the configuration and the log, the [__main__] block prints
    an empty report and leaves the profiler without any node: it either
    ends normally with an empty trace file, or [process_file] raises and no
    trace file is written. *)
Theorem X3_main_never_reports_a_node :
  forall (strip : string -> string)
         (log_pattern : string -> option (list (option string)))
         (strptime py_int : string -> option Z)
         (re_search : string -> string -> bool)
         (events : list ConfigEvent) (lines : list string),
    let r := main strip log_pattern strptime py_int re_search events lines in
    stdout r = []
    /\ heap (profiler r) = []
    /\ completed_roots (profiler r) = []
    /\ ((raised r = None /\ trace_file r = Some [])
        \/ (exists e, raised r = Some e /\ trace_file r = None)).
Proof.
  intros strip log_pattern strptime py_int re_search events lines.
  cbv zeta. unfold main, main_body. cbn [fold_left].
  unfold exec_method. cbn [raised profiler stdout trace_file].
  pose proof (process_file_keeps_profiler strip log_pattern strptime py_int
                lines (LogProfiler_init re_search events)) as Hkeep.
  destruct (process_file strip log_pattern strptime py_int lines
              (LogProfiler_init re_search events)) as [[e|] p];
    simpl in Hkeep; subst p; simpl.
  - split; [reflexivity|]. split; [reflexivity|]. split; [reflexivity|].
    right. eauto.
  - split; [reflexivity|]. split; [reflexivity|]. split; [reflexivity|].
    left. split; reflexivity.
Qed.

(** ** What a stream does to the store *)

Lemma observe_length tid t s self :
  length (heap (observe tid t s self))
  = length (heap self)
    + match s with StartSignal _ => 1 | EndSignal _ => 0 end.
Proof.
  destruct s as [d|d]; unfold observe.
  - rewrite observe_start_length. lia.
  - destruct (observe_end_cases d tid t self)
      as [->|(below & top & obj & _ & _ & _ & ->)]; simpl;
      rewrite ?length_alter; lia.
Qed.

Lemma observe_all_length sigs self :
  length (heap (observe_all sigs self)) = length (heap self) + count_starts sigs.
Proof.
  revert self. induction sigs as [|[[tid t] s] rest IH]; intros self.
  - simpl. lia.
  - change (observe_all ((tid, t, s) :: rest) self)
      with (observe_all rest (observe tid t s self)).
    rewrite IH, observe_length. simpl. destruct s; simpl; lia.
Qed.

(** X4: a stream creates exactly one node per start signal: end signals
    create none, and no signal and no forced closure ever removes one. *)
Theorem X4_one_node_per_start_signal :
  forall (sigs : list Delivery) (self : LogProfiler),
    length (heap (observe_all sigs self))
    = length (heap self) + count_starts sigs
    /\ length (heap (_close_dangling_events (observe_all sigs self)))
       = length (heap self) + count_starts sigs.
Proof.
  intros sigs self. rewrite finalize_length.
  split; apply observe_all_length.
Qed.

(** The objects that were in the store before [observe_start]. *)
Lemma observe_start_old d tid timestamp self i :
  i < length (heap self) ->
  heap (observe_start d tid timestamp self) !! i
  = match last (stack_of tid self) with
    | Some p =>
        if decide (p = i)
        then append_child (length (heap self)) <$> heap self !! i
        else heap self !! i
    | None => heap self !! i
    end.
Proof.
  intros Hlt. rewrite observe_start_eq. simpl.
  destruct (last (stack_of tid self)) as [p|].
  - rewrite list_lookup_alter_ne by lia.
    destruct (decide (p = i)) as [->|Hne].
    + rewrite list_lookup_alter_eq, lookup_app_l by exact Hlt. reflexivity.
    + rewrite list_lookup_alter_ne by exact Hne. apply lookup_app_l, Hlt.
  - apply lookup_app_l, Hlt.
Qed.

(** The object [observe_start] creates, when the top of the stack is an
    object of the store. *)
Lemma observe_start_new d tid timestamp self :
  (forall p, last (stack_of tid self) = Some p -> p < length (heap self)) ->
  heap (observe_start d tid timestamp self) !! length (heap self)
  = Some match last (stack_of tid self) with
         | Some p => set_parent p (TraceNode_init (def_name d) timestamp tid)
         | None => TraceNode_init (def_name d) timestamp tid
         end.
Proof.
  intros Htop. rewrite observe_start_eq. simpl.
  destruct (last (stack_of tid self)) as [p|] eqn:E.
  - specialize (Htop p eq_refl).
    rewrite list_lookup_alter_eq, list_lookup_alter_ne by lia.
    rewrite list_lookup_middle by reflexivity. reflexivity.
  - apply list_lookup_middle. reflexivity.
Qed.

Lemma later_state_refl obj : later_state obj obj.
Proof. repeat split. exists []. rewrite app_nil_r. reflexivity. Qed.

Lemma later_state_trans a b c :
  later_state a b -> later_state b c -> later_state a c.
Proof.
  intros (H1 & H2 & H3 & H4 & m1 & H5) (K1 & K2 & K3 & K4 & m2 & K5).
  repeat split; try congruence.
  exists (m1 ++ m2). rewrite K5, H5, app_assoc. reflexivity.
Qed.

Lemma later_state_observe tid t s self i obj :
  heap self !! i = Some obj ->
  exists obj', heap (observe tid t s self) !! i = Some obj' /\ later_state obj obj'.
Proof.
  intros Hi. destruct s as [d|d]; unfold observe.
  - rewrite observe_start_old by (apply lookup_lt_Some in Hi; exact Hi).
    rewrite Hi. destruct (last (stack_of tid self)) as [p|].
    + destruct (decide (p = i)); simpl; eexists; split; try reflexivity.
      * repeat split. eexists. reflexivity.
      * apply later_state_refl.
    + eexists. split; [reflexivity|apply later_state_refl].
  - destruct (observe_end_cases d tid t self)
      as [->|(below & top & o & _ & _ & _ & ->)].
    + eexists. split; [exact Hi|apply later_state_refl].
    + simpl. rewrite (lookup_alter_Some_rev _ top i _ obj Hi).
      destruct (decide (top = i)); eexists; split; try reflexivity.
      * repeat split. exists []. simpl. rewrite app_nil_r. reflexivity.
      * apply later_state_refl.
Qed.

Lemma later_state_finalize self i obj :
  heap self !! i = Some obj ->
  exists obj', heap (_close_dangling_events self) !! i = Some obj'
               /\ later_state obj obj'.
Proof.
  intros Hi.
  destruct (in_dec Nat.eq_dec i (open_nodes (thread_stacks self))) as [H|H].
  - rewrite finalize_lookup_in, Hi by exact H. simpl.
    eexists. split; [reflexivity|].
    unfold force_close. destruct (end_time obj); [apply later_state_refl|].
    repeat split. exists []. simpl. rewrite app_nil_r. reflexivity.
  - rewrite finalize_lookup_out, Hi by exact H.
    eexists. split; [reflexivity|apply later_state_refl].
Qed.

Lemma roots_grow_observe tid t s self :
  exists more,
    completed_roots (observe tid t s self) = completed_roots self ++ more.
Proof.
  destruct s as [d|d]; unfold observe.
  - exists []. rewrite observe_start_eq, app_nil_r. reflexivity.
  - destruct (observe_end_cases d tid t self)
      as [->|(below & top & o & _ & _ & _ & ->)].
    + exists []. rewrite app_nil_r. reflexivity.
    + simpl. destruct below; [exists [top]|exists []; rewrite app_nil_r]; reflexivity.
Qed.

(** X5: the Forest and the store are append-only.  Whatever the stream,
    and with or without the forced closure, the roots there were stay at
    the front of the Forest in their order, and every node there was is
    still in the store with its name, start, thread and parent, its
    children extended only at the end. *)
Theorem X5_forest_and_store_are_append_only :
  forall (finalized : bool) (sigs : list Delivery) (self : LogProfiler),
    (exists more,
       completed_roots (after_stream finalized sigs self)
       = completed_roots self ++ more)
    /\ (forall i obj, heap self !! i = Some obj ->
          exists obj',
            heap (after_stream finalized sigs self) !! i = Some obj'
            /\ later_state obj obj').
Proof.
  intros finalized sigs self.
  assert (Hstream :
            (exists more,
               completed_roots (observe_all sigs self) = completed_roots self ++ more)
            /\ (forall i obj, heap self !! i = Some obj ->
                  exists obj', heap (observe_all sigs self) !! i = Some obj'
                               /\ later_state obj obj')).
  { revert self. induction sigs as [|[[tid t] s] rest IH]; intros self.
    - split; [exists []; rewrite app_nil_r; reflexivity|].
      intros i obj Hi. exists obj. split; [exact Hi|apply later_state_refl].
    - change (observe_all ((tid, t, s) :: rest) self)
        with (observe_all rest (observe tid t s self)).
      destruct (IH (observe tid t s self)) as [[m2 Hr2] Hh2].
      destruct (roots_grow_observe tid t s self) as [m1 Hr1].
      split.
      + exists (m1 ++ m2). rewrite Hr2, Hr1, app_assoc. reflexivity.
      + intros i obj Hi.
        destruct (later_state_observe tid t s self i obj Hi) as (o1 & Ho1 & Hl1).
        destruct (Hh2 i o1 Ho1) as (o2 & Ho2 & Hl2).
        exists o2. split; [exact Ho2|]. apply (later_state_trans _ o1); assumption. }
  destruct Hstream as [[m Hr] Hh]. unfold after_stream.
  destruct finalized; [|split; [eauto|exact Hh]].
  split.
  - rewrite finalize_roots, Hr. eexists. rewrite <- app_assoc. reflexivity.
  - intros i obj Hi. destruct (Hh i obj Hi) as (o1 & Ho1 & Hl1).
    destruct (later_state_finalize _ i o1 Ho1) as (o2 & Ho2 & Hl2).
    exists o2. split; [exact Ho2|]. apply (later_state_trans _ o1); assumption.
Qed.

(** ** The registry of stacks *)

Lemma dict_get_set_ne {V : Type} (k k' : Z) (v : V) (d : list (Z * V)) :
  k <> k' -> dict_get k' (dict_set k v d) = dict_get k' d.
Proof.
  intros Hne. induction d as [|[k0 w] rest IH]; simpl.
  - destruct (Z.eqb_spec k' k); [congruence|reflexivity].
  - destruct (Z.eqb_spec k k0) as [->|Hk]; simpl.
    + destruct (Z.eqb_spec k' k0); [congruence|reflexivity].
    + destruct (Z.eqb k' k0); [reflexivity|exact IH].
Qed.

Lemma dict_set_keys {V : Type} (k : Z) (v : V) (d : list (Z * V)) :
  map fst (dict_set k v d)
  = match dict_get k d with
    | Some _ => map fst d
    | None => map fst d ++ [k]
    end.
Proof.
  induction d as [|[k0 w] rest IH]; simpl; [reflexivity|].
  destruct (Z.eqb k k0); simpl; [reflexivity|].
  rewrite IH. destruct (dict_get k rest); reflexivity.
Qed.

Lemma observe_other_thread tid tid' t s self :
  tid <> tid' ->
  dict_get tid' (thread_stacks (observe tid t s self))
  = dict_get tid' (thread_stacks self).
Proof.
  intros Hne. destruct s as [d|d]; unfold observe.
  - rewrite observe_start_eq. simpl. apply dict_get_set_ne, Hne.
  - destruct (observe_end_cases d tid t self)
      as [->|(below & top & o & _ & _ & _ & ->)]; [reflexivity|].
    simpl. apply dict_get_set_ne, Hne.
Qed.

(** X6: the signals of other threads never touch a thread's stack: after a
    stream in which no signal is delivered on thread [tid], the stack of
    [tid] is what it was (and a thread without a stack still has none). *)
Theorem X6_other_threads_leave_a_stack_alone :
  forall (sigs : list Delivery) (tid : Z) (self : LogProfiler),
    (forall x, In x sigs -> thread_of x <> tid) ->
    dict_get tid (thread_stacks (observe_all sigs self))
    = dict_get tid (thread_stacks self).
Proof.
  intros sigs tid. induction sigs as [|[[tid0 t] s] rest IH]; intros self Hall.
  - reflexivity.
  - change (observe_all ((tid0, t, s) :: rest) self)
      with (observe_all rest (observe tid0 t s self)).
    rewrite IH by (intros x Hx; apply Hall; right; exact Hx).
    apply observe_other_thread. apply (Hall (tid0, t, s)). left. reflexivity.
Qed.

(** X6, witness: thread 1 has [A] open; thread 2 starts and ends [B]. *)
Lemma X6_witness :
  dict_get 1 (thread_stacks
                (observe_all [(2%Z, 5%Z, StartSignal def_B);
                              (2%Z, 9%Z, EndSignal def_B)]
                   (observe_all [(1%Z, 0%Z, StartSignal def_A)]
                      (fresh [def_A; def_B]))))
  = Some [0].
Proof.
  rewrite (X6_other_threads_leave_a_stack_alone
             [(2%Z, 5%Z, StartSignal def_B); (2%Z, 9%Z, EndSignal def_B)] 1%Z).
  - reflexivity.
  - intros x [<-|[<-|[]]]; discriminate.
Defined.

Lemma dict_get_existsb {V : Type} (k : Z) (d : list (Z * V)) :
  existsb (Z.eqb k) (map fst d)
  = match dict_get k d with
    | Some _ => true
    | None => false
    end.
Proof.
  induction d as [|[k0 w] rest IH]; simpl; [reflexivity|].
  destruct (Z.eqb k k0); [reflexivity|exact IH].
Qed.

Lemma keys_observe tid t s self :
  map fst (thread_stacks (observe tid t s self))
  = map fst (thread_stacks self)
    ++ match s with
       | StartSignal _ =>
           if existsb (Z.eqb tid) (map fst (thread_stacks self))
           then [] else [tid]
       | EndSignal _ => []
       end.
Proof.
  destruct s as [d|d]; unfold observe.
  - rewrite observe_start_eq. simpl. rewrite dict_set_keys, dict_get_existsb.
    destruct (dict_get tid (thread_stacks self));
      [rewrite app_nil_r|]; reflexivity.
  - rewrite app_nil_r.
    destruct (observe_end_cases d tid t self)
      as [->|(below & top & o & Hget & _ & _ & ->)]; [reflexivity|].
    simpl. rewrite dict_set_keys, Hget. reflexivity.
Qed.

(** X7: a thread's stack is created at the thread's first start signal and
    never deleted: after any stream, with or without the forced closure,
    the keys of [thread_stacks] are the keys it had, in the same order,
    followed by the threads of the start signals that found no stack, in the
    order of those signals, each once.  End signals and the forced closure
    create no stack and remove none. *)
Theorem X7_thread_stacks_are_never_deleted :
  forall (finalized : bool) (sigs : list Delivery) (self : LogProfiler),
    map fst (thread_stacks (after_stream finalized sigs self))
    = map fst (thread_stacks self)
      ++ new_threads (map fst (thread_stacks self)) sigs.
Proof.
  intros finalized sigs self.
  assert (Hstream : map fst (thread_stacks (observe_all sigs self))
                    = map fst (thread_stacks self)
                      ++ new_threads (map fst (thread_stacks self)) sigs).
  { revert self. induction sigs as [|[[tid t] s] rest IH]; intros self.
    - simpl. rewrite app_nil_r. reflexivity.
    - change (observe_all ((tid, t, s) :: rest) self)
        with (observe_all rest (observe tid t s self)).
      rewrite IH, keys_observe. simpl. unfold thread_of. simpl.
      destruct s as [d|d].
      + destruct (existsb (Z.eqb tid) (map fst (thread_stacks self))).
        * rewrite app_nil_r. reflexivity.
        * rewrite <- app_assoc. reflexivity.
      + rewrite app_nil_r. reflexivity. }
  unfold after_stream. destruct finalized; [|exact Hstream].
  rewrite finalize_stacks, map_map. simpl. exact Hstream.
Qed.

(** ** Balanced blocks inside a stream *)

(** X8: a block of properly nested pairs delivered on one thread does the
    same in any profiler state, also in the middle of a stream and under
    open nodes: it leaves the thread's stack as it found it, adds one node
    per pair to the store, closes the node of its outermost pair with the
    pair's name and instants, and adds that node to the Forest exactly when
    the thread's stack was empty. *)
Theorem X8_balanced_block_restores_the_stack :
  forall (tid : Z) (c : Call) (self : LogProfiler),
    let self' := observe_all (signals_of tid c) self in
    stack_of tid self' = stack_of tid self
    /\ length (heap self') = length (heap self) + call_count c
    /\ completed_roots self'
       = completed_roots self
         ++ match stack_of tid self with
            | [] => [length (heap self)]
            | _ :: _ => []
            end
    /\ root_of_call tid c (heap self') (length (heap self)).
Proof.
  intros tid c self.
  destruct (balanced_call tid c self) as (_ & Hs & Hr & Hl & _ & Hroot).
  cbv zeta. split; [|tauto].
  unfold stack_of at 1. rewrite Hs, dict_get_set_eq. reflexivity.
Qed.

(** ** The shape of the store *)

Lemma wf_observe tid t s self : wf self -> wf (observe tid t s self).
Proof. destruct s; [apply wf_observe_start|apply wf_observe_end]. Qed.

Lemma wf_after_stream finalized sigs self :
  wf self -> wf (after_stream finalized sigs self).
Proof.
  intros Hwf. unfold after_stream.
  destruct finalized; [apply wf_finalize|]; apply wf_observe_all, Hwf.
Qed.

(** X9: after any stream, with or without the forced closure, every
    reference held by a stack, by the Forest or by a children list points
    to a node of the store, every child was created after its parent (so
    the children lists cannot form a cycle), and every node whose end is
    unset is on a stack. *)
Theorem X9_references_are_valid_and_acyclic :
  forall (finalized : bool) (defs : list EventDef) (sigs : list Delivery),
    let self := after_stream finalized sigs (fresh defs) in
    (forall n, In n (open_nodes (thread_stacks self)) ->
       exists obj, heap self !! n = Some obj)
    /\ (forall r, In r (completed_roots self) ->
          exists obj, heap self !! r = Some obj)
    /\ (forall p op c, heap self !! p = Some op -> In c (children op) ->
          p < c /\ exists oc, heap self !! c = Some oc)
    /\ (forall n obj, heap self !! n = Some obj -> end_time obj = None ->
          In n (open_nodes (thread_stacks self))).
Proof.
  intros finalized defs sigs self.
  assert (Hwf : wf self) by apply wf_after_stream, wf_fresh.
  destruct Hwf as [Hopen Hroots Hchild Hunset].
  split; [|split; [|split]].
  - intros n Hn. apply lookup_lt_is_Some, Hopen, Hn.
  - intros r Hr. apply lookup_lt_is_Some, Hroots, Hr.
  - intros p op c Hp Hc. destruct (Hchild p op c Hp Hc) as [H1 H2].
    split; [exact H1|]. apply lookup_lt_is_Some, H2.
  - exact Hunset.
Qed.

(** ** Parents and children in time and thread *)

Lemma starts_nested_observe now tid t s self :
  wf self -> time_ok now (heap self) -> (now <= t)%Z ->
  starts_nested (heap self) ->
  starts_nested (heap (observe tid t s self)).
Proof.
  intros Hwf Hok Hle Hnest. destruct s as [d|d]; unfold observe.
  - intros p op' c oc' Hp Hc Hoc.
    apply observe_start_lookup in Hp as (op & Hp & _ & Hsp & _ & _ & Hch).
    apply observe_start_lookup in Hoc as (oc & Hoc & _ & Hsc & _ & _ & _).
    rewrite Hsp, Hsc.
    apply lookup_snoc_Some in Hp as [[Hplt Hp]|[-> <-]].
    + assert (Hcase : In c (children op) \/ c = length (heap self)).
      { destruct Hch as [Hch|[_ Hch]]; rewrite Hch in Hc; [tauto|].
        apply in_app_iff in Hc as [Hc|[<-|[]]]; tauto. }
      destruct Hcase as [Hcin | ->].
      * destruct (wf_children _ Hwf _ _ _ Hp Hcin) as [_ Hclt].
        rewrite lookup_app_l in Hoc by exact Hclt.
        apply (Hnest p op c oc); assumption.
      * rewrite list_lookup_middle in Hoc by reflexivity.
        injection Hoc as <-. simpl. destruct (Hok p op Hp). lia.
    + exfalso. destruct Hch as [Hch|[Htop _]].
      * rewrite Hch in Hc. destruct Hc.
      * apply last_Some in Htop as [l' Hl'].
        assert (Hin : In (length (heap self)) (stack_of tid self))
          by (rewrite Hl'; apply in_app_iff; simpl; tauto).
        apply stack_of_open, (wf_open _ Hwf) in Hin. lia.
  - destruct (observe_end_cases d tid t self)
      as [->|(below & top & o & _ & _ & _ & ->)]; [exact Hnest|].
    simpl. intros p op' c oc' Hp Hc Hoc.
    apply lookup_alter_Some in Hp as (op & Hp & Hop).
    apply lookup_alter_Some in Hoc as (oc & Hoc & Hoc').
    assert (start_time op' = start_time op /\ children op' = children op) as [-> Hch]
      by (destruct Hop as [[_ ->]|[_ ->]]; split; reflexivity).
    assert (start_time oc' = start_time oc) as ->
      by (destruct Hoc' as [[_ ->]|[_ ->]]; reflexivity).
    rewrite Hch in Hc. apply (Hnest p op c oc); assumption.
Qed.

Lemma starts_nested_stream sigs now self :
  wf self -> time_ok now (heap self) -> starts_nested (heap self) ->
  Sorted Z.le (now :: map instant_of sigs) ->
  starts_nested (heap (observe_all sigs self)).
Proof.
  revert now self. induction sigs as [|[[tid t] s] rest IH];
    intros now self Hwf Hok Hnest Hs; [exact Hnest|].
  apply Sorted_inv in Hs as [Hs Hhd]. apply HdRel_inv in Hhd.
  change (observe_all ((tid, t, s) :: rest) self)
    with (observe_all rest (observe tid t s self)).
  apply (IH t).
  - apply wf_observe, Hwf.
  - apply (time_ok_observe now); assumption.
  - apply (starts_nested_observe now); assumption.
  - exact Hs.
Qed.

Lemma starts_nested_finalize self :
  starts_nested (heap self) ->
  starts_nested (heap (_close_dangling_events self)).
Proof.
  intros Hnest p op' c oc' Hp Hc Hoc.
  assert (Hsame : forall i o', heap (_close_dangling_events self) !! i = Some o' ->
            exists o, heap self !! i = Some o /\ start_time o' = start_time o
                      /\ children o' = children o /\ thread_id o' = thread_id o).
  { intros i o' Hi.
    apply finalize_lookup_Some in Hi as [[_ Hi]|[_ (o & Hi & ->)]]; [eauto|].
    exists o. unfold force_close. destruct (end_time o); auto. }
  destruct (Hsame _ _ Hp) as (op & Hp' & -> & Hch & _).
  destruct (Hsame _ _ Hoc) as (oc & Hoc' & -> & _).
  rewrite Hch in Hc. apply (Hnest p op c oc); assumption.
Qed.

(** X10: when the instants of a stream are non-decreasing, no node of the
    store starts before its parent, with or without the forced closure. *)
Theorem X10_children_start_after_their_parent :
  forall (finalized : bool) (defs : list EventDef) (sigs : list Delivery),
    Sorted Z.le (map instant_of sigs) ->
    forall p op c oc,
      heap (after_stream finalized sigs (fresh defs)) !! p = Some op ->
      In c (children op) ->
      heap (after_stream finalized sigs (fresh defs)) !! c = Some oc ->
      (start_time op <= start_time oc)%Z.
Proof.
  intros finalized defs sigs Hs.
  assert (Hnest : starts_nested (heap (observe_all sigs (fresh defs)))).
  { destruct sigs as [|x rest]; [intros p op c oc Hp; discriminate Hp|].
    apply (starts_nested_stream (x :: rest) (instant_of x)).
    - apply wf_fresh.
    - intros i obj Hi. discriminate Hi.
    - intros p op c oc Hp. discriminate Hp.
    - constructor; [exact Hs|]. constructor. simpl. lia. }
  unfold after_stream. destruct finalized; [|exact Hnest].
  apply starts_nested_finalize, Hnest.
Qed.

(** X10, witness: [A] from 0 ms with its child [B] from 1 ms. *)
Lemma X10_witness :
  (start_time {| name := "A"; start_time := 0; end_time := Some 0%Z;
                 thread_id := 1; children := [1%nat]; parent := None |}
   <= start_time {| name := "B"; start_time := 1000; end_time := Some 5000%Z;
                    thread_id := 1; children := []; parent := Some 0%nat |})%Z.
Proof.
  refine (X10_children_start_after_their_parent true [def_A; def_B]
            dangling_parent _ 0 _ 1 _ eq_refl _ eq_refl).
  - unfold dangling_parent, instant_of. simpl.
    repeat (apply Sorted_cons || apply Sorted_nil || apply HdRel_cons
            || apply HdRel_nil); lia.
  - left. reflexivity.
Defined.

Lemma stack_of_dict_get tid self n :
  In n (stack_of tid self) ->
  dict_get tid (thread_stacks self) = Some (stack_of tid self).
Proof.
  unfold stack_of. destruct (dict_get tid (thread_stacks self)); simpl; [reflexivity|tauto].
Qed.

Lemma threads_observe tid t s self :
  wf self ->
  stacks_same_thread self /\ children_same_thread (heap self) ->
  stacks_same_thread (observe tid t s self)
  /\ children_same_thread (heap (observe tid t s self)).
Proof.
  intros Hwf [Hst Hch]. destruct s as [d|d]; unfold observe.
  - assert (Hold : forall n o', n < length (heap self) ->
              heap (observe_start d tid t self) !! n = Some o' ->
              exists o, heap self !! n = Some o /\ thread_id o' = thread_id o).
    { intros n o' Hlt Hn.
      apply observe_start_lookup in Hn as (o & Ho & _ & _ & _ & Ht & _).
      rewrite lookup_app_l in Ho by exact Hlt. eauto. }
    assert (Hnew : forall o', heap (observe_start d tid t self) !! length (heap self) = Some o' ->
              thread_id o' = tid).
    { intros o' Hn.
      apply observe_start_lookup in Hn as (o & Ho & _ & _ & _ & Ht & _).
      rewrite list_lookup_middle in Ho by reflexivity. injection Ho as <-. exact Ht. }
    split.
    + intros tid0 stk0 n obj' Hget Hin Hn.
      rewrite observe_start_eq in Hget. simpl in Hget.
      destruct (Z.eq_dec tid tid0) as [<-|Hne].
      * rewrite dict_get_set_eq in Hget. injection Hget as <-.
        apply in_app_iff in Hin as [Hin|[<-|[]]]; [|apply Hnew, Hn].
        pose proof (stack_of_dict_get _ _ _ Hin) as Hget.
        assert (Hlt : n < length (heap self))
          by apply (wf_open _ Hwf), (dict_get_open _ _ _ _ Hget), Hin.
        destruct (Hold n obj' Hlt Hn) as (o & Ho & ->).
        apply (Hst tid _ n o Hget Hin Ho).
      * rewrite dict_get_set_ne in Hget by exact Hne.
        assert (Hlt : n < length (heap self))
          by apply (wf_open _ Hwf), (dict_get_open _ _ _ _ Hget), Hin.
        destruct (Hold n obj' Hlt Hn) as (o & Ho & ->).
        apply (Hst tid0 _ n o Hget Hin Ho).
    + intros p op' c oc' Hp Hc Hoc.
      apply observe_start_lookup in Hp as (op & Hp & _ & _ & _ & Htp & Hchn).
      rewrite Htp.
      apply lookup_snoc_Some in Hp as [[Hplt Hp]|[-> <-]].
      * destruct Hchn as [Hchn|[Htop Hchn]]; rewrite Hchn in Hc.
        -- destruct (wf_children _ Hwf _ _ _ Hp Hc) as [_ Hclt].
           destruct (Hold c oc' Hclt Hoc) as (oc & Hoc' & ->).
           apply (Hch p op c oc); assumption.
        -- apply in_app_iff in Hc as [Hc|[<-|[]]].
           ++ destruct (wf_children _ Hwf _ _ _ Hp Hc) as [_ Hclt].
              destruct (Hold c oc' Hclt Hoc) as (oc & Hoc' & ->).
              apply (Hch p op c oc); assumption.
           ++ rewrite (Hnew oc' Hoc). symmetry.
              apply last_Some in Htop as [l' Hl'].
              assert (Hin : In p (stack_of tid self))
                by (rewrite Hl'; apply in_app_iff; simpl; tauto).
              apply (Hst tid _ p op (stack_of_dict_get _ _ _ Hin) Hin Hp).
      * exfalso. destruct Hchn as [Hchn|[Htop _]].
        -- rewrite Hchn in Hc. destruct Hc.
        -- apply last_Some in Htop as [l' Hl'].
           assert (Hin : In (length (heap self)) (stack_of tid self))
             by (rewrite Hl'; apply in_app_iff; simpl; tauto).
           apply stack_of_open, (wf_open _ Hwf) in Hin. lia.
  - destruct (observe_end_cases d tid t self)
      as [->|(below & top & o & Hget0 & _ & _ & ->)]; [tauto|].
    assert (Hold : forall n o', alter (close t) top (heap self) !! n = Some o' ->
              exists o0, heap self !! n = Some o0 /\ thread_id o' = thread_id o0
                         /\ children o' = children o0).
    { intros n o' Hn. apply lookup_alter_Some in Hn as (o0 & Ho0 & [[_ ->]|[_ ->]]); eauto. }
    split.
    + intros tid0 stk0 n obj' Hget Hin Hn. simpl in Hget, Hn.
      destruct (Hold n obj' Hn) as (o0 & Ho0 & -> & _).
      destruct (Z.eq_dec tid tid0) as [<-|Hne].
      * rewrite dict_get_set_eq in Hget. injection Hget as <-.
        apply (Hst tid _ n o0 Hget0); [apply in_app_iff; tauto|exact Ho0].
      * rewrite dict_get_set_ne in Hget by exact Hne.
        apply (Hst tid0 _ n o0 Hget Hin Ho0).
    + simpl. intros p op' c oc' Hp Hc Hoc.
      destruct (Hold p op' Hp) as (op & Hp' & -> & Hchn).
      destruct (Hold c oc' Hoc) as (oc & Hoc' & -> & _).
      rewrite Hchn in Hc. apply (Hch p op c oc); assumption.
Qed.

Lemma dict_get_emptied (k : Z) (d : list (Z * list nat)) (s : list nat) :
  dict_get k (map (fun e => (fst e, [])) d) = Some s -> s = [].
Proof.
  induction d as [|[k0 w] rest IH]; simpl; [discriminate|].
  destruct (Z.eqb k k0); [intros [= <-]; reflexivity|exact IH].
Qed.

Lemma threads_finalize self :
  stacks_same_thread self /\ children_same_thread (heap self) ->
  stacks_same_thread (_close_dangling_events self)
  /\ children_same_thread (heap (_close_dangling_events self)).
Proof.
  intros [Hst Hch]. split.
  - intros tid stk n obj Hget Hin _.
    rewrite finalize_stacks in Hget. apply dict_get_emptied in Hget. subst stk.
    destruct Hin.
  - intros p op' c oc' Hp Hc Hoc.
    assert (Hsame : forall i o', heap (_close_dangling_events self) !! i = Some o' ->
              exists o, heap self !! i = Some o
                        /\ children o' = children o /\ thread_id o' = thread_id o).
    { intros i o' Hi.
      apply finalize_lookup_Some in Hi as [[_ Hi]|[_ (o & Hi & ->)]]; [eauto|].
      exists o. unfold force_close. destruct (end_time o); auto. }
    destruct (Hsame _ _ Hp) as (op & Hp' & Hchn & ->).
    destruct (Hsame _ _ Hoc) as (oc & Hoc' & _ & ->).
    rewrite Hchn in Hc. apply (Hch p op c oc); assumption.
Qed.

(** X11: threads do not mix.  After any stream, with or without the forced
    closure, every node has the thread of its parent, so a tree of the
    Forest belongs to one thread, and the stack kept for a thread holds
    nodes of that thread only. *)
Theorem X11_trees_and_stacks_belong_to_one_thread :
  forall (finalized : bool) (defs : list EventDef) (sigs : list Delivery),
    let self := after_stream finalized sigs (fresh defs) in
    (forall p op c oc,
       heap self !! p = Some op -> In c (children op) ->
       heap self !! c = Some oc -> thread_id oc = thread_id op)
    /\ (forall tid stk n obj,
          dict_get tid (thread_stacks self) = Some stk -> In n stk ->
          heap self !! n = Some obj -> thread_id obj = tid).
Proof.
  intros finalized defs sigs.
  assert (Hstream : forall self,
            wf self ->
            stacks_same_thread self /\ children_same_thread (heap self) ->
            stacks_same_thread (observe_all sigs self)
            /\ children_same_thread (heap (observe_all sigs self))).
  { induction sigs as [|[[tid t] s] rest IH]; intros self Hwf Hinv; [exact Hinv|].
    change (observe_all ((tid, t, s) :: rest) self)
      with (observe_all rest (observe tid t s self)).
    apply IH; [apply wf_observe, Hwf|apply threads_observe; assumption]. }
  specialize (Hstream (fresh defs) (wf_fresh defs)).
  destruct Hstream as [Hst Hch].
  { split.
    - intros tid stk n obj Hget. discriminate Hget.
    - intros p op c oc Hp. discriminate Hp. }
  cbv zeta. unfold after_stream. destruct finalized.
  - destruct (threads_finalize _ (conj Hst Hch)) as [Hst' Hch'].
    split; [exact Hch'|exact Hst'].
  - split; [exact Hch|exact Hst].
Qed.

(** ** The two renderers side by side *)

Lemma mapM_renderers_agree (f : nat -> option (list ReportLine))
    (g : nat -> option (list TraceEvent)) (cs : list nat) :
  (forall c, renderers_agree (f c) (g c)) ->
  match mapM f cs, mapM g cs with
  | Some per_line, Some per_ev =>
      length (concat per_ev) = 2 * length (concat per_line)
  | None, None => True
  | _, _ => False
  end.
Proof.
  intros Hfg. induction cs as [|c rest IH]; simpl; [reflexivity|].
  specialize (Hfg c). unfold renderers_agree in Hfg.
  destruct (f c) as [a|], (g c) as [b|]; simpl; try contradiction; [|exact I].
  destruct (mapM f rest) as [A|], (mapM g rest) as [B|]; simpl;
    try contradiction; [|exact I].
  rewrite !length_app. lia.
Qed.

Lemma node_renderers_agree fuel self node level pid :
  renderers_agree (_print_node_recursive fuel self node level)
    (to_chrome_trace_events fuel (heap self) node pid).
Proof.
  revert node level. induction fuel as [|fuel IH]; intros node level; simpl; [exact I|].
  destruct (heap self !! node) as [obj|]; [|exact I].
  pose proof (mapM_renderers_agree
                (fun child => _print_node_recursive fuel self child (S level))
                (fun child => to_chrome_trace_events fuel (heap self) child pid)
                (children obj) (fun c => IH c (S level))) as H.
  destruct (mapM _ (children obj)) as [A|], (mapM _ (children obj)) as [B|];
    simpl; try contradiction; [|exact I].
  rewrite length_app. simpl. lia.
Qed.

(** X12: the text report and the trace export walk the same nodes.  On
    every profiler state either both come back or neither does, and the
    trace then has exactly two records for every entry of the report; after
    any stream, with or without the forced closure, the report comes
    back. *)
Theorem X12_report_and_trace_cover_the_same_nodes :
  (forall self : LogProfiler,
     renderers_agree (print_text_report self) (export_chrome_trace self))
  /\ (forall (finalized : bool) (defs : list EventDef) (sigs : list Delivery),
        exists lines,
          print_text_report (after_stream finalized sigs (fresh defs))
          = Some lines).
Proof.
  assert (Hagree : forall self : LogProfiler,
            renderers_agree (print_text_report self) (export_chrome_trace self)).
  { intros self. unfold print_text_report, export_chrome_trace.
    pose proof (mapM_renderers_agree
                  (fun root => _print_node_recursive (length (heap self)) self root 0)
                  (fun root => to_chrome_trace_events (length (heap self))
                                 (heap self) root 1%Z)
                  (completed_roots self)
                  (fun c => node_renderers_agree _ self c 0 1%Z)) as H.
    destruct (mapM _ (completed_roots self)) as [A|],
             (mapM _ (completed_roots self)) as [B|]; simpl; tauto. }
  split; [exact Hagree|].
  intros finalized defs sigs.
  specialize (Hagree (after_stream finalized sigs (fresh defs))).
  destruct (export_chrome_trace_total (after_stream finalized sigs (fresh defs)))
    as [evs Hevs]; [apply wf_after_stream, wf_fresh|].
  rewrite Hevs in Hagree. unfold renderers_agree in Hagree.
  destruct (print_text_report _) as [lines|]; [eauto|contradiction].
Qed.

Lemma well_bracketed_children (fuel : nat) (h : list TraceNode) (pid : Z)
    (cs : list nat) (sub : list (list TraceEvent)) :
  (forall n evs, to_chrome_trace_events fuel h n pid = Some evs ->
     forall opened rest,
       well_bracketed opened (evs ++ rest) = well_bracketed opened rest) ->
  Forall2 (fun c s => to_chrome_trace_events fuel h c pid = Some s) cs sub ->
  forall opened rest,
    well_bracketed opened (concat sub ++ rest) = well_bracketed opened rest.
Proof.
  intros IH. induction 1 as [|c s cs sub Hs _ IHsub]; intros opened rest; simpl.
  - reflexivity.
  - rewrite <- app_assoc, (IH c s Hs). apply IHsub.
Qed.

Lemma well_bracketed_node (fuel : nat) (h : list TraceNode) (pid : Z) :
  forall n evs, to_chrome_trace_events fuel h n pid = Some evs ->
    forall opened rest,
      well_bracketed opened (evs ++ rest) = well_bracketed opened rest.
Proof.
  induction fuel as [|fuel IH]; intros n evs; simpl; [discriminate|].
  destruct (h !! n) as [obj|]; [|discriminate].
  destruct (mapM _ (children obj)) as [sub|] eqn:Hsub; [|discriminate].
  intros [= <-] opened rest. apply mapM_Some_1 in Hsub.
  simpl. rewrite <- app_assoc.
  rewrite (well_bracketed_children fuel h pid _ _ IH Hsub).
  simpl. rewrite String.eqb_refl, Z.eqb_refl. reflexivity.
Qed.

(** X13: the exported trace is well bracketed.  After any stream, with or
    without the forced closure, a reader that keeps a stack of open slices
    finds that every end record closes the innermost open begin record and
    carries its name and thread, and that no slice is left open. *)
Theorem X13_exported_trace_is_well_bracketed :
  forall (finalized : bool) (defs : list EventDef) (sigs : list Delivery),
    exists evs,
      export_chrome_trace (after_stream finalized sigs (fresh defs)) = Some evs
      /\ well_bracketed [] evs = true.
Proof.
  intros finalized defs sigs.
  set (self := after_stream finalized sigs (fresh defs)).
  destruct (export_chrome_trace_total self) as [evs Hevs];
    [apply wf_after_stream, wf_fresh|].
  exists evs. split; [exact Hevs|].
  unfold export_chrome_trace in Hevs.
  destruct (mapM _ (completed_roots self)) as [per_root|] eqn:Hroots; [|discriminate].
  injection Hevs as <-. apply mapM_Some_1 in Hroots.
  rewrite <- (app_nil_r (concat per_root)).
  rewrite (well_bracketed_children _ _ _ _ _
             (well_bracketed_node _ _ _) Hroots).
  reflexivity.
Qed.

(** ** Stacks, parents and the Forest *)

Lemma dict_get_In {V : Type} (k : Z) (v : V) (d : list (Z * V)) :
  dict_get k d = Some v -> In (k, v) d.
Proof.
  induction d as [|[k0 w] rest IH]; simpl; [discriminate|].
  destruct (Z.eqb_spec k k0) as [->|_].
  - intros [= ->]. left. reflexivity.
  - intros H. right. apply IH, H.
Qed.

(** Assigning to a key replaces one entry in place, or appends one. *)
Lemma dict_set_split (k : Z) (d : list (Z * list nat)) :
  exists A B,
    (forall e, In e d ->
       In e A \/ e = (k, default [] (dict_get k d)) \/ In e B)
    /\ (forall e, In e A \/ In e B -> In e d)
    /\ open_nodes d
       = open_nodes A ++ default [] (dict_get k d) ++ open_nodes B
    /\ forall v, dict_set k v d = A ++ (k, v) :: B.
Proof.
  unfold open_nodes. induction d as [|[k0 w] rest IH]; simpl.
  - exists [], []. simpl. repeat split; try tauto; intros e [[]|[]].
  - destruct (Z.eqb_spec k k0) as [->|Hne].
    + exists [], rest. simpl. repeat split; try tauto;
        intros e [[]|H]; tauto.
    + destruct IH as (A & B & H1 & H2 & H3 & H4).
      exists ((k0, w) :: A), B. simpl. split; [|split; [|split]].
      * intros e [<-|He]; [tauto|]. destruct (H1 e He) as [?|[?|?]]; tauto.
      * intros e [[<-|He]|He]; [tauto| |]; right; apply H2; tauto.
      * rewrite H3, <- app_assoc. reflexivity.
      * intros v. rewrite H4. reflexivity.
Qed.

Lemma open_nodes_app A B : open_nodes (A ++ B) = open_nodes A ++ open_nodes B.
Proof. unfold open_nodes. rewrite map_app, concat_app. reflexivity. Qed.

Lemma open_nodes_entry (e : Z * list nat) d n :
  In e d -> In n (snd e) -> In n (open_nodes d).
Proof.
  unfold open_nodes. induction d as [|e0 rest IH]; simpl; [tauto|].
  rewrite in_app_iff. intros [->|He] Hn; auto.
Qed.

Lemma open_nodes_In d n :
  In n (open_nodes d) -> exists e, In e d /\ In n (snd e).
Proof.
  unfold open_nodes. induction d as [|e0 rest IH]; simpl; [tauto|].
  rewrite in_app_iff. intros [H|H].
  - exists e0. tauto.
  - destruct (IH H) as (e & He & Hn). exists e. tauto.
Qed.

Lemma NoDup_open_entry d (e : Z * list nat) :
  NoDup (open_nodes d) -> In e d -> NoDup (snd e).
Proof.
  unfold open_nodes. induction d as [|e0 rest IH]; simpl; [tauto|].
  intros Hnd [->|He].
  - apply NoDup_app in Hnd. tauto.
  - apply IH; [|exact He]. apply NoDup_app in Hnd. tauto.
Qed.

Lemma NoDup_open_same d (e1 e2 : Z * list nat) (x : nat) :
  NoDup (open_nodes d) -> In e1 d -> In e2 d ->
  In x (snd e1) -> In x (snd e2) -> snd e1 = snd e2.
Proof.
  unfold open_nodes. induction d as [|e0 rest IH]; simpl; [tauto|].
  intros Hnd H1 H2 Hx1 Hx2. apply NoDup_app in Hnd as (_ & Hdis & Hrest).
  destruct H1 as [->|H1], H2 as [->|H2]; [reflexivity| | |apply IH; assumption];
    exfalso.
  - apply (Hdis x); [apply list_elem_of_In, Hx1|].
    apply list_elem_of_In, (open_nodes_entry e2 rest); assumption.
  - apply (Hdis x); [apply list_elem_of_In, Hx2|].
    apply list_elem_of_In, (open_nodes_entry e1 rest); assumption.
Qed.

Lemma push_permutation (a s b : list nat) (n : nat) :
  Permutation.Permutation (n :: a ++ s ++ b) (a ++ (s ++ [n]) ++ b).
Proof.
  rewrite <- (app_assoc s [n] b). simpl.
  rewrite !app_assoc. apply Permutation.Permutation_middle.
Qed.

Lemma NoDup_push (a s b : list nat) (n : nat) :
  NoDup (a ++ s ++ b) -> ~ In n (a ++ s ++ b) ->
  NoDup (a ++ (s ++ [n]) ++ b).
Proof.
  intros Hnd Hn. rewrite <- push_permutation.
  apply NoDup_cons. split; [|exact Hnd].
  intros Hin. apply Hn, list_elem_of_In, Hin.
Qed.

Lemma NoDup_pop (a s b : list nat) (n : nat) :
  NoDup (a ++ (s ++ [n]) ++ b) ->
  NoDup (a ++ s ++ b) /\ ~ In n (a ++ s ++ b).
Proof.
  rewrite <- push_permutation. intros H.
  apply NoDup_cons in H as [Hn H]. split; [exact H|].
  intros Hin. apply Hn, list_elem_of_In, Hin.
Qed.

Lemma open_nodes_cons (e : Z * list nat) B :
  open_nodes (e :: B) = snd e ++ open_nodes B.
Proof. reflexivity. Qed.

Lemma top_in_store tid self p :
  wf self -> last (stack_of tid self) = Some p -> p < length (heap self).
Proof.
  intros Hwf Hp. apply (wf_open _ Hwf), (stack_of_open _ tid).
  apply last_Some in Hp as [l' ->]. apply in_app_iff. simpl. tauto.
Qed.

Lemma start_index_cases d tid t self i obj' :
  heap (observe_start d tid t self) !! i = Some obj' ->
  i < length (heap self) \/ i = length (heap self).
Proof.
  intros H. apply lookup_lt_Some in H. rewrite observe_start_length in H. lia.
Qed.

(** The fields of an old object after [observe_start]. *)
Lemma start_old_fields d tid t self i obj' :
  i < length (heap self) ->
  heap (observe_start d tid t self) !! i = Some obj' ->
  exists obj,
    heap self !! i = Some obj
    /\ parent obj' = parent obj /\ end_time obj' = end_time obj
    /\ start_time obj' = start_time obj
    /\ ((last (stack_of tid self) = Some i
         /\ children obj' = children obj ++ [length (heap self)])
        \/ (last (stack_of tid self) <> Some i
            /\ children obj' = children obj)).
Proof.
  intros Hlt. rewrite observe_start_old by exact Hlt.
  destruct (last (stack_of tid self)) as [p|].
  - destruct (decide (p = i)) as [->|Hne].
    + intros H. apply fmap_Some in H as (obj & Hobj & ->).
      exists obj. simpl. tauto.
    + intros H. exists obj'. repeat split; try assumption.
      right. split; [congruence|reflexivity].
  - intros H. exists obj'. repeat split; try assumption.
    right. split; [discriminate|reflexivity].
Qed.

(** The fields of the new object. *)
Lemma start_new_fields d tid t self obj' :
  wf self ->
  heap (observe_start d tid t self) !! length (heap self) = Some obj' ->
  parent obj' = last (stack_of tid self)
  /\ end_time obj' = None /\ children obj' = []
  /\ start_time obj' = t.
Proof.
  intros Hwf. rewrite observe_start_new by (intros p; apply top_in_store, Hwf).
  intros [= <-]. destruct (last (stack_of tid self)); simpl; tauto.
Qed.

(** An old object is still there, with at least its children, and the top
    of the stack has the new node as a child. *)
Lemma start_fwd_fields d tid t self i obj :
  heap self !! i = Some obj ->
  exists obj',
    heap (observe_start d tid t self) !! i = Some obj'
    /\ (forall c, In c (children obj) -> In c (children obj'))
    /\ (last (stack_of tid self) = Some i ->
        In (length (heap self)) (children obj')).
Proof.
  intros Hi. rewrite observe_start_old by (apply lookup_lt_Some in Hi; exact Hi).
  rewrite Hi. destruct (last (stack_of tid self)) as [p|].
  - destruct (decide (p = i)) as [->|Hne]; simpl; eexists; split; try reflexivity.
    + simpl. split; intros; apply in_app_iff; simpl; tauto.
    + split; [tauto|]. intros [= ->]. contradiction.
  - eexists. split; [reflexivity|]. split; [tauto|discriminate].
Qed.

Lemma path_top_parent (stk : list nat) (n : nat) :
  match length stk with
  | 0 => None
  | S k' => (stk ++ [n]) !! k'
  end = last stk.
Proof.
  destruct (last stk) as [p|] eqn:E.
  - apply last_Some in E as [l' ->].
    rewrite length_app. simpl. rewrite Nat.add_1_r.
    rewrite lookup_app_l by (rewrite length_app; simpl; lia).
    apply list_lookup_middle. reflexivity.
  - apply last_None in E. subst stk. reflexivity.
Qed.

Lemma shape_observe_start d tid t self :
  wf self -> shape self -> shape (observe_start d tid t self).
Proof.
  intros Hwf Hsh.
  set (n := length (heap self)).
  set (stk := stack_of tid self).
  destruct (dict_set_split tid (thread_stacks self)) as (A & B & H1 & H2 & H3 & H4).
  fold (stack_of tid self) in H1, H3. fold stk in H1, H3.
  assert (Hstacks : thread_stacks (observe_start d tid t self)
                    = A ++ (tid, stk ++ [n]) :: B).
  { rewrite observe_start_eq. simpl. apply H4. }
  assert (Hfresh : ~ In n (open_nodes (thread_stacks self))).
  { intros Hin. apply (wf_open _ Hwf) in Hin. exact (Nat.lt_irrefl _ Hin). }
  assert (Hopen' : forall x, In x (open_nodes (thread_stacks (observe_start d tid t self)))
                             -> In x (open_nodes (thread_stacks self)) \/ x = n).
  { intros x. rewrite Hstacks, open_nodes_app, open_nodes_cons, H3. simpl.
    rewrite !in_app_iff. simpl. intuition. }
  assert (Hstk_entry : forall x, In x stk -> In (tid, stk) (thread_stacks self)).
  { intros x Hx. apply dict_get_In. apply (stack_of_dict_get _ _ _ Hx). }
  assert (Holdopen : forall x, In x (open_nodes (thread_stacks self)) -> x < n).
  { intros x Hx. apply (wf_open _ Hwf), Hx. }
  assert (Hentry' : forall e, In e (thread_stacks (observe_start d tid t self)) ->
                              In e (thread_stacks self) \/ e = (tid, stk ++ [n])).
  { intros e. rewrite Hstacks, in_app_iff. simpl.
    intros [He|[<-|He]]; [left; apply H2| |left; apply H2]; tauto. }
  destruct Hsh as [Hnd Hop Hpath Hpar Hchild Hcnd Hroots Hrnd Hpless HK].
  split.
  - (* sh_nodup *)
    rewrite Hstacks, open_nodes_app, open_nodes_cons. simpl.
    apply NoDup_push; rewrite <- H3; assumption.
  - (* sh_open *)
    intros x obj' Hx Hobj'. destruct (Hopen' x Hx) as [Hold| ->].
    + destruct (start_old_fields _ _ _ _ _ _ (Holdopen x Hold) Hobj')
        as (obj & Hobj & _ & -> & _).
      apply (Hop x obj Hold Hobj).
    + apply (start_new_fields _ _ _ _ _ Hwf Hobj').
  - (* sh_path *)
    intros e He k x obj' Hk Hobj'. destruct (Hentry' e He) as [Hold| ->].
    + assert (Hx : x < n).
      { apply Holdopen, (open_nodes_entry e); [exact Hold|].
        apply list_elem_of_In, list_elem_of_lookup. eauto. }
      destruct (start_old_fields _ _ _ _ _ _ Hx Hobj') as (obj & Hobj & -> & _).
      apply (Hpath e Hold k x obj Hk Hobj).
    + simpl in Hk |- *. apply lookup_snoc_Some in Hk as [[Hklt Hk]|[-> <-]].
      * assert (Hxin : In x stk)
          by (apply list_elem_of_In, list_elem_of_lookup; eauto).
        assert (Hx : x < n)
          by (apply Holdopen, (open_nodes_entry (tid, stk)); [apply (Hstk_entry x)|]; assumption).
        destruct (start_old_fields _ _ _ _ _ _ Hx Hobj') as (obj & Hobj & -> & _).
        rewrite (Hpath (tid, stk) (Hstk_entry x Hxin) k x obj Hk Hobj).
        destruct k as [|k']; [reflexivity|].
        symmetry. apply lookup_app_l. exact (Nat.lt_succ_l _ _ Hklt).
      * destruct (start_new_fields _ _ _ _ _ Hwf Hobj') as (-> & _).
        symmetry. apply path_top_parent.
  - (* sh_parent *)
    intros c oc' p Hc Hp. destruct (start_index_cases _ _ _ _ _ _ Hc) as [Hlt| ->].
    + destruct (start_old_fields _ _ _ _ _ _ Hlt Hc) as (oc & Hoc & Hpo & _).
      rewrite Hpo in Hp. destruct (Hpar c oc p Hoc Hp) as (op & Hop' & Hin).
      destruct (start_fwd_fields d tid t self p op Hop') as (op' & Hop'' & Hsub & _).
      exists op'. split; [exact Hop''|apply Hsub, Hin].
    + destruct (start_new_fields _ _ _ _ _ Hwf Hc) as (Hpo & _).
      rewrite Hpo in Hp.
      pose proof (top_in_store _ _ _ Hwf Hp) as Hplt.
      apply lookup_lt_is_Some in Hplt as [op Hop'].
      destruct (start_fwd_fields d tid t self p op Hop') as (op' & Hop'' & _ & Htop).
      exists op'. split; [exact Hop''|apply Htop, Hp].
  - (* sh_child *)
    intros p op' c oc' Hp Hc Hoc.
    assert (Holdchild : forall op, heap self !! p = Some op -> In c (children op) ->
                                   parent oc' = Some p).
    { intros op Hop' Hin.
      destruct (wf_children _ Hwf _ _ _ Hop' Hin) as [_ Hclt].
      destruct (start_old_fields _ _ _ _ _ _ Hclt Hoc) as (oc & Hoc' & -> & _).
      apply (Hchild p op c oc); assumption. }
    destruct (start_index_cases _ _ _ _ _ _ Hp) as [Hlt| ->].
    + destruct (start_old_fields _ _ _ _ _ _ Hlt Hp)
        as (op & Hop' & _ & _ & _ & [[Htop Hch]|[_ Hch]]); rewrite Hch in Hc.
      * apply in_app_iff in Hc as [Hc|[<-|[]]]; [apply (Holdchild op); assumption|].
        destruct (start_new_fields _ _ _ _ _ Hwf Hoc) as (-> & _). exact Htop.
      * apply (Holdchild op); assumption.
    + destruct (start_new_fields _ _ _ _ _ Hwf Hp) as (_ & _ & Hch & _).
      rewrite Hch in Hc. destruct Hc.
  - (* sh_children_nodup *)
    intros p op' Hp. destruct (start_index_cases _ _ _ _ _ _ Hp) as [Hlt| ->].
    + destruct (start_old_fields _ _ _ _ _ _ Hlt Hp)
        as (op & Hop' & _ & _ & _ & [[_ Hch]|[_ Hch]]); rewrite Hch.
      * apply NoDup_app. split; [apply (Hcnd p op Hop')|].
        split; [|apply NoDup_singleton].
        intros x Hx Hxn. apply list_elem_of_In in Hx.
        apply list_elem_of_In in Hxn. destruct Hxn as [<-|[]].
        destruct (wf_children _ Hwf _ _ _ Hop' Hx) as [_ Hxlt].
        exact (Nat.lt_irrefl _ Hxlt).
      * apply (Hcnd p op Hop').
    + destruct (start_new_fields _ _ _ _ _ Hwf Hp) as (_ & _ & -> & _).
      apply NoDup_nil_2.
  - (* sh_roots *)
    intros r obj' Hr Hobj'. rewrite observe_start_eq in Hr. simpl in Hr.
    destruct (start_old_fields _ _ _ _ _ _ (wf_roots _ Hwf r Hr) Hobj')
      as (obj & Hobj & -> & -> & _).
    apply (Hroots r obj Hr Hobj).
  - (* sh_roots_nodup *)
    rewrite observe_start_eq. simpl. exact Hrnd.
  - (* sh_parentless *)
    intros x obj' Hobj' Hpn Hend. rewrite observe_start_eq. simpl.
    destruct (start_index_cases _ _ _ _ _ _ Hobj') as [Hlt| ->].
    + destruct (start_old_fields _ _ _ _ _ _ Hlt Hobj') as (obj & Hobj & Hp & He & _).
      rewrite Hp in Hpn. rewrite He in Hend. apply (Hpless x obj); assumption.
    + destruct (start_new_fields _ _ _ _ _ Hwf Hobj') as (_ & He & _). congruence.
  - (* sh_closed_children *)
    intros p op' c oc' Hp Hend Hc Hoc.
    destruct (start_index_cases _ _ _ _ _ _ Hp) as [Hlt| ->].
    + destruct (start_old_fields _ _ _ _ _ _ Hlt Hp)
        as (op & Hop' & _ & He & _ & [[Htop Hch]|[_ Hch]]); rewrite He in Hend.
      * exfalso. apply Hend. apply (Hop p op); [|exact Hop'].
        apply (stack_of_open _ tid). apply last_Some in Htop as [l' Hl'].
        rewrite Hl'. apply in_app_iff. simpl. tauto.
      * rewrite Hch in Hc.
        destruct (wf_children _ Hwf _ _ _ Hop' Hc) as [_ Hclt].
        destruct (start_old_fields _ _ _ _ _ _ Hclt Hoc) as (oc & Hoc' & _ & -> & _).
        apply (HK p op c oc); assumption.
    + destruct (start_new_fields _ _ _ _ _ Hwf Hp) as (_ & He & _). congruence.
Qed.

(** The fields of an object after the top node [top] was closed. *)
Lemma end_fields (t : Z) (top : nat) (h : list TraceNode) i obj' :
  alter (close t) top h !! i = Some obj' ->
  exists obj,
    h !! i = Some obj
    /\ parent obj' = parent obj /\ children obj' = children obj
    /\ start_time obj' = start_time obj
    /\ ((i = top /\ end_time obj' = Some t)
        \/ (i <> top /\ end_time obj' = end_time obj)).
Proof.
  intros H. apply lookup_alter_Some in H as (obj & Hobj & [[Hne ->]|[-> ->]]);
    exists obj; simpl; repeat split; auto.
Qed.

Lemma end_fwd_fields (t : Z) (top : nat) (h : list TraceNode) i obj :
  h !! i = Some obj ->
  exists obj',
    alter (close t) top h !! i = Some obj'
    /\ children obj' = children obj /\ parent obj' = parent obj.
Proof.
  intros H. rewrite (lookup_alter_Some_rev _ top i h obj H).
  destruct (decide (top = i)); eexists; split; try reflexivity; split; reflexivity.
Qed.

(** The children of the top of a stack are closed: an open child would sit
    on the stack just above its parent. *)
Lemma top_children_closed self tid below top op c oc :
  wf self -> shape self ->
  dict_get tid (thread_stacks self) = Some (below ++ [top]) ->
  heap self !! top = Some op -> In c (children op) ->
  heap self !! c = Some oc -> end_time oc <> None.
Proof.
  intros Hwf Hsh Hget Htop Hc Hoc Hend.
  pose proof (wf_unset _ Hwf c oc Hoc Hend) as Hopen.
  apply open_nodes_In in Hopen as (e & He & Hce).
  apply list_elem_of_In, list_elem_of_lookup in Hce as [j Hj].
  pose proof (sh_child _ Hsh top op c oc Htop Hc Hoc) as Hpar.
  rewrite (sh_path _ Hsh e He j c oc Hj Hoc) in Hpar.
  destruct j as [|j']; [discriminate|].
  assert (Hsame : snd e = below ++ [top]).
  { apply (NoDup_open_same (thread_stacks self) e (tid, below ++ [top]) top).
    - apply (sh_nodup _ Hsh).
    - exact He.
    - apply dict_get_In, Hget.
    - apply list_elem_of_In, list_elem_of_lookup. eauto.
    - simpl. apply in_app_iff. simpl. tauto. }
  rewrite Hsame in Hj, Hpar.
  assert (Hnd : NoDup (below ++ [top])).
  { apply (NoDup_open_entry (thread_stacks self) (tid, below ++ [top]));
      [apply (sh_nodup _ Hsh)|apply dict_get_In, Hget]. }
  assert (Hj' : j' = length below).
  { apply (NoDup_lookup _ _ _ top Hnd Hpar). apply list_lookup_middle. reflexivity. }
  subst j'. apply lookup_lt_Some in Hj. rewrite length_app in Hj. simpl in Hj. lia.
Qed.

Lemma shape_observe_end d tid t self :
  wf self -> shape self -> shape (observe_end d tid t self).
Proof.
  intros Hwf Hsh.
  destruct (observe_end_cases d tid t self)
    as [->|(below & top & otop & Hget & Htop & Hname & ->)]; [exact Hsh|].
  destruct (dict_set_split tid (thread_stacks self)) as (A & B & H1 & H2 & H3 & H4).
  rewrite Hget in H1, H3. simpl in H1, H3.
  pose proof (fun c oc => top_children_closed self tid below top otop c oc
                          Hwf Hsh Hget Htop) as Htopch.
  assert (Hentry_top : In (tid, below ++ [top]) (thread_stacks self))
    by apply dict_get_In, Hget.
  destruct Hsh as [Hnd Hop Hpath Hpar Hchild Hcnd Hroots Hrnd Hpless HK].
  rewrite H3 in Hnd. apply NoDup_pop in Hnd as [Hnd' Htopout].
  assert (Hopen' : forall x, In x (open_nodes (A ++ (tid, below) :: B)) ->
                             In x (open_nodes (thread_stacks self)) /\ x <> top).
  { intros x. rewrite open_nodes_app, open_nodes_cons. simpl. intros Hx. split.
    - rewrite H3, !in_app_iff in *. tauto.
    - intros ->. apply Htopout, Hx. }
  assert (Htop_open : In top (open_nodes (thread_stacks self))).
  { rewrite H3, !in_app_iff. simpl. tauto. }
  assert (Hroots_incl : forall r, In r (completed_roots self) ->
            In r match below with
                 | [] => completed_roots self ++ [top]
                 | _ :: _ => completed_roots self
                 end).
  { intros r Hr. destruct below; [apply in_app_iff|]; tauto. }
  split; simpl; rewrite ?H4.
  - (* sh_nodup *)
    rewrite open_nodes_app, open_nodes_cons. exact Hnd'.
  - (* sh_open *)
    intros x obj' Hx Hobj'. destruct (Hopen' x Hx) as [Hold Hne].
    destruct (end_fields _ _ _ _ _ Hobj') as (obj & Hobj & _ & _ & _ & [[? _]|[_ ->]]);
      [contradiction|].
    apply (Hop x obj Hold Hobj).
  - (* sh_path *)
    intros e He k x obj' Hk Hobj'.
    destruct (end_fields _ _ _ _ _ Hobj') as (obj & Hobj & -> & _).
    apply in_app_iff in He as [He|[<-|He]].
    + apply (Hpath e (H2 e (or_introl He)) k x obj Hk Hobj).
    + simpl in Hk |- *.
      rewrite (Hpath _ Hentry_top k x obj (lookup_app_l_Some _ _ _ _ Hk) Hobj).
      destruct k as [|k']; [reflexivity|].
      apply lookup_app_l. apply lookup_lt_Some in Hk. lia.
    + apply (Hpath e (H2 e (or_intror He)) k x obj Hk Hobj).
  - (* sh_parent *)
    intros c oc' p Hc Hp.
    destruct (end_fields _ _ _ _ _ Hc) as (oc & Hoc & Hpo & _).
    rewrite Hpo in Hp. destruct (Hpar c oc p Hoc Hp) as (op & Hop' & Hin).
    destruct (end_fwd_fields t top _ p op Hop') as (op' & Hop'' & Hch & _).
    exists op'. split; [exact Hop''|rewrite Hch; exact Hin].
  - (* sh_child *)
    intros p op' c oc' Hp Hc Hoc.
    destruct (end_fields _ _ _ _ _ Hp) as (op & Hop' & _ & Hch & _).
    destruct (end_fields _ _ _ _ _ Hoc) as (oc & Hoc' & -> & _).
    rewrite Hch in Hc. apply (Hchild p op c oc); assumption.
  - (* sh_children_nodup *)
    intros p op' Hp.
    destruct (end_fields _ _ _ _ _ Hp) as (op & Hop' & _ & -> & _).
    apply (Hcnd p op Hop').
  - (* sh_roots *)
    intros r obj' Hr Hobj'.
    destruct (end_fields _ _ _ _ _ Hobj') as (obj & Hobj & -> & _ & _ & Hend).
    assert (Hcase : In r (completed_roots self) \/ (below = [] /\ r = top)).
    { destruct below; [|tauto]. apply in_app_iff in Hr as [Hr|[<-|[]]]; tauto. }
    destruct Hcase as [Hold|[-> ->]].
    + destruct (Hroots r obj Hold Hobj) as [Hp He]. split; [exact Hp|].
      destruct Hend as [[_ ->]|[_ ->]]; [discriminate|exact He].
    + split.
      * apply (Hpath _ Hentry_top 0 top obj); [reflexivity|exact Hobj].
      * destruct Hend as [[_ ->]|[Hne _]]; [discriminate|contradiction].
  - (* sh_roots_nodup *)
    destruct below; [|exact Hrnd].
    apply NoDup_app. split; [exact Hrnd|]. split; [|apply NoDup_singleton].
    intros x Hx Hxt. apply list_elem_of_In in Hx.
    apply list_elem_of_In in Hxt. destruct Hxt as [<-|[]].
    destruct (Hroots _ otop Hx Htop) as [_ He]. apply He.
    apply (Hop top otop Htop_open Htop).
  - (* sh_parentless *)
    intros x obj' Hobj' Hpn Hend.
    destruct (end_fields _ _ _ _ _ Hobj') as (obj & Hobj & Hp & _ & _ & Hcase).
    rewrite Hp in Hpn. destruct Hcase as [[-> _]|[_ He]].
    + pose proof (Hpath _ Hentry_top (length below) top obj
                    (list_lookup_middle _ _ _ _ eq_refl) Hobj) as Hpp.
      rewrite Hpn in Hpp. destruct below as [|b l].
      * apply in_app_iff. simpl. tauto.
      * exfalso. simpl in Hpp.
        assert (Hlt : length l < length ((b :: l) ++ [top]))
          by (rewrite length_app; simpl; lia).
        apply lookup_lt_is_Some in Hlt as [y Hy]. simpl in Hy. congruence.
    + rewrite He in Hend. apply Hroots_incl, (Hpless x obj); assumption.
  - (* sh_closed_children *)
    intros p op' c oc' Hp Hend Hc Hoc.
    destruct (end_fields _ _ _ _ _ Hp) as (op & Hop' & _ & Hch & _ & Hpc).
    destruct (end_fields _ _ _ _ _ Hoc) as (oc & Hoc' & _ & _ & _ & Hcc).
    rewrite Hch in Hc.
    destruct Hcc as [[_ ->]|[_ ->]]; [discriminate|].
    destruct Hpc as [[-> _]|[_ He]].
    + rewrite Htop in Hop'. injection Hop' as <-. apply (Htopch c oc); assumption.
    + rewrite He in Hend. apply (HK p op c oc); assumption.
Qed.

Lemma bottoms_In d r :
  In r (bottoms d) -> exists e, In e d /\ snd e !! 0 = Some r.
Proof.
  unfold bottoms. induction d as [|e0 rest IH]; simpl; [tauto|].
  rewrite in_app_iff. intros [H|H].
  - exists e0. split; [tauto|]. destruct (snd e0) as [|b l]; [destruct H|].
    destruct H as [<-|[]]. reflexivity.
  - destruct (IH H) as (e & He & Hr). exists e. tauto.
Qed.

Lemma In_bottoms d (e : Z * list nat) r :
  In e d -> snd e !! 0 = Some r -> In r (bottoms d).
Proof.
  unfold bottoms. induction d as [|e0 rest IH]; simpl; [tauto|].
  rewrite in_app_iff. intros [->|He] Hr.
  - left. destruct (snd e) as [|b l]; [discriminate|].
    injection Hr as <-. left. reflexivity.
  - right. apply IH; assumption.
Qed.

Lemma NoDup_bottoms d : NoDup (open_nodes d) -> NoDup (bottoms d).
Proof.
  induction d as [|e0 rest IH]; [intros _; apply NoDup_nil_2|].
  rewrite open_nodes_cons. intros Hnd.
  apply NoDup_app in Hnd as (Hhead & Hdis & Hrest).
  change (bottoms (e0 :: rest))
    with (match snd e0 with [] => [] | b :: _ => [b] end ++ bottoms rest).
  destruct (snd e0) as [|b l]; simpl; [apply IH, Hrest|].
  apply NoDup_cons. split; [|apply IH, Hrest].
  intros Hb. apply (Hdis b); [left|].
  apply list_elem_of_In, bottoms_open, list_elem_of_In, Hb.
Qed.

(** The fields of an object after [_close_dangling_events]. *)
Lemma finalize_fields self i obj' :
  heap (_close_dangling_events self) !! i = Some obj' ->
  exists obj,
    heap self !! i = Some obj
    /\ parent obj' = parent obj /\ children obj' = children obj
    /\ start_time obj' = start_time obj
    /\ ((~ In i (open_nodes (thread_stacks self)) /\ obj' = obj)
        \/ (In i (open_nodes (thread_stacks self)) /\ obj' = force_close obj)).
Proof.
  intros H. apply finalize_lookup_Some in H as [[Hout H]|[Hin (obj & H & ->)]].
  - exists obj'. tauto.
  - exists obj. unfold force_close. destruct (end_time obj); simpl; tauto.
Qed.

Lemma finalize_fwd_fields self i obj :
  heap self !! i = Some obj ->
  exists obj',
    heap (_close_dangling_events self) !! i = Some obj'
    /\ children obj' = children obj /\ parent obj' = parent obj.
Proof.
  intros H. destruct (later_state_finalize self i obj H) as (obj' & Hobj' & Hl).
  exists obj'. split; [exact Hobj'|].
  destruct (finalize_fields _ _ _ Hobj') as (o & Ho & Hp & Hc & _).
  rewrite H in Ho. injection Ho as <-. tauto.
Qed.

Lemma shape_fresh defs : shape (fresh defs).
Proof.
  split; simpl; try (intros; discriminate); try tauto; try apply NoDup_nil_2.
Qed.

Lemma shape_finalize self :
  wf self -> shape self -> shape (_close_dangling_events self).
Proof.
  intros Hwf Hsh.
  destruct Hsh as [Hnd Hop Hpath Hpar Hchild Hcnd Hroots Hrnd Hpless HK].
  split.
  - rewrite finalize_stacks, open_nodes_emptied. apply NoDup_nil_2.
  - intros n obj Hn. rewrite finalize_stacks, open_nodes_emptied in Hn. destruct Hn.
  - intros e He k n obj Hk _. rewrite finalize_stacks in He.
    apply in_map_iff in He as (e0 & <- & _). discriminate Hk.
  - intros c oc' p Hc Hp.
    destruct (finalize_fields _ _ _ Hc) as (oc & Hoc & Hpo & _).
    rewrite Hpo in Hp. destruct (Hpar c oc p Hoc Hp) as (op & Hop' & Hin).
    destruct (finalize_fwd_fields self p op Hop') as (op' & Hop'' & Hch & _).
    exists op'. split; [exact Hop''|rewrite Hch; exact Hin].
  - intros p op' c oc' Hp Hc Hoc.
    destruct (finalize_fields _ _ _ Hp) as (op & Hop' & _ & Hch & _).
    destruct (finalize_fields _ _ _ Hoc) as (oc & Hoc' & -> & _).
    rewrite Hch in Hc. apply (Hchild p op c oc); assumption.
  - intros p op' Hp.
    destruct (finalize_fields _ _ _ Hp) as (op & Hop' & _ & -> & _).
    apply (Hcnd p op Hop').
  - intros r obj' Hr Hobj'.
    destruct (finalize_all_closed _ _ _ Hwf Hobj') as [e He].
    split; [|congruence].
    destruct (finalize_fields _ _ _ Hobj') as (obj & Hobj & -> & _).
    rewrite finalize_roots in Hr. apply in_app_iff in Hr as [Hr|Hr].
    + apply (Hroots r obj Hr Hobj).
    + apply bottoms_In in Hr as (e0 & He0 & Hr0).
      apply (Hpath e0 He0 0 r obj Hr0 Hobj).
  - rewrite finalize_roots. apply NoDup_app.
    split; [exact Hrnd|]. split; [|apply NoDup_bottoms, Hnd].
    intros x Hx Hb. apply list_elem_of_In in Hx.
    apply list_elem_of_In, bottoms_open in Hb.
    pose proof (wf_roots _ Hwf x Hx) as Hlt.
    apply lookup_lt_is_Some in Hlt as [obj Hobj].
    destruct (Hroots x obj Hx Hobj) as [_ He]. apply He, (Hop x obj Hb Hobj).
  - intros x obj' Hobj' Hpn Hend. rewrite finalize_roots. apply in_app_iff.
    destruct (finalize_fields _ _ _ Hobj') as (obj & Hobj & Hp & _ & _ & Hcase).
    rewrite Hp in Hpn. destruct Hcase as [[_ ->]|[Hin _]].
    + left. apply (Hpless x obj); assumption.
    + right. apply open_nodes_In in Hin as (e0 & He0 & Hx).
      apply list_elem_of_In, list_elem_of_lookup in Hx as [j Hj].
      pose proof (Hpath e0 He0 j x obj Hj Hobj) as Hpp. rewrite Hpn in Hpp.
      destruct j as [|j']; [apply (In_bottoms _ e0); assumption|].
      exfalso. assert (Hlt : j' < length (snd e0))
        by (apply lookup_lt_Some in Hj; lia).
      apply lookup_lt_is_Some in Hlt as [y Hy]. congruence.
  - intros p op' c oc' _ _ _ Hoc.
    destruct (finalize_all_closed _ _ _ Hwf Hoc) as [e He]. congruence.
Qed.

Lemma shape_after_stream finalized sigs self :
  wf self -> shape self -> shape (after_stream finalized sigs self).
Proof.
  intros Hwf Hsh.
  assert (H : wf (observe_all sigs self) /\ shape (observe_all sigs self)).
  { revert self Hwf Hsh. induction sigs as [|[[tid t] s] rest IH];
      intros self Hwf Hsh; [tauto|].
    change (observe_all ((tid, t, s) :: rest) self)
      with (observe_all rest (observe tid t s self)).
    apply IH; [apply wf_observe, Hwf|].
    destruct s; [apply shape_observe_start|apply shape_observe_end]; assumption. }
  unfold after_stream. destruct finalized; [|tauto].
  apply shape_finalize; tauto.
Qed.

(** X14: parent links and children lists tell the same tree.  After any
    stream, with or without the forced closure: a node that names a parent
    is listed among that parent's children; a node listed among the
    children of another names it as its parent, so no node has two parents;
    no children list names a node twice; and every thread's stack is a path
    of the tree, from a parentless bottom node up through child after
    child. *)
Theorem X14_parent_links_and_children_lists_agree :
  forall (finalized : bool) (defs : list EventDef) (sigs : list Delivery),
    let self := after_stream finalized sigs (fresh defs) in
    (forall c oc p,
       heap self !! c = Some oc -> parent oc = Some p ->
       exists op, heap self !! p = Some op /\ In c (children op))
    /\ (forall p op c oc,
          heap self !! p = Some op -> In c (children op) ->
          heap self !! c = Some oc -> parent oc = Some p)
    /\ (forall p op, heap self !! p = Some op -> NoDup (children op))
    /\ (forall e, In e (thread_stacks self) ->
          stack_is_path (heap self) (snd e)).
Proof.
  intros finalized defs sigs self.
  assert (Hsh : shape self)
    by (apply shape_after_stream; [apply wf_fresh|apply shape_fresh]).
  split; [apply (sh_parent _ Hsh)|].
  split; [apply (sh_child _ Hsh)|].
  split; [apply (sh_children_nodup _ Hsh)|apply (sh_path _ Hsh)].
Qed.

(** X15: the roots of the Forest are exactly the closed nodes without a
    parent, each listed once.  After any stream, with or without the forced
    closure, a node of the store is in [completed_roots] if and only if its
    end is set and it has no parent. *)
Theorem X15_roots_are_the_closed_parentless_nodes :
  forall (finalized : bool) (defs : list EventDef) (sigs : list Delivery),
    let self := after_stream finalized sigs (fresh defs) in
    NoDup (completed_roots self)
    /\ forall n obj, heap self !! n = Some obj ->
         (In n (completed_roots self)
          <-> parent obj = None /\ end_time obj <> None).
Proof.
  intros finalized defs sigs self.
  assert (Hsh : shape self)
    by (apply shape_after_stream; [apply wf_fresh|apply shape_fresh]).
  split; [apply (sh_roots_nodup _ Hsh)|].
  intros n obj Hobj. split.
  - intros Hr. apply (sh_roots _ Hsh n obj Hr Hobj).
  - intros [Hp He]. apply (sh_parentless _ Hsh n obj); assumption.
Qed.

(** X16: the stacks hold exactly the open nodes.  After any stream, with
    or without the forced closure, a node of the store is on a stack if and
    only if its end is unset, and no node is on two stacks or twice on
    one. *)
Theorem X16_stacks_hold_exactly_the_open_nodes :
  forall (finalized : bool) (defs : list EventDef) (sigs : list Delivery),
    let self := after_stream finalized sigs (fresh defs) in
    NoDup (open_nodes (thread_stacks self))
    /\ forall n obj, heap self !! n = Some obj ->
         (In n (open_nodes (thread_stacks self)) <-> end_time obj = None).
Proof.
  intros finalized defs sigs self.
  assert (Hwf : wf self) by apply wf_after_stream, wf_fresh.
  assert (Hsh : shape self)
    by (apply shape_after_stream; [apply wf_fresh|apply shape_fresh]).
  split; [apply (sh_nodup _ Hsh)|].
  intros n obj Hobj. split.
  - intros Hn. apply (sh_open _ Hsh n obj Hn Hobj).
  - apply (wf_unset _ Hwf n obj Hobj).
Qed.

Lemma descendant_snoc h r p c :
  descendant h r p -> child_of h p c -> descendant h r c.
Proof.
  induction 1 as [r p Hrp|r x p Hrx _ IH]; intros Hpc.
  - apply (desc_step h r p c Hrp). apply desc_child, Hpc.
  - apply (desc_step h r x c Hrx). apply IH, Hpc.
Qed.

Lemma all_nodes_in_forest self :
  wf self -> shape self ->
  (forall n obj, heap self !! n = Some obj -> end_time obj <> None) ->
  forall n obj, heap self !! n = Some obj -> in_forest self n.
Proof.
  intros Hwf Hsh Hclosed n.
  induction n as [n IH] using lt_wf_ind. intros obj Hobj.
  destruct (parent obj) as [p|] eqn:Hp.
  - destruct (sh_parent _ Hsh n obj p Hobj Hp) as (op & Hop & Hin).
    destruct (wf_children _ Hwf p op n Hop Hin) as [Hlt _].
    destruct (IH p Hlt op Hop) as (r & Hr & Hcase).
    assert (Hchild : child_of (heap self) p n) by (exists op; tauto).
    exists r. split; [exact Hr|]. right.
    destruct Hcase as [->|Hd]; [apply desc_child, Hchild|].
    apply (descendant_snoc _ r p n Hd Hchild).
  - exists n. split; [|left; reflexivity].
    apply (sh_parentless _ Hsh n obj Hobj Hp), (Hclosed n obj Hobj).
Qed.

(** X17: the forced closure loses no node.  After a stream followed by
    [_close_dangling_events], every node of the store, that is, the node of
    every start signal of the stream, is in the Forest. *)
Theorem X17_after_forced_closure_every_node_is_in_the_forest :
  forall (defs : list EventDef) (sigs : list Delivery) (n : nat),
    n < count_starts sigs ->
    in_forest (after_stream true sigs (fresh defs)) n.
Proof.
  intros defs sigs n Hn.
  set (self := after_stream true sigs (fresh defs)).
  assert (Hwf0 : wf (observe_all sigs (fresh defs))) by apply wf_observe_all, wf_fresh.
  assert (Hwf : wf self) by apply wf_after_stream, wf_fresh.
  assert (Hsh : shape self)
    by (apply shape_after_stream; [apply wf_fresh|apply shape_fresh]).
  assert (Hlen : length (heap self) = count_starts sigs).
  { unfold self, after_stream.
    rewrite finalize_length, observe_all_length. reflexivity. }
  rewrite <- Hlen in Hn. apply lookup_lt_is_Some in Hn as [obj Hobj].
  apply (all_nodes_in_forest self Hwf Hsh) with (obj := obj); [|exact Hobj].
  intros m o Ho. destruct (finalize_all_closed _ _ _ Hwf0 Ho) as [e He]. congruence.
Qed.

(** X17, witness: the stream that leaves [A] open above its closed child
    has two start signals; the child, node 1, is in the Forest. *)
Lemma X17_witness :
  in_forest (after_stream true dangling_parent (fresh [def_A; def_B])) 1.
Proof.
  apply X17_after_forced_closure_every_node_is_in_the_forest.
  simpl. lia.
Defined.

Lemma frozen_observe tid t s self i obj :
  shape self ->
  heap self !! i = Some obj -> end_time obj <> None ->
  heap (observe tid t s self) !! i = Some obj.
Proof.
  intros Hsh Hi Hend. destruct s as [d|d]; unfold observe.
  - rewrite observe_start_old by (apply lookup_lt_Some in Hi; exact Hi).
    destruct (last (stack_of tid self)) as [p|] eqn:E; [|exact Hi].
    destruct (decide (p = i)) as [->|_]; [|exact Hi].
    exfalso. apply Hend, (sh_open _ Hsh i obj); [|exact Hi].
    apply (stack_of_open _ tid). apply last_Some in E as [l' ->].
    apply in_app_iff. simpl. tauto.
  - destruct (observe_end_cases d tid t self)
      as [->|(below & top & otop & Hget & Htop & _ & ->)]; [exact Hi|].
    simpl. rewrite list_lookup_alter_ne; [exact Hi|].
    intros ->. apply Hend, (sh_open _ Hsh i obj); [|exact Hi].
    apply (dict_get_open _ _ _ _ Hget), in_app_iff. simpl. tauto.
Qed.

Lemma frozen_after_stream finalized sigs self i obj :
  wf self -> shape self ->
  heap self !! i = Some obj -> end_time obj <> None ->
  heap (after_stream finalized sigs self) !! i = Some obj.
Proof.
  intros Hwf Hsh Hi Hend.
  assert (H : wf (observe_all sigs self) /\ shape (observe_all sigs self)
              /\ heap (observe_all sigs self) !! i = Some obj).
  { revert self Hwf Hsh Hi. induction sigs as [|[[tid t] s] rest IH];
      intros self Hwf Hsh Hi; [tauto|].
    change (observe_all ((tid, t, s) :: rest) self)
      with (observe_all rest (observe tid t s self)).
    apply IH.
    - apply wf_observe, Hwf.
    - destruct s; [apply shape_observe_start|apply shape_observe_end]; assumption.
    - apply frozen_observe; assumption. }
  destruct H as (Hwf' & Hsh' & Hi').
  unfold after_stream. destruct finalized; [|exact Hi'].
  rewrite finalize_lookup_out; [exact Hi'|].
  intros Hin. apply Hend, (sh_open _ Hsh' i obj Hin Hi').
Qed.

(** X18: a closed node is never mutated again.  A node whose end is set
    at some point of a stream is found unchanged, with the same end, the
    same children and the same parent, after any continuation of the
    stream, with or without the forced closure. *)
Theorem X18_closed_nodes_are_never_mutated_again :
  forall (finalized : bool) (defs : list EventDef)
         (sigs more : list Delivery) (i : nat) (obj : TraceNode),
    heap (observe_all sigs (fresh defs)) !! i = Some obj ->
    end_time obj <> None ->
    heap (after_stream finalized (sigs ++ more) (fresh defs)) !! i = Some obj.
Proof.
  intros finalized defs sigs more i obj Hi Hend.
  assert (Heq : after_stream finalized (sigs ++ more) (fresh defs)
                = after_stream finalized more (observe_all sigs (fresh defs))).
  { unfold after_stream. rewrite observe_all_app. reflexivity. }
  rewrite Heq. apply frozen_after_stream; try assumption.
  - apply wf_observe_all, wf_fresh.
  - apply (shape_after_stream false); [apply wf_fresh|apply shape_fresh].
Qed.

(** X18, witness: [B], closed at 5 ms under the open [A], is the same
    object after the forced closure. *)
Lemma X18_witness :
  heap (after_stream true (dangling_parent ++ []) (fresh [def_A; def_B])) !! 1
  = Some {| name := "B"; start_time := 1000; end_time := Some 5000%Z;
            thread_id := 1; children := []; parent := Some 0 |}.
Proof.
  apply X18_closed_nodes_are_never_mutated_again; [reflexivity|discriminate].
Defined.

(** ** Children in sequence *)

Lemma seq_close (h h' : list TraceNode) (x : nat) (t : Z) (cs : list nat)
    (lo hi hi' : Z) :
  (forall c oc, In c cs -> h !! c = Some oc ->
     exists oc',
       h' !! c = Some oc' /\ start_time oc' = start_time oc
       /\ ((c = x /\ end_time oc = None /\ end_time oc' = Some t
            /\ (start_time oc <= t)%Z)
           \/ end_time oc' = end_time oc)) ->
  (hi <= hi')%Z ->
  (In x cs -> (t <= hi')%Z) ->
  children_in_sequence h lo cs hi -> children_in_sequence h' lo cs hi'.
Proof.
  intros Hag Hhi. revert lo Hag.
  induction cs as [|c rest IH]; intros lo Hag Hx; simpl; [lia|].
  intros (oc & Hoc & Hlo & Hm).
  destruct (Hag c oc (or_introl eq_refl) Hoc) as (oc' & Hoc' & Hs & Hcase).
  exists oc'. split; [exact Hoc'|]. rewrite Hs. split; [exact Hlo|].
  assert (Hrest : forall lo', children_in_sequence h lo' rest hi ->
                              children_in_sequence h' lo' rest hi').
  { intros lo'. apply IH.
    - intros c0 oc0 Hc0. apply Hag. right. exact Hc0.
    - intros Hin. apply Hx. right. exact Hin. }
  destruct Hcase as [(-> & Hnone & -> & Ht) | ->].
  - rewrite Hnone in Hm. destruct Hm as [-> _]. split; [exact Ht|].
    simpl. apply Hx. left. reflexivity.
  - destruct (end_time oc) as [e|].
    + destruct Hm as [He Hm]. split; [exact He|apply Hrest, Hm].
    + destruct Hm as [-> Hm]. split; [reflexivity|lia].
Qed.

Lemma seq_same (h h' : list TraceNode) (cs : list nat) (lo hi hi' : Z) :
  (forall c oc, In c cs -> h !! c = Some oc ->
     exists oc',
       h' !! c = Some oc' /\ start_time oc' = start_time oc
       /\ end_time oc' = end_time oc) ->
  (hi <= hi')%Z ->
  children_in_sequence h lo cs hi -> children_in_sequence h' lo cs hi'.
Proof.
  intros Hag Hhi.
  assert (Hcs : forall c, In c cs -> c < S (list_max cs)).
  { intros c Hc. pose proof (proj1 (list_max_le cs (list_max cs)) (le_n _)) as Hall.
    rewrite List.Forall_forall in Hall. specialize (Hall c Hc). lia. }
  apply (seq_close h h' (S (list_max cs)) hi').
  - intros c oc Hc Hoc. destruct (Hag c oc Hc Hoc) as (oc' & H1 & H2 & H3).
    exists oc'. tauto.
  - exact Hhi.
  - intros Hin. apply Hcs in Hin. lia.
Qed.

Lemma seq_append (h h' : list TraceNode) (n : nat) (on : TraceNode) (t : Z)
    (cs : list nat) (lo hi hi' : Z) :
  (forall c oc, In c cs -> h !! c = Some oc ->
     end_time oc <> None
     /\ exists oc',
          h' !! c = Some oc' /\ start_time oc' = start_time oc
          /\ end_time oc' = end_time oc) ->
  children_in_sequence h lo cs hi ->
  (hi <= t)%Z ->
  h' !! n = Some on -> start_time on = t -> end_time on = None ->
  (t <= hi')%Z ->
  children_in_sequence h' lo (cs ++ [n]) hi'.
Proof.
  intros Hag Hseq Hhi Hn Hsn Hen Ht. revert lo Hag Hseq.
  induction cs as [|c rest IH]; intros lo Hag; simpl.
  - intros Hlo. exists on. rewrite Hsn, Hen. repeat split; try assumption; lia.
  - intros (oc & Hoc & Hlo & Hm).
    destruct (Hag c oc (or_introl eq_refl) Hoc) as (Hclosed & oc' & Hoc' & Hs & He).
    exists oc'. rewrite Hs, He. split; [exact Hoc'|]. split; [exact Hlo|].
    destruct (end_time oc) as [e|]; [|contradiction].
    destruct Hm as [Hse Hm]. split; [exact Hse|].
    apply IH; [|exact Hm]. intros c0 oc0 Hc0. apply Hag. right. exact Hc0.
Qed.

Lemma seq_span (h : list TraceNode) (cs : list nat) (lo hi : Z) :
  children_in_sequence h lo cs hi -> (lo + span_sum h cs <= hi)%Z.
Proof.
  revert lo. induction cs as [|c rest IH]; intros lo; simpl; [lia|].
  intros (oc & Hoc & Hlo & Hm). unfold span_us at 1. rewrite Hoc.
  destruct (end_time oc) as [e|].
  - destruct Hm as [He Hm]. specialize (IH e Hm). lia.
  - destruct Hm as [-> Hm]. simpl. lia.
Qed.

Lemma sequenced_observe now tid t s self :
  wf self -> shape self -> time_ok now (heap self) -> (now <= t)%Z ->
  sequenced now (heap self) ->
  sequenced t (heap (observe tid t s self)).
Proof.
  intros Hwf Hsh Hok Hle Hseq. destruct s as [d|d]; unfold observe.
  - (* a start signal *)
    assert (Hagree : forall p op c oc,
              heap self !! p = Some op -> In c (children op) ->
              heap self !! c = Some oc ->
              exists oc', heap (observe_start d tid t self) !! c = Some oc'
                          /\ start_time oc' = start_time oc
                          /\ end_time oc' = end_time oc).
    { intros p op c oc Hp Hc Hoc.
      destruct (start_fwd_fields d tid t self c oc Hoc) as (oc' & Hoc' & _).
      exists oc'. split; [exact Hoc'|].
      destruct (start_old_fields _ _ _ _ _ _ (lookup_lt_Some _ _ _ Hoc) Hoc')
        as (oc0 & Hoc0 & _ & He & Hs & _).
      rewrite Hoc in Hoc0. injection Hoc0 as <-. tauto. }
    intros p op' Hp. destruct (start_index_cases _ _ _ _ _ _ Hp) as [Hlt| ->].
    + destruct (start_old_fields _ _ _ _ _ _ Hlt Hp)
        as (op & Hop & _ & He & Hs & [[Htop Hch]|[_ Hch]]);
        rewrite Hch, Hs, He; specialize (Hseq p op Hop).
      * assert (Hin : In p (stack_of tid self)).
        { apply last_Some in Htop as [l' ->]. apply in_app_iff. simpl. tauto. }
        assert (Hopen : end_time op = None).
        { apply (sh_open _ Hsh p op); [apply (stack_of_open _ tid), Hin|exact Hop]. }
        rewrite Hopen in Hseq |- *. simpl in Hseq |- *.
        assert (Hnew : is_Some (heap (observe_start d tid t self) !! length (heap self))).
        { apply lookup_lt_is_Some. rewrite observe_start_length. lia. }
        destruct Hnew as [on Hon].
        destruct (start_new_fields _ _ _ _ _ Hwf Hon) as (_ & Hen & _ & Hsn).
        apply (seq_append (heap self) _ _ on t _ _ now); try assumption; [|lia].
        intros c oc Hc Hoc. split; [|apply (Hagree p op); assumption].
        pose proof (stack_of_dict_get _ _ _ Hin) as Hget.
        apply last_Some in Htop as [l' Hl']. rewrite Hl' in Hget.
        apply (top_children_closed self tid l' p op c oc); assumption.
      * apply (seq_same (heap self) _ _ _ (default now (end_time op))).
        -- intros c oc Hc Hoc. apply (Hagree p op); assumption.
        -- destruct (end_time op); simpl; lia.
        -- exact Hseq.
    + destruct (start_new_fields _ _ _ _ _ Hwf Hp) as (_ & -> & -> & ->).
      simpl. lia.
  - (* an end signal *)
    destruct (observe_end_cases d tid t self)
      as [->|(below & top & otop & Hget & Htop & _ & ->)].
    + intros p op Hp. specialize (Hseq p op Hp).
      apply (seq_same (heap self) _ _ _ (default now (end_time op))); [| |exact Hseq].
      * intros c oc _ Hoc. exists oc. tauto.
      * destruct (end_time op); simpl; lia.
    + simpl. intros p op' Hp.
      assert (Htop_open : In top (open_nodes (thread_stacks self))).
      { apply (dict_get_open _ _ _ _ Hget), in_app_iff. simpl. tauto. }
      pose proof (sh_open _ Hsh top otop Htop_open Htop) as Hopen.
      destruct (end_fields _ _ _ _ _ Hp) as (op & Hop & _ & Hch & Hs & Hcase).
      rewrite Hch, Hs. specialize (Hseq p op Hop).
      apply (seq_close (heap self) _ top t _ _ (default now (end_time op))).
      * intros c oc _ Hoc.
        destruct (end_fwd_fields t top (heap self) c oc Hoc) as (oc' & Hoc' & _).
        exists oc'. split; [exact Hoc'|].
        destruct (end_fields _ _ _ _ _ Hoc') as (oc0 & Hoc0 & _ & _ & Hs0 & Hc0).
        rewrite Hoc in Hoc0. injection Hoc0 as <-. split; [exact Hs0|].
        destruct Hc0 as [[-> He0]|[_ He0]]; [left|right; exact He0].
        rewrite Htop in Hoc. injection Hoc as <-.
        destruct (Hok top otop Htop) as [Hst _]. repeat split; try assumption. lia.
      * destruct Hcase as [[-> ->]|[_ ->]].
        -- rewrite Htop in Hop. injection Hop as <-. rewrite Hopen. simpl. lia.
        -- destruct (end_time op); simpl; lia.
      * intros Hin. destruct Hcase as [[_ ->]|[_ ->]]; [simpl; lia|].
        destruct (end_time op) as [e|] eqn:Ee; [|simpl; lia].
        exfalso.
        apply (sh_closed_children _ Hsh p op top otop Hop); try assumption.
        congruence.
      * exact Hseq.
Qed.

Lemma sequenced_stream sigs now self :
  wf self -> shape self -> time_ok now (heap self) ->
  sequenced now (heap self) ->
  Sorted Z.le (now :: map instant_of sigs) ->
  exists now', sequenced now' (heap (observe_all sigs self)).
Proof.
  revert now self. induction sigs as [|[[tid t] s] rest IH];
    intros now self Hwf Hsh Hok Hseq Hs; [eauto|].
  apply Sorted_inv in Hs as [Hs Hhd]. apply HdRel_inv in Hhd.
  change (observe_all ((tid, t, s) :: rest) self)
    with (observe_all rest (observe tid t s self)).
  apply (IH t).
  - apply wf_observe, Hwf.
  - destruct s; [apply shape_observe_start|apply shape_observe_end]; assumption.
  - apply (time_ok_observe now); assumption.
  - apply (sequenced_observe now); assumption.
  - exact Hs.
Qed.

Lemma sequenced_reachable defs sigs :
  Sorted Z.le (map instant_of sigs) ->
  exists now, sequenced now (heap (observe_all sigs (fresh defs))).
Proof.
  intros Hs. destruct sigs as [|x rest].
  - exists 0%Z. intros p op Hp. discriminate Hp.
  - apply (sequenced_stream (x :: rest) (instant_of x)).
    + apply wf_fresh.
    + apply shape_fresh.
    + intros i obj Hi. discriminate Hi.
    + intros p op Hp. discriminate Hp.
    + constructor; [exact Hs|]. constructor. simpl. lia.
Qed.

(** ** Durations as sums of microseconds *)

Lemma duration_of_span (h : list TraceNode) (c : nat) :
  (duration_of h c == Qmake (span_us h c) 1000)%Q.
Proof.
  unfold duration_of, span_us, duration_ms.
  destruct (h !! c) as [oc|]; simpl; [|reflexivity].
  destruct (end_time oc); reflexivity.
Qed.

Lemma child_duration_span (h : list TraceNode) (obj : TraceNode) :
  (child_duration h obj == Qmake (span_sum h (children obj)) 1000)%Q.
Proof.
  unfold child_duration, span_sum.
  induction (children obj) as [|c rest IH]; simpl; [reflexivity|].
  rewrite IH, duration_of_span. unfold Qeq, Qplus. simpl. lia.
Qed.

Lemma conservation_of_closed (h : list TraceNode) (obj : TraceNode) (now : Z) :
  children_in_sequence h (start_time obj) (children obj)
    (default now (end_time obj)) ->
  end_time obj <> None ->
  (self_time_ms h obj + child_duration h obj == duration_ms obj)%Q.
Proof.
  intros Hseq Hend. apply seq_span in Hseq.
  assert (Hle : (child_duration h obj <= duration_ms obj)%Q).
  { rewrite child_duration_span. unfold duration_ms.
    destruct (end_time obj) as [e|]; [|contradiction].
    simpl in Hseq. unfold Qle. simpl. lia. }
  destruct (self_time_ms_cases h obj) as [[_ Hs]|[Hlt _]]; lra.
Qed.

Lemma child_duration_ext (h h' : list TraceNode) (obj : TraceNode) :
  (forall c, In c (children obj) -> h' !! c = h !! c) ->
  child_duration h' obj = child_duration h obj.
Proof.
  intros Hsame. unfold child_duration. f_equal. apply map_ext_in.
  intros c Hc. unfold duration_of. rewrite (Hsame c Hc). reflexivity.
Qed.

(** X19: self-time conservation holds for the nodes a stream closes itself.
    When the instants of the stream are non-decreasing, every node whose end
    was set by its own end signal keeps, with or without the forced closure
    that follows, [selfTime + sum of the children's durations = duration]:
    its children ran one after the other inside it. *)
Theorem X19_conservation_for_nodes_closed_by_their_end_signal :
  forall (finalized : bool) (defs : list EventDef) (sigs : list Delivery)
         (p : nat) (op : TraceNode),
    Sorted Z.le (map instant_of sigs) ->
    heap (observe_all sigs (fresh defs)) !! p = Some op ->
    end_time op <> None ->
    let self := after_stream finalized sigs (fresh defs) in
    heap self !! p = Some op
    /\ (self_time_ms (heap self) op + child_duration (heap self) op
        == duration_ms op)%Q.
Proof.
  intros finalized defs sigs p op Hs Hp Hend self.
  set (self0 := observe_all sigs (fresh defs)) in *.
  assert (Hwf : wf self0) by apply wf_observe_all, wf_fresh.
  assert (Hsh : shape self0)
    by (apply (shape_after_stream false); [apply wf_fresh|apply shape_fresh]).
  assert (Hself : self = after_stream finalized [] self0) by reflexivity.
  assert (Hfrozen : forall i obj, heap self0 !! i = Some obj ->
                      end_time obj <> None -> heap self !! i = Some obj).
  { intros i obj Hi He. rewrite Hself. apply frozen_after_stream; assumption. }
  split; [apply Hfrozen; assumption|].
  destruct (sequenced_reachable defs sigs Hs) as [now Hseq].
  assert (Hchildren : forall c, In c (children op) ->
                        heap self !! c = heap self0 !! c).
  { intros c Hc. destruct (wf_children _ Hwf p op c Hp Hc) as [_ Hlt].
    apply lookup_lt_is_Some in Hlt as [oc Hoc]. rewrite Hoc.
    apply Hfrozen; [exact Hoc|].
    apply (sh_closed_children _ Hsh p op c oc); assumption. }
  unfold self_time_ms. rewrite (child_duration_ext _ _ _ Hchildren).
  apply (conservation_of_closed (heap self0) op now (Hseq p op Hp) Hend).
Qed.

(** X19, witness: [A] from 0 to 10 ms with its child [B] from 1 to 5 ms. *)
Lemma X19_witness :
  let sigs := [(1%Z, 0%Z, StartSignal def_A); (1%Z, 1000%Z, StartSignal def_B);
               (1%Z, 5000%Z, EndSignal def_B); (1%Z, 10000%Z, EndSignal def_A)] in
  let self := after_stream true sigs (fresh [def_A; def_B]) in
  let a := {| name := "A"; start_time := 0; end_time := Some 10000%Z;
              thread_id := 1; children := [1]; parent := None |} in
  heap self !! 0 = Some a
  /\ (self_time_ms (heap self) a + child_duration (heap self) a
      == duration_ms a)%Q.
Proof.
  cbv zeta.
  apply (X19_conservation_for_nodes_closed_by_their_end_signal true
           [def_A; def_B] _ 0).
  - unfold instant_of. simpl.
    repeat (apply Sorted_cons || apply Sorted_nil || apply HdRel_cons
            || apply HdRel_nil); lia.
  - reflexivity.
  - discriminate.
Defined.

(** ** Lines that match nothing *)

(** X20: a line that matches no start pattern and no end pattern of any
    configured event is ignored: [_check_events] returns the profiler as it
    was. *)
Theorem X20_unmatched_line_is_ignored :
  forall (self : LogProfiler) (tid timestamp : Z) (message : string),
    (forall d, In d (event_defs self) ->
       start_re d message = false /\ end_re d message = false) ->
    _check_events tid timestamp message self = self.
Proof.
  intros self tid timestamp message. unfold _check_events.
  induction (event_defs self) as [|d rest IH]; intros Hall; simpl; [reflexivity|].
  destruct (Hall d (or_introl eq_refl)) as [-> ->].
  apply IH. intros d' Hd'. apply Hall. right. exact Hd'.
Qed.

(** X20, witness: thread 1 has [A] open and a line about something else
    arrives. *)
Lemma X20_witness :
  let self := observe_all [(1%Z, 0%Z, StartSignal def_A)] (fresh [def_A; def_B]) in
  _check_events 1 7000 "GC freed 1024 objects" self = self.
Proof.
  cbv zeta. apply X20_unmatched_line_is_ignored.
  intros d [<-|[<-|[]]]; split; reflexivity.
Defined.

(** ** Self time in the Forest *)

Lemma Qsum_nonneg (l : list Q) :
  (forall q, In q l -> (0 <= q)%Q) -> (0 <= Qsum l)%Q.
Proof.
  induction l as [|q rest IH]; intros Hall; simpl; [apply Qle_refl|].
  assert (H1 : (0 <= q)%Q) by (apply Hall; left; reflexivity).
  assert (H2 : (0 <= Qsum rest)%Q) by (apply IH; intros q' Hq'; apply Hall; right; exact Hq').
  lra.
Qed.

Lemma child_duration_nonneg (now : Z) (h : list TraceNode) (obj : TraceNode) :
  time_ok now h -> (0 <= child_duration h obj)%Q.
Proof.
  intros Hok. unfold child_duration. apply Qsum_nonneg.
  intros q Hq. apply in_map_iff in Hq as (c & <- & _).
  unfold duration_of. destruct (h !! c) as [oc|] eqn:Hc; simpl; [|apply Qle_refl].
  apply duration_ms_nonneg, (Hok c oc Hc).
Qed.

(** C4, as the code has it: in the Forest after [_close_dangling_events] the
    self time of no node is negative.  When the instants of the stream are
    non-decreasing, a node that its own end signal closed is found as the
    end signal left it and satisfies [selfTime + sum of the children's
    durations = duration]; a node closed by the forced closure has
    [end = start], duration 0 and self time 0, so that the equation holds
    for it exactly when the durations of its children add up to 0. *)
Theorem C4_self_time_conservation_in_the_forest :
  forall (defs : list EventDef) (sigs : list Delivery) (n : nat)
         (obj : TraceNode),
    let before := observe_all sigs (fresh defs) in
    let self := _close_dangling_events before in
    in_forest self n ->
    heap self !! n = Some obj ->
    (0 <= self_time_ms (heap self) obj)%Q
    /\ (Sorted Z.le (map instant_of sigs) ->
        exists ob,
          heap before !! n = Some ob
          /\ match end_time ob with
             | Some _ =>
                 obj = ob
                 /\ (self_time_ms (heap self) obj
                     + child_duration (heap self) obj == duration_ms obj)%Q
             | None =>
                 end_time obj = Some (start_time obj)
                 /\ (duration_ms obj == 0)%Q
                 /\ (self_time_ms (heap self) obj == 0)%Q
                 /\ ((self_time_ms (heap self) obj
                      + child_duration (heap self) obj == duration_ms obj)%Q
                     <-> (child_duration (heap self) obj == 0)%Q)
             end).
Proof.
  intros defs sigs n obj before self _ Hobj.
  split; [unfold self_time_ms; apply Q.le_max_l|].
  intros Hs.
  assert (Hwf : wf before) by apply wf_observe_all, wf_fresh.
  assert (Hsh : shape before)
    by (apply (shape_after_stream false); [apply wf_fresh|apply shape_fresh]).
  assert (Hlt : n < length (heap before)).
  { apply lookup_lt_Some in Hobj. unfold self in Hobj.
    rewrite finalize_length in Hobj. exact Hobj. }
  apply lookup_lt_is_Some in Hlt as [ob Hob].
  exists ob. split; [exact Hob|].
  assert (Hfrozen : forall i o, heap before !! i = Some o ->
                      end_time o <> None -> heap self !! i = Some o).
  { intros i o Hi He.
    apply (frozen_after_stream true [] before i o Hwf Hsh Hi He). }
  destruct (end_time ob) as [e|] eqn:Hend.
  - (* closed by its end signal *)
    assert (Hsame : obj = ob).
    { assert (H : heap self !! n = Some ob) by (apply Hfrozen; congruence).
      congruence. }
    split; [exact Hsame|]. subst obj.
    destruct (sequenced_reachable defs sigs Hs) as [now Hseq].
    assert (Hchildren : forall c, In c (children ob) ->
                          heap self !! c = heap before !! c).
    { intros c Hc. destruct (wf_children _ Hwf n ob c Hob Hc) as [_ Hc_lt].
      apply lookup_lt_is_Some in Hc_lt as [oc Hoc]. rewrite Hoc.
      apply Hfrozen; [exact Hoc|].
      apply (sh_closed_children _ Hsh n ob c oc); try assumption. congruence. }
    unfold self_time_ms. rewrite (child_duration_ext _ _ _ Hchildren).
    apply (conservation_of_closed (heap before) ob now (Hseq n ob Hob)).
    congruence.
  - (* closed by the forced closure *)
    assert (Hopen : In n (open_nodes (thread_stacks before)))
      by (apply (wf_unset _ Hwf n ob Hob Hend)).
    assert (Hforced : obj = close (start_time ob) ob).
    { unfold self in Hobj. rewrite (finalize_lookup_in before n Hopen), Hob in Hobj.
      simpl in Hobj. unfold force_close in Hobj. rewrite Hend in Hobj. congruence. }
    destruct (time_ok_reachable defs sigs Hs) as [now Hok].
    apply (time_ok_finalize now) in Hok. fold self in Hok.
    pose proof (child_duration_nonneg now (heap self) obj Hok) as Hc.
    assert (Hd : (duration_ms obj == 0)%Q).
    { rewrite Hforced. unfold duration_ms. simpl. unfold Qeq. simpl. lia. }
    assert (Hself : (self_time_ms (heap self) obj == 0)%Q).
    { destruct (self_time_ms_cases (heap self) obj) as [[Hle Heq]|[_ Heq]]; lra. }
    split; [rewrite Hforced; reflexivity|].
    split; [exact Hd|]. split; [exact Hself|].
    split; intros H; lra.
Qed.

(** C4, witness: in the stream that leaves [A] open above its child [B], the
    node of [B], closed by its end signal at 5 ms, keeps the equation; that
    of [A] does not, as the counterexample shows. *)
Lemma C4_witness :
  let before := observe_all dangling_parent (fresh [def_A; def_B]) in
  let self := _close_dangling_events before in
  let b := {| name := "B"; start_time := 1000; end_time := Some 5000%Z;
              thread_id := 1; children := []; parent := Some 0%nat |} in
  exists ob,
    heap before !! 1 = Some ob
    /\ match end_time ob with
       | Some _ =>
           b = ob
           /\ (self_time_ms (heap self) b + child_duration (heap self) b
               == duration_ms b)%Q
       | None =>
           end_time b = Some (start_time b)
           /\ (duration_ms b == 0)%Q
           /\ (self_time_ms (heap self) b == 0)%Q
           /\ ((self_time_ms (heap self) b + child_duration (heap self) b
                == duration_ms b)%Q
               <-> (child_duration (heap self) b == 0)%Q)
       end.
Proof.
  cbv zeta.
  refine (proj2 (C4_self_time_conservation_in_the_forest [def_A; def_B]
                   dangling_parent 1 _ _ _) _).
  - exists 0. split; [left; reflexivity|]. right. apply desc_child.
    eexists. split; [reflexivity|]. left. reflexivity.
  - reflexivity.
  - unfold dangling_parent, instant_of. simpl.
    repeat (apply Sorted_cons || apply Sorted_nil || apply HdRel_cons
            || apply HdRel_nil); lia.
Defined.

(** ** The trace as a pre-order emission *)

Lemma preorder_nested_ind (h : list TraceNode)
    (P : nat -> list (nat * Phase) -> Prop) :
  (forall n obj subs,
     h !! n = Some obj ->
     Forall2 (preorder h) (children obj) subs ->
     Forall2 P (children obj) subs ->
     P n ((n, PhaseB) :: concat subs ++ [(n, PhaseE)])) ->
  forall n o, preorder h n o -> P n o.
Proof.
  intros H. fix IH 3. intros n o [n' obj subs Hobj Hsubs].
  apply (H n' obj subs Hobj Hsubs).
  induction Hsubs as [|c s cs ss Hc _ IHs]; constructor; [apply IH, Hc|exact IHs].
Qed.

Lemma Forall2_In_split_r {A B : Type} (P : A -> B -> Prop) (l : list A)
    (k : list B) (y : B) :
  Forall2 P l k -> In y k ->
  exists l1 x l2, l = l1 ++ x :: l2 /\ P x y.
Proof.
  induction 1 as [|a b l k Hab _ IH]; intros Hin; [destruct Hin|].
  destruct Hin as [->|Hin].
  - exists [], a, l. split; [reflexivity|exact Hab].
  - destruct (IH Hin) as (l1 & x & l2 & -> & Hx).
    exists (a :: l1), x, l2. split; [reflexivity|exact Hx].
Qed.

Lemma Forall2_exists {A B C : Type} (P : A -> C -> Prop) (Q : C -> B -> Prop)
    (l : list A) (k : list B) :
  Forall2 (fun a b => exists c, P a c /\ Q c b) l k ->
  exists m, Forall2 P l m /\ Forall2 Q m k.
Proof.
  induction 1 as [|a b l k (c & Hp & Hq) _ (m & Hm1 & Hm2)].
  - exists []. split; constructor.
  - exists (c :: m). split; constructor; assumption.
Qed.

Lemma Forall2_concat_records {A B : Type} (P : A -> B -> Prop)
    (ls : list (list A)) (ks : list (list B)) :
  Forall2 (Forall2 P) ls ks -> Forall2 P (concat ls) (concat ks).
Proof.
  induction 1 as [|l k ls ks Hlk _ IH]; simpl; [constructor|].
  apply Forall2_app; assumption.
Qed.

(** What the export of a node returns is the pre-order emission of the
    node, record by record. *)
Lemma export_owners (h : list TraceNode) (pid : Z) (fuel n : nat)
    (evs : list TraceEvent) :
  to_chrome_trace_events fuel h n pid = Some evs ->
  exists owners,
    preorder h n owners
    /\ Forall2 (fun x ev => record_of h pid x = Some ev) owners evs.
Proof.
  revert n evs. induction fuel as [|fuel IH]; intros n evs; simpl; [discriminate|].
  destruct (h !! n) as [obj|] eqn:Hobj; [|discriminate].
  destruct (mapM _ (children obj)) as [sub|] eqn:Hsub; [|discriminate].
  intros [= <-]. apply mapM_Some_1 in Hsub.
  assert (Hex : Forall2 (fun c s => exists o, preorder h c o
                  /\ Forall2 (fun x ev => record_of h pid x = Some ev) o s)
                  (children obj) sub).
  { eapply Forall2_impl; [exact Hsub|]. intros c s Hs. apply (IH c s Hs). }
  apply Forall2_exists in Hex as (subs & Hpre & Hrec).
  exists ((n, PhaseB) :: concat subs ++ [(n, PhaseE)]). split.
  - apply (preorder_node h n obj subs Hobj Hpre).
  - constructor; [unfold record_of; simpl; rewrite Hobj; reflexivity|].
    apply Forall2_app; [apply Forall2_concat_records, Hrec|].
    constructor; [|constructor].
    unfold record_of. simpl. rewrite Hobj. reflexivity.
Qed.

(** Between the two records of a node lie the records of the nodes below
    it, and no others. *)
Lemma preorder_members (h : list TraceNode) (n : nat) (o : list (nat * Phase)) :
  preorder h n o ->
  exists mid,
    o = (n, PhaseB) :: mid ++ [(n, PhaseE)]
    /\ forall d ph, In (d, ph) mid <-> descendant h n d.
Proof.
  revert n o. apply preorder_nested_ind. intros n obj subs Hobj Hpre IH.
  exists (concat subs). split; [reflexivity|].
  intros d ph. rewrite in_concat. split.
  - intros (s & Hs & Hd).
    destruct (Forall2_In_split_r _ _ _ _ IH Hs) as (l1 & c & l2 & Hch & mid & -> & Hmid).
    assert (Hc : child_of h n c).
    { exists obj. split; [exact Hobj|]. rewrite Hch. apply in_elt. }
    destruct Hd as [[= <- <-]|Hd]; [apply desc_child, Hc|].
    apply in_app_iff in Hd as [Hd|[[= <- <-]|[]]]; [|apply desc_child, Hc].
    apply (desc_step h n c d Hc), (Hmid d ph), Hd.
  - intros Hd.
    assert (Hcase : exists c, In c (children obj) /\ (d = c \/ descendant h c d)).
    { inversion Hd as [p c (obj' & Hp & Hc) E1 E2|p c d' (obj' & Hp & Hc) Hcd E1 E2];
        rewrite Hobj in Hp; injection Hp as <-.
      - exists d. tauto.
      - exists c. tauto. }
    destruct Hcase as (c & Hc & Hcd).
    destruct (Forall2_In_split _ _ _ _ IH Hc) as (k1 & s & k2 & -> & mid & -> & Hmid).
    exists ((c, PhaseB) :: mid ++ [(c, PhaseE)]).
    split; [apply in_elt|].
    destruct Hcd as [->|Hcd].
    + destruct ph; [left; reflexivity|right; apply in_app_iff; right; left; reflexivity].
    + right. apply in_app_iff. left. apply (Hmid d ph), Hcd.
Qed.

Lemma preorder_owners (h : list TraceNode) (n : nat) (o : list (nat * Phase)) :
  preorder h n o ->
  forall d ph, In (d, ph) o <-> d = n \/ descendant h n d.
Proof.
  intros Hpre d ph. destruct (preorder_members h n o Hpre) as (mid & -> & Hmid).
  simpl. rewrite in_app_iff, Hmid. simpl. split.
  - intros [[= <- <-]|[H|[[= <- <-]|[]]]]; tauto.
  - intros [->|H]; [|tauto].
    destruct ph; [left; reflexivity|right; right; left; reflexivity].
Qed.

(** *** Every node has one place in the Forest *)

Lemma descendant_lt self a d :
  wf self -> descendant (heap self) a d -> a < d.
Proof.
  intros Hwf. induction 1 as [p c (obj & Hp & Hc)|p c d (obj & Hp & Hc) _ IH].
  - apply (wf_children _ Hwf _ _ _ Hp Hc).
  - pose proof (wf_children _ Hwf _ _ _ Hp Hc) as [Hlt _].
    apply (Nat.lt_trans _ _ _ Hlt IH).
Qed.

Lemma descendant_bottom h a d :
  descendant h a d ->
  exists p, child_of h p d /\ (a = p \/ descendant h a p).
Proof.
  induction 1 as [p c Hc|p c d Hc _ (q & Hq & Hcase)].
  - exists p. tauto.
  - exists q. split; [exact Hq|]. right.
    destruct Hcase as [->|Hd]; [apply desc_child, Hc|apply (desc_step h p c q Hc Hd)].
Qed.

Lemma parent_unique self p p' c :
  wf self -> shape self ->
  child_of (heap self) p c -> child_of (heap self) p' c -> p = p'.
Proof.
  intros Hwf Hsh (op & Hop & Hc) (op' & Hop' & Hc').
  destruct (wf_children _ Hwf _ _ _ Hop Hc) as [_ Hlt].
  apply lookup_lt_is_Some in Hlt as [oc Hoc].
  pose proof (sh_child _ Hsh p op c oc Hop Hc Hoc) as H1.
  pose proof (sh_child _ Hsh p' op' c oc Hop' Hc' Hoc) as H2.
  congruence.
Qed.

(** Two nodes above the same node lie one above the other. *)
Lemma ancestors_comparable self :
  wf self -> shape self ->
  forall d a1 a2,
    (d = a1 \/ descendant (heap self) a1 d) ->
    (d = a2 \/ descendant (heap self) a2 d) ->
    a1 = a2 \/ descendant (heap self) a1 a2 \/ descendant (heap self) a2 a1.
Proof.
  intros Hwf Hsh d. induction d as [d IH] using lt_wf_ind.
  intros a1 a2 [->|H1] [->|H2].
  - left. reflexivity.
  - right. right. exact H2.
  - right. left. exact H1.
  - destruct (descendant_bottom _ _ _ H1) as (p1 & Hp1 & C1).
    destruct (descendant_bottom _ _ _ H2) as (p2 & Hp2 & C2).
    assert (p2 = p1) as -> by (apply (parent_unique self p2 p1 d); assumption).
    assert (Hlt : p1 < d) by (apply (descendant_lt self); [exact Hwf|apply desc_child, Hp1]).
    apply (IH p1 Hlt).
    + destruct C1 as [->|C1]; tauto.
    + destruct C2 as [->|C2]; tauto.
Qed.

Lemma siblings_disjoint self n c1 c2 d :
  wf self -> shape self ->
  child_of (heap self) n c1 -> child_of (heap self) n c2 ->
  (d = c1 \/ descendant (heap self) c1 d) ->
  (d = c2 \/ descendant (heap self) c2 d) ->
  c1 = c2.
Proof.
  intros Hwf Hsh Hc1 Hc2 H1 H2.
  assert (Hno : forall a b, child_of (heap self) n a -> child_of (heap self) n b ->
                  ~ descendant (heap self) a b).
  { intros a b Ha Hb Hab.
    destruct (descendant_bottom _ _ _ Hab) as (p & Hp & C).
    assert (p = n) as -> by (apply (parent_unique self p n b); assumption).
    assert (Hlt : n < a) by (apply (descendant_lt self); [exact Hwf|apply desc_child, Ha]).
    destruct C as [->|C]; [apply (Nat.lt_irrefl _ Hlt)|].
    apply (descendant_lt _ _ _ Hwf) in C.
    apply (Nat.lt_irrefl n), (Nat.lt_trans _ _ _ Hlt C). }
  destruct (ancestors_comparable self Hwf Hsh d c1 c2 H1 H2) as [E|[H|H]];
    [exact E| |]; exfalso.
  - apply (Hno c1 c2); assumption.
  - apply (Hno c2 c1); assumption.
Qed.

Lemma roots_disjoint self r1 r2 d :
  wf self -> shape self ->
  In r1 (completed_roots self) -> In r2 (completed_roots self) ->
  (d = r1 \/ descendant (heap self) r1 d) ->
  (d = r2 \/ descendant (heap self) r2 d) ->
  r1 = r2.
Proof.
  intros Hwf Hsh Hr1 Hr2 H1 H2.
  assert (Hno : forall a b, In b (completed_roots self) ->
                  ~ descendant (heap self) a b).
  { intros a b Hb Hab.
    destruct (descendant_bottom _ _ _ Hab) as (p & (op & Hop & Hin) & _).
    pose proof (wf_roots _ Hwf b Hb) as Hlt.
    apply lookup_lt_is_Some in Hlt as [ob Hob].
    pose proof (sh_child _ Hsh p op b ob Hop Hin Hob) as Hpar.
    destruct (sh_roots _ Hsh b ob Hb Hob) as [Hnone _]. congruence. }
  destruct (ancestors_comparable self Hwf Hsh d r1 r2 H1 H2) as [E|[H|H]];
    [exact E| |]; exfalso.
  - apply (Hno r1 r2); assumption.
  - apply (Hno r2 r1); assumption.
Qed.

Lemma Forall2_both {A B : Type} (P Q : A -> B -> Prop) (l : list A) (k : list B) :
  Forall2 P l k -> Forall2 Q l k -> Forall2 (fun a b => P a b /\ Q a b) l k.
Proof.
  induction 1 as [|a b l k Hp _ IH]; intros HQ; inversion HQ; subst;
    constructor; auto.
Qed.

(** Lists without duplicates that belong to different owners and share no
    element make a list without duplicates. *)
Lemma NoDup_concat_owned {K A : Type} (R : K -> list A -> Prop) (cs : list K)
    (subs : list (list A)) :
  Forall2 (fun c s => R c s /\ NoDup s) cs subs ->
  NoDup cs ->
  (forall c1 s1 c2 s2 x,
     In c1 cs -> In c2 cs -> R c1 s1 -> R c2 s2 -> In x s1 -> In x s2 ->
     c1 = c2) ->
  NoDup (concat subs).
Proof.
  induction 1 as [|c s cs subs [Hr Hs] HF IH]; intros Hnd Hdis; simpl;
    [apply NoDup_nil_2|].
  apply NoDup_cons in Hnd as [Hnotin Hnd].
  apply NoDup_app. split; [exact Hs|]. split.
  - intros x Hx Hx'. apply list_elem_of_In in Hx, Hx'.
    apply in_concat in Hx' as (s' & Hs' & Hxs').
    destruct (Forall2_In_split_r _ _ _ _ HF Hs') as (l1 & c' & l2 & -> & [Hr' _]).
    assert (E : c = c').
    { apply (Hdis c s c' s' x); try assumption; [left; reflexivity|].
      right. apply in_elt. }
    subst c'. apply Hnotin, list_elem_of_In, in_elt.
  - apply IH; [exact Hnd|].
    intros c1 s1 c2 s2 x H1 H2. apply Hdis; right; assumption.
Qed.

Lemma preorder_NoDup self :
  wf self -> shape self ->
  forall n o, preorder (heap self) n o -> NoDup o.
Proof.
  intros Hwf Hsh. apply preorder_nested_ind. intros n obj subs Hobj Hpre IH.
  assert (Hchild : forall c, In c (children obj) -> child_of (heap self) n c).
  { intros c Hc. exists obj. tauto. }
  assert (Hnotin : forall ph, ~ In (n, ph) (concat subs)).
  { intros ph Hin. apply in_concat in Hin as (s & Hs & Hin).
    destruct (Forall2_In_split_r _ _ _ _ Hpre Hs) as (l1 & c & l2 & Hch & Hpc).
    apply (preorder_owners _ _ _ Hpc) in Hin.
    assert (Hlt : n < c).
    { apply (descendant_lt self); [exact Hwf|]. apply desc_child, Hchild.
      rewrite Hch. apply in_elt. }
    destruct Hin as [->|Hd]; [apply (Nat.lt_irrefl _ Hlt)|].
    apply (descendant_lt _ _ _ Hwf) in Hd.
    apply (Nat.lt_irrefl n), (Nat.lt_trans _ _ _ Hlt Hd). }
  apply NoDup_cons. split.
  - rewrite list_elem_of_In, in_app_iff. intros [H|[[=]|[]]].
    apply (Hnotin PhaseB H).
  - apply NoDup_app. split; [|split].
    + apply (NoDup_concat_owned (preorder (heap self)) (children obj) subs).
      * apply Forall2_both; assumption.
      * apply (sh_children_nodup _ Hsh n obj Hobj).
      * intros c1 s1 c2 s2 [d ph] Hc1 Hc2 R1 R2 H1 H2.
        apply (preorder_owners _ _ _ R1) in H1.
        apply (preorder_owners _ _ _ R2) in H2.
        apply (siblings_disjoint self n c1 c2 d); auto.
    + intros x Hx Hx'. apply list_elem_of_singleton in Hx' as ->.
      apply list_elem_of_In in Hx. apply (Hnotin PhaseE Hx).
    + apply NoDup_singleton.
Qed.

(** The emission of a node holds, between the node's two records, the
    emission of every node below it. *)
Lemma preorder_split (h : list TraceNode) (r n : nat) :
  descendant h r n ->
  forall seg, preorder h r seg ->
    exists pre mid post,
      seg = (r, PhaseB)
              :: (pre ++ (n, PhaseB) :: mid ++ (n, PhaseE) :: post)
              ++ [(r, PhaseE)]
      /\ preorder h n ((n, PhaseB) :: mid ++ [(n, PhaseE)]).
Proof.
  induction 1 as [p c (obj & Hp & Hc)|p c d (obj & Hp & Hc) _ IH];
    intros seg Hseg; inversion Hseg as [p' obj' subs Hobj' Hsubs E1 E2]; subst;
    rewrite Hp in Hobj'; injection Hobj' as <-;
    destruct (Forall2_In_split _ _ _ _ Hsubs Hc) as (k1 & s & k2 & -> & Hs).
  - inversion Hs as [c' oc subs_c Hoc Hsubs_c E1 E2]; subst.
    exists (concat k1), (concat subs_c), (concat k2).
    split; [|exact Hs].
    rewrite concat_app. repeat first [rewrite <- app_assoc | progress simpl].
    reflexivity.
  - destruct (IH s Hs) as (pre & mid & post & -> & Hd).
    exists (concat k1 ++ (c, PhaseB) :: pre), mid,
      (post ++ (c, PhaseE) :: concat k2).
    split; [|exact Hd].
    rewrite concat_app. repeat first [rewrite <- app_assoc | progress simpl].
    reflexivity.
Qed.

(** The records of a segment of owners are a segment of the records. *)
Lemma records_split (h : list TraceNode) (pid : Z) (pre mid post : list (nat * Phase))
    (n : nat) (obj : TraceNode) (evs : list TraceEvent) :
  h !! n = Some obj ->
  Forall2 (fun x ev => record_of h pid x = Some ev)
    (pre ++ (n, PhaseB) :: mid ++ (n, PhaseE) :: post) evs ->
  exists pre_e mid_e post_e,
    evs = pre_e ++ begin_event obj pid :: mid_e ++ end_event obj pid :: post_e
    /\ mapM (record_of h pid) pre = Some pre_e
    /\ mapM (record_of h pid) mid = Some mid_e
    /\ mapM (record_of h pid) post = Some post_e.
Proof.
  intros Hobj H.
  apply Forall2_app_inv_l in H as (pre_e & k & Hpre & H & ->).
  apply Forall2_cons_inv_l in H as (b & k' & Hb & H & ->).
  apply Forall2_app_inv_l in H as (mid_e & k & Hmid & H & ->).
  apply Forall2_cons_inv_l in H as (e & post_e & He & Hpost & ->).
  unfold record_of in Hb, He. simpl in Hb, He. rewrite Hobj in Hb, He.
  injection Hb as <-. injection He as <-.
  exists pre_e, mid_e, post_e.
  split; [reflexivity|]. repeat split; apply mapM_Some_2; assumption.
Qed.

(** C9: after any stream, with or without [_close_dangling_events], the
    trace is exported, and it is a depth-first pre-order emission of paired
    begin and end records.  Told by the node and the phase every record is
    written for, the trace is the emissions of the roots of the Forest one
    after the other, where the emission of a node is its begin record, the
    emissions of its children in order, and its end record.  Every node of
    the Forest, and no other, owns records, and no node owns two records of
    the same phase.  For every node of the Forest the trace holds the
    node's begin record, later its end record, and between the two exactly
    the records of the nodes of its subtree: no record of another node,
    and for every node below it that node's begin record and, later, its
    end record. *)
Theorem C9_trace_nesting :
  forall (defs : list EventDef) (sigs : list Delivery) (finalized : bool),
    let self := after_stream finalized sigs (fresh defs) in
    exists evs owners segs,
      export_chrome_trace self = Some evs
      /\ mapM (record_of (heap self) 1) owners = Some evs
      /\ owners = concat segs
      /\ Forall2 (preorder (heap self)) (completed_roots self) segs
      /\ NoDup owners
      /\ (forall n ph, In (n, ph) owners <-> in_forest self n)
      /\ forall n, in_forest self n ->
           exists obj pre mid post pre_e mid_e post_e,
             heap self !! n = Some obj
             /\ owners = pre ++ (n, PhaseB) :: mid ++ (n, PhaseE) :: post
             /\ evs = pre_e ++ begin_event obj 1 :: mid_e
                          ++ end_event obj 1 :: post_e
             /\ mapM (record_of (heap self) 1) pre = Some pre_e
             /\ mapM (record_of (heap self) 1) mid = Some mid_e
             /\ mapM (record_of (heap self) 1) post = Some post_e
             /\ preorder (heap self) n ((n, PhaseB) :: mid ++ [(n, PhaseE)])
             /\ (forall d ph, In (d, ph) mid <-> descendant (heap self) n d)
             /\ forall d, descendant (heap self) n d ->
                  exists pre_d mid_d post_d,
                    mid = pre_d ++ (d, PhaseB) :: mid_d
                            ++ (d, PhaseE) :: post_d.
Proof.
  intros defs sigs finalized self.
  assert (Hwf : wf self) by apply wf_after_stream, wf_fresh.
  assert (Hsh : shape self)
    by (apply shape_after_stream; [apply wf_fresh|apply shape_fresh]).
  destruct (export_chrome_trace_total self Hwf) as [evs Hevs].
  pose proof Hevs as Hexport. unfold export_chrome_trace in Hevs.
  destruct (mapM _ (completed_roots self)) as [per_root|] eqn:Hroots; [|discriminate].
  injection Hevs as <-. apply mapM_Some_1 in Hroots.
  assert (Hex : Forall2 (fun r s => exists o, preorder (heap self) r o
                  /\ Forall2 (fun x ev => record_of (heap self) 1 x = Some ev) o s)
                  (completed_roots self) per_root).
  { eapply Forall2_impl; [exact Hroots|]. intros r s Hs.
    apply (export_owners _ _ _ _ _ Hs). }
  apply Forall2_exists in Hex as (segs & Hpre & Hrec).
  apply Forall2_concat_records in Hrec.
  exists (concat per_root), (concat segs), segs.
  split; [exact Hexport|].
  split; [apply mapM_Some_2, Hrec|].
  split; [reflexivity|].
  split; [exact Hpre|].
  split; [|split].
  - apply (NoDup_concat_owned (preorder (heap self)) (completed_roots self) segs).
    + apply Forall2_both; [exact Hpre|].
      eapply Forall2_impl; [exact Hpre|]. intros r s. apply preorder_NoDup; assumption.
    + apply (sh_roots_nodup _ Hsh).
    + intros r1 s1 r2 s2 [d ph] Hr1 Hr2 R1 R2 H1 H2.
      apply (preorder_owners _ _ _ R1) in H1.
      apply (preorder_owners _ _ _ R2) in H2.
      apply (roots_disjoint self r1 r2 d); assumption.
  - intros n ph. rewrite in_concat. split.
    + intros (seg & Hseg & Hn).
      destruct (Forall2_In_split_r _ _ _ _ Hpre Hseg) as (l1 & r & l2 & Hr & Hp).
      apply (preorder_owners _ _ _ Hp) in Hn.
      exists r. split; [rewrite Hr; apply in_elt|exact Hn].
    + intros (r & Hr & Hn).
      destruct (Forall2_In_split _ _ _ _ Hpre Hr) as (k1 & seg & k2 & -> & Hp).
      exists seg. split; [apply in_elt|].
      apply (preorder_owners _ _ _ Hp). exact Hn.
  - intros n (r & Hr & Hn).
    destruct (Forall2_In_split _ _ _ _ Hpre Hr) as (k1 & seg & k2 & Hsegs & Hp).
    assert (Hseg : exists pre0 mid post0,
               seg = pre0 ++ (n, PhaseB) :: mid ++ (n, PhaseE) :: post0
               /\ preorder (heap self) n ((n, PhaseB) :: mid ++ [(n, PhaseE)])).
    { destruct Hn as [->|Hd].
      - destruct (preorder_members _ _ _ Hp) as (mid & Hmid & _).
        exists [], mid, []. rewrite <- Hmid. split; [reflexivity|exact Hp].
      - destruct (preorder_split _ r n Hd seg Hp) as (pre & mid & post & -> & Hnode).
        exists ((r, PhaseB) :: pre), mid, (post ++ [(r, PhaseE)]).
        split; [|exact Hnode].
        repeat first [rewrite <- app_assoc | progress simpl]. reflexivity. }
    destruct Hseg as (pre0 & mid & post0 & -> & Hnode).
    assert (Hobj : exists obj, heap self !! n = Some obj).
    { inversion Hnode as [n' obj subs Hobj _ E1 E2]. eauto. }
    destruct Hobj as [obj Hobj].
    assert (Howners : concat segs
                      = (concat k1 ++ pre0) ++ (n, PhaseB) :: mid
                          ++ (n, PhaseE) :: (post0 ++ concat k2)).
    { rewrite Hsegs, concat_app. simpl. rewrite <- ?app_assoc. simpl.
      rewrite <- ?app_assoc. reflexivity. }
    rewrite Howners in Hrec.
    destruct (records_split _ _ _ _ _ _ _ _ Hobj Hrec)
      as (pre_e & mid_e & post_e & Hevs & Hpre_e & Hmid_e & Hpost_e).
    exists obj, (concat k1 ++ pre0), mid, (post0 ++ concat k2), pre_e, mid_e, post_e.
    split; [exact Hobj|]. split; [exact Howners|]. split; [exact Hevs|].
    split; [exact Hpre_e|]. split; [exact Hmid_e|]. split; [exact Hpost_e|].
    split; [exact Hnode|]. split.
    + destruct (preorder_members _ _ _ Hnode) as (mid' & Heq & Hmid).
      injection Heq as Heq. apply app_inv_tail in Heq. subst mid'. exact Hmid.
    + intros d Hd.
      destruct (preorder_split _ n d Hd _ Hnode)
        as (pre_d & mid_d & post_d & Heq & _).
      injection Heq as Heq. apply app_inv_tail in Heq.
      exists pre_d, mid_d, post_d. exact Heq.
Qed.

(** ** The float of a duration *)

Lemma round_half_even_pos (a b : Z) :
  (0 < b)%Z -> (b <= a)%Z -> (0 < round_half_even a b)%Z.
Proof.
  intros Hb Hab. unfold round_half_even.
  assert (Hq : (1 <= a / b)%Z) by (apply Z.div_le_lower_bound; lia).
  destruct (2 * (a mod b) ?= b)%Z; [destruct (Z.even (a / b))| |]; lia.
Qed.

Lemma scale2_pos (m e : Z) : (0 < m)%Z -> (0 < scale2 m e)%Q.
Proof.
  intros Hm. unfold scale2. destruct (0 <=? e)%Z eqn:He.
  - apply Z.leb_le in He. unfold Qlt. simpl.
    pose proof (Z.pow_pos_nonneg 2 e ltac:(lia) He). nia.
  - unfold Qlt. simpl. lia.
Qed.

Lemma binary64_pos_positive (n d : positive) : (0 < binary64_pos n d)%Q.
Proof.
  unfold binary64_pos. apply scale2_pos.
  set (ln := Z.log2 (Z.pos n)). set (ld := Z.log2 (Z.pos d)).
  assert (Hn : (2 ^ ln <= Z.pos n)%Z) by (apply Z.log2_spec; lia).
  assert (Hd : (Z.pos d < 2 ^ (ld + 1))%Z).
  { pose proof (Z.log2_spec (Z.pos d) ltac:(lia)) as [_ H].
    rewrite <- Z.add_1_r in H. exact H. }
  assert (Hln : (0 <= ln)%Z) by apply Z.log2_nonneg.
  assert (Hld : (0 <= ld)%Z) by apply Z.log2_nonneg.
  set (e0 := (ln - ld - 52)%Z).
  destruct (_ <? _)%Z eqn:Htest.
  - clear Htest. destruct (0 <=? e0 - 1)%Z eqn:He.
    + apply Z.leb_le in He.
      assert (Hp : (0 < 2 ^ (e0 - 1))%Z) by (apply Z.pow_pos_nonneg; lia).
      apply round_half_even_pos; [nia|].
      assert (Hle : (Z.pos d * 2 ^ (e0 - 1) <= 2 ^ (ld + 1) * 2 ^ (e0 - 1))%Z) by nia.
      rewrite <- Z.pow_add_r in Hle by lia.
      assert (Hm : (2 ^ (ld + 1 + (e0 - 1)) <= 2 ^ ln)%Z)
        by (apply Z.pow_le_mono_r; lia).
      lia.
    + apply Z.leb_gt in He.
      apply round_half_even_pos; [lia|].
      assert (Hle : (2 ^ ln * 2 ^ (- (e0 - 1)) <= Z.pos n * 2 ^ (- (e0 - 1)))%Z).
      { apply Z.mul_le_mono_nonneg_r; [apply Z.pow_nonneg; lia|exact Hn]. }
      rewrite <- Z.pow_add_r in Hle by lia.
      assert (Hm : (2 ^ (ld + 1) <= 2 ^ (ln + - (e0 - 1)))%Z)
        by (apply Z.pow_le_mono_r; lia).
      lia.
  - apply Z.ltb_ge in Htest.
    assert (Hden : (0 < (if (0 <=? e0)%Z then Z.pos d * 2 ^ e0 else Z.pos d))%Z).
    { destruct (0 <=? e0)%Z eqn:He; [|lia].
      apply Z.leb_le in He. pose proof (Z.pow_pos_nonneg 2 e0 ltac:(lia) He). nia. }
    apply round_half_even_pos; [exact Hden|].
    assert (H52 : (1 <= 2 ^ 52)%Z) by (apply Z.lt_pred_le; reflexivity).
    nia.
Qed.

(** Rounding to the nearest float keeps the sign. *)
Lemma binary64_sign (q : Q) :
  ((0 < binary64 q)%Q <-> (0 < q)%Q) /\ ((binary64 q < 0)%Q <-> (q < 0)%Q).
Proof.
  destruct q as [[|n|n] d]; unfold binary64; simpl.
  - split; split; intros H; exact H.
  - pose proof (binary64_pos_positive n d) as Hp.
    split; split; intros H; try reflexivity; try exact Hp.
    + exfalso. lra.
    + discriminate H.
  - pose proof (binary64_pos_positive n d) as Hp.
    split; split; intros H; try reflexivity; try lra.
    discriminate H.
Qed.

(** The float of a duration is positive exactly when the duration is. *)
Lemma duration_ms_float_positive (obj : TraceNode) :
  (0 < duration_ms_float obj)%Q <-> (0 < duration_ms obj)%Q.
Proof.
  unfold duration_ms_float, duration_ms.
  destruct (end_time obj) as [e|]; [|tauto].
  set (x := Qmake (e - start_time obj) 1000000).
  rewrite (proj1 (binary64_sign (binary64 x * 1000))).
  assert (H1 : (0 < binary64 x * 1000)%Q <-> (0 < binary64 x)%Q)
    by (split; intros H; lra).
  rewrite H1, (proj1 (binary64_sign x)).
  unfold x, Qlt. simpl. lia.
Qed.

(** The float and the exact value part at the threshold: a node of 2007 ms
    has the float duration 2007.0000000000002, and against the threshold
    2007 it is marked warn. *)
Example duration_ms_float_above_exact :
  let obj := {| name := "A"; start_time := 0; end_time := Some 2007000%Z;
                thread_id := 1; children := []; parent := None |} in
  let d := {| def_name := "A"; start_re := literal_search "START A";
              end_re := literal_search "END A"; threshold := 2007 |} in
  (duration_ms obj == 2007)%Q
  /\ (duration_ms_float obj == Qmake 8826879347785729 4398046511104)%Q
  /\ (2007 < duration_ms_float obj)%Q
  /\ status_icon [d] obj = IconWarn.
Proof.
  cbv zeta. repeat split; vm_compute; reflexivity.
Qed.

(** ** The text report *)

Lemma event_defs_observe tid t s self :
  event_defs (observe tid t s self) = event_defs self.
Proof.
  destruct s as [d|d]; unfold observe.
  - rewrite observe_start_eq. reflexivity.
  - destruct (observe_end_cases d tid t self)
      as [->|(below & top & o & _ & _ & _ & ->)]; reflexivity.
Qed.

Lemma event_defs_after_stream finalized sigs self :
  event_defs (after_stream finalized sigs self) = event_defs self.
Proof.
  assert (Hstream : event_defs (observe_all sigs self) = event_defs self).
  { revert self. induction sigs as [|[[tid t] s] rest IH]; intros self; [reflexivity|].
    change (observe_all ((tid, t, s) :: rest) self)
      with (observe_all rest (observe tid t s self)).
    rewrite IH. apply event_defs_observe. }
  unfold after_stream. destruct finalized; [|exact Hstream].
  unfold _close_dangling_events.
  destruct (close_all_stacks _ _ _) as [[stacks roots] h]. exact Hstream.
Qed.

(** On a store whose references are valid the report comes back. *)
Lemma print_text_report_total (self : LogProfiler) :
  wf self -> is_Some (print_text_report self).
Proof.
  intros Hwf.
  assert (Hagree : renderers_agree (print_text_report self) (export_chrome_trace self)).
  { unfold print_text_report, export_chrome_trace.
    pose proof (mapM_renderers_agree
                  (fun root => _print_node_recursive (length (heap self)) self root 0)
                  (fun root => to_chrome_trace_events (length (heap self))
                                 (heap self) root 1%Z)
                  (completed_roots self)
                  (fun c => node_renderers_agree _ self c 0 1%Z)) as H.
    destruct (mapM _ (completed_roots self)) as [A|],
             (mapM _ (completed_roots self)) as [B|]; simpl; tauto. }
  destruct (export_chrome_trace_total self Hwf) as [evs Hevs].
  rewrite Hevs in Hagree. unfold renderers_agree in Hagree.
  destruct (print_text_report self) as [lines|]; [eauto|contradiction].
Qed.

(** What is printed for a node are the lines of the node and of the nodes
    below it. *)
Lemma print_node_lines (fuel : nat) (self : LogProfiler) :
  forall n level lines,
    _print_node_recursive fuel self n level = Some lines ->
    (forall line, In line lines ->
       exists d obj lvl,
         (d = n \/ descendant (heap self) n d)
         /\ heap self !! d = Some obj /\ line = report_line self obj lvl)
    /\ (forall d obj,
          d = n \/ descendant (heap self) n d -> heap self !! d = Some obj ->
          exists lvl, In (report_line self obj lvl) lines).
Proof.
  induction fuel as [|fuel IH]; intros n level lines; simpl; [discriminate|].
  destruct (heap self !! n) as [obj|] eqn:Hobj; [|discriminate].
  destruct (mapM _ (children obj)) as [sub|] eqn:Hsub; [|discriminate].
  intros [= <-]. apply mapM_Some_1 in Hsub. split.
  - intros line [<-|Hin]; [exists n, obj, level; tauto|].
    apply in_concat in Hin as (s & Hs & Hin).
    destruct (Forall2_In_split_r _ _ _ _ Hsub Hs) as (l1 & c & l2 & Hch & Hc).
    destruct (proj1 (IH _ _ _ Hc) line Hin) as (d & od & lvl & Hd & Hod & ->).
    assert (Hchild : child_of (heap self) n c).
    { exists obj. split; [exact Hobj|]. rewrite Hch. apply in_elt. }
    exists d, od, lvl. split; [right|tauto].
    destruct Hd as [->|Hd]; [apply desc_child, Hchild|].
    apply (desc_step _ n c d Hchild Hd).
  - intros d od Hd Hod.
    destruct Hd as [->|Hd].
    { exists level. left. congruence. }
    assert (Hcase : exists c, In c (children obj)
                              /\ (d = c \/ descendant (heap self) c d)).
    { inversion Hd as [p c (obj' & Hp & Hc) E1 E2|p c d' (obj' & Hp & Hc) Hcd E1 E2];
        rewrite Hobj in Hp; injection Hp as <-.
      - exists d. tauto.
      - exists c. tauto. }
    destruct Hcase as (c & Hc & Hcd).
    destruct (Forall2_In_split _ _ _ _ Hsub Hc) as (k1 & s & k2 & -> & Hs).
    destruct (proj2 (IH _ _ _ Hs) d od Hcd Hod) as [lvl Hin].
    exists lvl. right. apply in_concat. exists s. split; [apply in_elt|exact Hin].
Qed.

(** C5, as the code has it: after any stream, with or without
    [_close_dangling_events], the text report comes back; it has a line for
    every node of the Forest and only such lines.  The line of a node
    carries the warn marker exactly when the node's duration, the float
    that [duration_ms] returns, strictly exceeds the threshold of the first
    configured event of the node's name, where an event configured without
    a threshold has the threshold [0].  So the node of such an event is not
    exempt from the marker: it is marked warn exactly when its duration is
    positive. *)
Theorem C5_warn_iff_duration_exceeds_threshold :
  forall (re_search : string -> string -> bool) (events : list ConfigEvent)
         (sigs : list Delivery) (finalized : bool),
    let self :=
      after_stream finalized sigs (LogProfiler_init re_search events) in
    exists lines,
      print_text_report self = Some lines
      /\ (forall n obj, in_forest self n -> heap self !! n = Some obj ->
            exists level, In (report_line self obj level) lines)
      /\ (forall line, In line lines ->
            exists n obj level,
              in_forest self n /\ heap self !! n = Some obj
              /\ line = report_line self obj level)
      /\ forall obj level,
           rl_name (report_line self obj level) = name obj
           /\ match find (fun e => String.eqb (cfg_name e) (name obj)) events with
              | Some evt =>
                  (rl_icon (report_line self obj level) = IconWarn
                   <-> (default 0 (threshold_ms evt) < duration_ms_float obj)%Q)
                  /\ (threshold_ms evt = None ->
                      (rl_icon (report_line self obj level) = IconWarn
                       <-> (0 < duration_ms obj)%Q))
              | None =>
                  rl_icon (report_line self obj level) = IconWarn
                  <-> (0 < duration_ms obj)%Q
              end.
Proof.
  intros re_search events sigs finalized self.
  assert (Hwf : wf self) by (apply wf_after_stream, (wf_fresh _)).
  assert (Hdefs : event_defs self = map (compile_event re_search) events)
    by apply event_defs_after_stream.
  destruct (print_text_report_total self Hwf) as [lines Hlines].
  exists lines. split; [exact Hlines|].
  unfold print_text_report in Hlines.
  destruct (mapM _ (completed_roots self)) as [per_root|] eqn:Hroots; [|discriminate].
  injection Hlines as <-. apply mapM_Some_1 in Hroots.
  split; [|split].
  - intros n obj (r & Hr & Hn) Hobj.
    destruct (Forall2_In_split _ _ _ _ Hroots Hr) as (k1 & s & k2 & -> & Hs).
    destruct (proj2 (print_node_lines _ _ _ _ _ Hs) n obj Hn Hobj) as [lvl Hin].
    exists lvl. apply in_concat. exists s. split; [apply in_elt|exact Hin].
  - intros line Hin. apply in_concat in Hin as (s & Hs & Hin).
    destruct (Forall2_In_split_r _ _ _ _ Hroots Hs) as (l1 & r & l2 & Hr & Hp).
    destruct (proj1 (print_node_lines _ _ _ _ _ Hp) line Hin)
      as (d & od & lvl & Hd & Hod & ->).
    exists d, od, lvl. split; [|tauto].
    exists r. split; [rewrite Hr; apply in_elt|exact Hd].
  - intros obj level. split; [reflexivity|].
    assert (Hicon : rl_icon (report_line self obj level) = IconWarn
                    <-> (lookup_threshold (event_defs self) (name obj)
                         < duration_ms_float obj)%Q).
    { simpl. unfold status_icon. destruct (Qgtb _ _) eqn:Hg.
      - apply Qgtb_true_iff in Hg. tauto.
      - split; [discriminate|]. intros Hlt. apply Qgtb_true_iff in Hlt. congruence. }
    rewrite Hdefs, lookup_threshold_compiled in Hicon.
    destruct (find _ events) as [evt|].
    + split; [exact Hicon|]. intros Hnone. rewrite Hnone in Hicon. simpl in Hicon.
      rewrite Hicon. apply duration_ms_float_positive.
    + rewrite Hicon. apply duration_ms_float_positive.
Qed.
